(** * The WEAT permutation test of [compute_weat.py]

    A shallow embedding of the class [Test] (similarity matrix, association
    vector, exact / sampled / parametric p-value, effect size, test driver)
    together with the few library functions it calls, and the properties the
    specification states about it. *)

From Stdlib Require Import String.
From Stdlib Require Import ZArith List Bool Lia Arith Permutation Sorted.
From Stdlib Require Import QArith Floats Reals Lra.
Import ListNotations.

Close Scope string_scope.
Close Scope Q_scope.
Close Scope R_scope.
Close Scope Z_scope.
Open Scope nat_scope.

(* ================================================================== *)
(** ** Python exceptions and fallible computations *)

Inductive exn : Type :=
| AssertionError
| ValueError
| IndexError
| OverflowError
| ZeroDivisionError.

Inductive result (T : Type) : Type :=
| Ok (v : T)
| Raise (e : exn).

Arguments Ok {T} v.
Arguments Raise {T} e.

Definition bind {T U : Type} (c : result T) (k : T -> result U) : result U :=
  match c with
  | Ok v => k v
  | Raise e => Raise e
  end.

Declare Scope py_scope.
Delimit Scope py_scope with py.
Notation "'let*' x ':=' c 'in' k" := (bind c (fun x => k))
  (at level 10, x pattern, c at level 100, k at level 200) : py_scope.
Open Scope py_scope.

(** [assert cond] *)
Definition assert (cond : bool) : result unit :=
  if cond then Ok tt else Raise AssertionError.

(* ================================================================== *)
(** ** The arithmetic of array elements

    numpy arrays are generic in their element type.  The engine only adds,
    subtracts, multiplies, divides, takes square roots and compares.  Two
    instances are used below: IEEE-754 binary64 (what numpy computes with)
    and the real numbers (the exact arithmetic in which the specification
    states its algebraic identities).  [finfo_eps] is [np.finfo(dtype).eps],
    [2^-52] for binary64; the exact arithmetic keeps the constant.  Division
    of real numbers is total where a double gives NaN or an infinity: the
    properties stated over the reals are stated where no divisor is zero. *)

Class Scalar (F : Type) : Type := {
  fzero : F;
  fone : F;
  fadd : F -> F -> F;
  fsub : F -> F -> F;
  fmul : F -> F -> F;
  fdiv : F -> F -> F;
  fsqrt : F -> F;
  fltb : F -> F -> bool;
  feqb : F -> F -> bool;
  of_nat : nat -> F;
  isfinite : F -> bool;
  finfo_eps : F
}.

(** The double nearest to an integer (infinite beyond the largest double). *)
Definition float_of_Z (z : Z) : float :=
  SF2Prim (binary_normalize prec emax z 0%Z false).

#[export] Instance float64 : Scalar float := {
  fzero := 0%float;
  fone := 1%float;
  fadd := PrimFloat.add;
  fsub := PrimFloat.sub;
  fmul := PrimFloat.mul;
  fdiv := PrimFloat.div;
  fsqrt := PrimFloat.sqrt;
  fltb := PrimFloat.ltb;
  feqb := PrimFloat.eqb;
  of_nat := fun n => float_of_Z (Z.of_nat n);
  isfinite := fun x => negb (is_nan x || is_infinity x);
  finfo_eps := 0x1p-52%float
}.

#[export] Instance exact_real : Scalar R := {
  fzero := 0%R;
  fone := 1%R;
  fadd := Rplus;
  fsub := Rminus;
  fmul := Rmult;
  fdiv := Rdiv;
  fsqrt := R_sqrt.sqrt;
  fltb := fun x y => if Rlt_dec x y then true else false;
  feqb := fun x y => if Req_dec_T x y then true else false;
  of_nat := INR;
  isfinite := fun _ => true;
  finfo_eps := (/ 2 ^ 52)%R
}.

(* ================================================================== *)
(** ** numpy: two-dimensional arrays and reductions *)

Section Numpy.
Context {F : Type} `{Scalar F}.

(** A 2-D array of shape [(length rows, ncols)]; an empty set of [d]-dimensional
    embeddings is [{| ncols := d; rows := [] |}]. *)
Record ndarray : Type := mk_ndarray {
  ncols : nat;
  rows : list (list F)
}.

(** [a.shape[0]] *)
Definition nrows (a : ndarray) : nat := length (rows a).

(** [np.concatenate((a, b))] along axis 0: the other dimension must agree. *)
Definition concatenate (a b : ndarray) : result ndarray :=
  if ncols a =? ncols b
  then Ok (mk_ndarray (ncols a) (rows a ++ rows b))
  else Raise ValueError.

(** [np.concatenate((a, b, c, d))] *)
Definition concatenate4 (a b c d : ndarray) : result ndarray :=
  let* ab := concatenate a b in
  let* abc := concatenate ab c in
  concatenate abc d.

(** [np.arange(n)] and [np.arange(a, b)] *)
Definition arange (n : nat) : list nat := seq 0 n.
Definition arange2 (a b : nat) : list nat := seq a (b - a).

(** [v[mask]] for an index array [mask]: an index past the end raises. *)
Fixpoint take {E : Type} (v : list E) (mask : list nat) : result (list E) :=
  match mask with
  | [] => Ok []
  | i :: mask' =>
      match nth_error v i with
      | Some x => let* r := take v mask' in Ok (x :: r)
      | None => Raise IndexError
      end
  end.

(** [v.sum()]: the elements added from left to right, as numpy adds fewer
    than 8 of them; from 8 elements on numpy adds them in blocks, with the
    same sum over the reals and possibly another rounding in binary64. *)
Definition np_sum (v : list F) : F := fold_left fadd v fzero.

(** [np.mean(v)]: the sum divided by the number of elements. *)
Definition np_mean (v : list F) : F := fdiv (np_sum v) (of_nat (length v)).

(** [np.std(v, ddof=ddof)] *)
Definition np_std (v : list F) (ddof : nat) : F :=
  let arrmean := np_mean v in
  let x := map (fun e => fsub e arrmean) v in
  let x := map (fun e => fmul e e) x in
  fsqrt (fdiv (np_sum x) (of_nat (Nat.max (length v - ddof) 0))).

(* ------------------------------------------------------------------ *)
(** ** sklearn: [cosine_similarity] *)

(** Input validation of [check_pairwise_arrays]: at least one sample, at
    least one feature, no NaN and no infinity. *)
Definition check_array (a : ndarray) : result unit :=
  if (nrows a =? 0) || (ncols a =? 0) then Raise ValueError
  else if forallb (forallb isfinite) (rows a) then Ok tt
  else Raise ValueError.

(** Euclidean norm of a row. *)
Definition row_norm (r : list F) : F :=
  fsqrt (np_sum (map (fun e => fmul e e) r)).

(** [10 * np.finfo(norms.dtype).eps] *)
Definition small_norm : F := fmul (of_nat 10) finfo_eps.

(** [normalize(X)]: each row divided by its norm; a norm below
    [10 * eps], a zero norm among them, is replaced by 1
    ([norms[norms < 10 * eps] = 1.0]). *)
Definition normalize_row (r : list F) : list F :=
  let n := row_norm r in
  let n := if fltb n small_norm then fone else n in
  map (fun e => fdiv e n) r.

(** The inner product of two rows: the products added from left to right.
    The matrix product of numpy may fuse or reorder the additions, with the
    same value over the reals and possibly another last bit in binary64. *)
Definition dot (u v : list F) : F :=
  fold_left (fun acc p => fadd acc (fmul (fst p) (snd p))) (combine u v) fzero.

Definition cosine_similarity (U V : ndarray) : result ndarray :=
  let* _ := check_array U in
  let* _ := check_array V in
  if ncols U =? ncols V
  then
    let Pn := map normalize_row (rows U) in
    let Qn := map normalize_row (rows V) in
    Ok (mk_ndarray (nrows V) (map (fun u => map (fun v => dot u v) Qn) Pn))
  else Raise ValueError.

End Numpy.

Arguments ndarray F : clear implicits.

(* ================================================================== *)
(** ** Python integers, [int()], and the binomial coefficient *)

(** [int(x)] for a double: truncation toward zero; [OverflowError] on an
    infinity and [ValueError] on NaN. *)
Definition int_of_float (x : float) : result Z :=
  match Prim2SF x with
  | S754_nan => Raise ValueError
  | S754_infinity _ => Raise OverflowError
  | S754_zero _ => Ok 0%Z
  | S754_finite s m e =>
      let a := if (0 <=? e)%Z then Z.shiftl (Zpos m) e
               else Z.shiftr (Zpos m) (- e) in
      Ok (if s then (- a)%Z else a)
  end.

(** The binomial coefficient by Pascal's rule: the number of [k]-element
    combinations of [n] elements. *)
Fixpoint binomial (n k : nat) {struct n} : nat :=
  match k with
  | 0 => 1
  | S k' =>
      match n with
      | 0 => 0
      | S n' => binomial n' k' + binomial n' k
      end
  end.

(** The same number by the multiplicative formula, on binary integers. *)
Fixpoint comb (n : Z) (k : nat) : Z :=
  match k with
  | 0 => 1%Z
  | S k' => (comb n k' * (n - Z.of_nat k') / Z.of_nat k)%Z
  end.

(** [scipy.special.binom(n, k)] computes in doubles.  For integers with
    [k < 20] (after [k] is replaced by [n - k] when that is smaller) it
    runs the multiplicative formula:
    [for i in range(1, 1 + kx): num *= i + n - kx; den *= i;
       if fabs(num) > 1e50: num /= den; den = 1.0]
    and returns [num / den]. *)
Fixpoint binom_loop (n kx : float) (idx : list nat) (num den : float)
  : float :=
  match idx with
  | [] => (num / den)%float
  | i :: idx' =>
      let num := (num * (float_of_Z (Z.of_nat i) + n - kx))%float in
      let den := (den * float_of_Z (Z.of_nat i))%float in
      (* [0x1.11b0ec57e649ap+166] is the double [1e50] *)
      if (0x1.11b0ec57e649ap+166 <? abs num)%float
      then binom_loop n kx idx' (num / den)%float 1%float
      else binom_loop n kx idx' num den
  end.

(** For [k >= 20] it goes through the beta function,
    [1 / (n + 1) / beta(1 + n - k, 1 + k)]; that case is modelled by the
    double nearest to the exact coefficient, infinite beyond the largest
    double. *)
Definition binom_general (n k : nat) : float :=
  float_of_Z (comb (Z.of_nat n) k).

(** [n] and [k] are array lengths: integers, exact as doubles.
    [if kx > nx / 2 and nx > 0: kx = nx - kx], then
    [if kx >= 0 and kx < 20:] the loop. *)
Definition binom (n k : nat) : float :=
  let kx := if (n <? 2 * k) && (0 <? n)
            then (Z.of_nat n - Z.of_nat k)%Z else Z.of_nat k in
  if ((0 <=? kx) && (kx <? 20))%Z
  then binom_loop (float_of_Z (Z.of_nat n)) (float_of_Z kx)
         (seq 1 (Z.to_nat kx)) 1%float 1%float
  else binom_general n k.

(** [a / b] on Python integers.  Python returns the double nearest to the
    quotient; the model keeps the quotient itself. *)
Definition true_divide (a b : Z) : result Q :=
  match b with
  | Z0 => Raise ZeroDivisionError
  | Zpos d => Ok (Qmake a d)
  | Zneg d => Ok (Qmake (- a) d)
  end.

(* ================================================================== *)
(** ** [itertools.combinations] *)

(** All [k]-element subsequences, in lexicographic order of positions. *)
Fixpoint combinations {E : Type} (l : list E) (k : nat) : list (list E) :=
  match k, l with
  | 0, _ => [[]]
  | S _, [] => []
  | S k', x :: l' =>
      map (cons x) (combinations l' k') ++ combinations l' k
  end.

(* ================================================================== *)
(** ** [np.random]: the global generator and [shuffle] *)

(** The generator is a stream of raw draws and a position in it. *)
Record RandomState : Type := mk_random {
  tape : nat -> nat;
  cursor : nat
}.

(** A draw from [[0, max]]. *)
Definition random_interval (max : nat) (st : RandomState)
  : nat * RandomState :=
  (tape st (cursor st) mod (S max), mk_random (tape st) (S (cursor st))).

Fixpoint update {E : Type} (i : nat) (v : E) (x : list E) : list E :=
  match x, i with
  | [], _ => []
  | _ :: x', 0 => v :: x'
  | e :: x', S i' => e :: update i' v x'
  end.

(** [x[i], x[j] = x[j], x[i]] *)
Definition swap {E : Type} (i j : nat) (x : list E) : list E :=
  match nth_error x i, nth_error x j with
  | Some a, Some b => update i b (update j a x)
  | _, _ => x
  end.

(** [for i in reversed(range(1, n)): j = random_interval(i); swap x[i], x[j]],
    entered at [i]. *)
Fixpoint shuffle_from {E : Type} (i : nat) (x : list E) (st : RandomState)
  : list E * RandomState :=
  match i with
  | 0 => (x, st)
  | S i' =>
      let (j, st') := random_interval i st in
      shuffle_from i' (swap i j x) st'
  end.

(** [np.random.shuffle(x)]: Fisher-Yates along the first axis. *)
Definition shuffle {E : Type} (x : list E) (st : RandomState)
  : list E * RandomState :=
  shuffle_from (length x - 1) x st.

(* ================================================================== *)
(** ** The class [Test] *)

Section WEAT.
Context {F : Type} `{Scalar F}.

(** [scipy.stats.shapiro] and [scipy.stats.norm.sf] are used by the parametric
    estimator only; they are left abstract. *)
Variable shapiro : list F -> F * F.
Variable norm_sf : F -> F -> F -> F.

Record Test : Type := mk_Test {
  X : ndarray F;
  Y : ndarray F;
  A : ndarray F;
  B : ndarray F;
  names : list String.string;
  similarity_matrix : ndarray F;
  s_AB : list F
}.

(** The value [p] returns: the quotient of two integer counts
    (non-parametric), or the value of [norm.sf] (parametric). *)
Inductive pvalue : Type :=
| Quotient (q : Q)
| Survival (v : F).

Definition similarities (self : Test) : result (ndarray F) :=
  let* XY := concatenate (X self) (Y self) in
  let* AB := concatenate (A self) (B self) in
  cosine_similarity XY AB.

(** [similarity_matrix[w, :nA].mean(axis=1) - similarity_matrix[w, nA:].mean(axis=1)] *)
Definition s_wAB (self : Test) (w : list nat) : result (list F) :=
  let* sel := take (rows (similarity_matrix self)) w in
  let nA := nrows (A self) in
  Ok (map (fun r => fsub (np_mean (firstn nA r)) (np_mean (skipn nA r))) sel).

Definition set_similarity_matrix (self : Test) (m : ndarray F) : Test :=
  mk_Test (X self) (Y self) (A self) (B self) (names self) m (s_AB self).

Definition set_s_AB (self : Test) (v : list F) : Test :=
  mk_Test (X self) (Y self) (A self) (B self) (names self)
    (similarity_matrix self) v.

Definition set_XYAB (self : Test) (x y a b : ndarray F) : Test :=
  mk_Test x y a b (names self) (similarity_matrix self) (s_AB self).

Definition calc_s_AB (self : Test) : result Test :=
  let* v := s_wAB self (arange (nrows (similarity_matrix self))) in
  Ok (set_s_AB self v).

Definition reset_calc (self : Test) : result Test :=
  let* m := similarities self in
  let self := set_similarity_matrix self m in
  let self := set_s_AB self [] in
  calc_s_AB self.

Definition default_names : list String.string :=
  ["X"%string; "Y"%string; "A"%string; "B"%string].

(** [Test(X, Y, A, B, names)] *)
Definition init (x y a b : ndarray F) (nm : option (list String.string))
  : result Test :=
  let nm := match nm with Some l => l | None => default_names end in
  reset_calc (mk_Test x y a b nm (mk_ndarray 0 []) []).

Definition s_XAB (self : Test) (mask : list nat) : result F :=
  let* v := take (s_AB self) mask in
  Ok (np_sum v).

Definition s_XYAB (self : Test) (Xi Yi : list nat) : result F :=
  let* a := s_XAB self Xi in
  let* b := s_XAB self Yi in
  Ok (fsub a b).

(** The three counters of the non-parametric estimator. *)
Record counts : Type := mk_counts {
  total_true : Z;
  total_equal : Z;
  total : Z
}.

(** The body shared by both loops:
    [if si > s: ... elif si == s: ...; total += 1]. *)
Definition tally (s si : F) (c : counts) : counts :=
  if fltb s si then
    mk_counts (total_true c + 1) (total_equal c) (total c + 1)
  else if feqb si s then
    mk_counts (total_true c + 1) (total_equal c + 1) (total c + 1)
  else
    mk_counts (total_true c) (total_equal c) (total c + 1).

(** [for Xi in it.combinations(...)] *)
Fixpoint exact_loop (self : Test) (s : F) (lenXY : nat)
    (parts : list (list nat)) (c : counts) : result counts :=
  match parts with
  | [] => Ok c
  | Xi :: parts' =>
      let* _ := assert (2 * length Xi =? lenXY) in
      let* si := s_XAB self Xi in
      exact_loop self s lenXY parts' (tally s si c)
  end.

(** [for i in range(k)] of the sampling branch. *)
Fixpoint sampling_loop (self : Test) (s : F) (size lenXY : nat) (k : nat)
    (c : counts) (st : RandomState) : result (counts * RandomState) :=
  match k with
  | 0 => Ok (c, st)
  | S k' =>
      let (a, st) := shuffle (arange lenXY) st in
      let Xi := firstn size a in
      let* _ := assert (2 * length Xi =? lenXY) in
      let* si := s_XAB self Xi in
      sampling_loop self s size lenXY k' (tally s si c) st
  end.

(** [for _ in range(k)] of the parametric estimator; returns [samples]. *)
Fixpoint parametric_loop (self : Test) (size lenXY : nat) (k : nat)
    (samples : list F) (st : RandomState)
  : result (list F * RandomState) :=
  match k with
  | 0 => Ok (samples, st)
  | S k' =>
      let (a, st) := shuffle (arange lenXY) st in
      let Xi := firstn size a in
      let Yi := skipn size a in
      let* _ := assert (length Xi =? length Yi) in
      let* si := s_XYAB self Xi Yi in
      parametric_loop self size lenXY k' (samples ++ [si]) st
  end.

(** [int(scipy.special.binom(2 * size, size))] *)
Definition num_partitions (size : nat) : result Z :=
  int_of_float (binom (2 * size) size).

Definition p (self : Test) (n_samples : Z) (parametric : bool)
    (st : RandomState) : result (pvalue * RandomState) :=
  let* _ := assert (nrows (X self) =? nrows (Y self)) in
  let size := nrows (X self) in
  let* XY := concatenate (X self) (Y self) in
  if parametric then
    let* s := s_XYAB self (arange (nrows (X self)))
                (arange2 (nrows (X self)) (nrows (X self) + nrows (Y self))) in
    let* (samples, st) :=
      parametric_loop self size (nrows XY) (Z.to_nat n_samples) [] st in
    let '(shapiro_test_stat, shapiro_p_val) := shapiro samples in
    let sample_mean := np_mean samples in
    let sample_std := np_std samples 1 in
    let p_val := norm_sf s sample_mean sample_std in
    Ok (Survival p_val, st)
  else
    let* s := s_XAB self (arange (nrows (X self))) in
    let c := mk_counts 0 0 0 in
    let* np := num_partitions (nrows (X self)) in
    let* (c, st) :=
      if (n_samples <? np)%Z then
        let c := mk_counts (total_true c + 1) (total_equal c) (total c + 1) in
        sampling_loop self s size (nrows XY) (Z.to_nat (n_samples - 1)) c st
      else
        let* c := exact_loop self s (nrows XY)
                    (combinations (arange (nrows XY)) (nrows (X self))) c in
        Ok (c, st) in
    let* q := true_divide (total_true c) (total c) in
    Ok (Quotient q, st).

Definition effect_size (self : Test) : result F :=
  let* sx := s_wAB self (arange (nrows (X self))) in
  let* sy := s_wAB self
               (arange2 (nrows (X self)) (nrows (similarity_matrix self))) in
  let numerator := fsub (np_mean sx) (np_mean sy) in
  let denominator := np_std (s_AB self) 1 in
  Ok (fdiv numerator denominator).

(** [D[a:b, :]] *)
Definition slice_rows (D : ndarray F) (a b : nat) : ndarray F :=
  mk_ndarray (ncols D) (firstn (b - a) (skipn a (rows D))).

(** [run(randomized, n_samples=..., parametric=...)]: returns [(e, p)], the
    instance as the call leaves it, and the generator. *)
Definition run (self : Test) (randomized : bool) (n_samples : Z)
    (parametric : bool) (st : RandomState)
  : result ((F * pvalue) * Test * RandomState) :=
  let X_orig := X self in
  let Y_orig := Y self in
  let A_orig := A self in
  let B_orig := B self in
  let* (self, st) :=
    if randomized then
      let* D := concatenate4 (X self) (Y self) (A self) (B self) in
      let (d, st) := shuffle (rows D) st in
      let D := mk_ndarray (ncols D) d in
      let nX := nrows X_orig in
      let nA := nrows A_orig in
      let self :=
        set_XYAB self
          (slice_rows D 0 nX)
          (slice_rows D nX (2 * nX))
          (slice_rows D (2 * nX) (2 * nX + nA))
          (slice_rows D (2 * nX + nA) (nrows D)) in
      let* self := reset_calc self in
      Ok (self, st)
    else Ok (self, st) in
  let* (pv, st) := p self n_samples parametric st in
  let* e := effect_size self in
  let* self :=
    if randomized then
      reset_calc (set_XYAB self X_orig Y_orig A_orig B_orig)
    else Ok self in
  Ok ((e, pv), self, st).

End WEAT.

Arguments Test F : clear implicits.
Arguments pvalue F : clear implicits.

(* ================================================================== *)
(** ** Vocabulary of the specification *)

Definition b2z (b : bool) : Z := if b then 1%Z else 0%Z.

Section Vocabulary.
Context {F : Type} `{Scalar F}.

(** The instance is in the state its constructor leaves it in: similarity
    matrix and association vector are those of the current X, Y, A, B. *)
Definition consistent (t : Test F) : Prop := reset_calc t = Ok t.

(** The association score of one row of the similarity matrix: mean
    similarity to the first [nA] attributes minus mean similarity to the
    others. *)
Definition association (nA : nat) (r : list F) : F :=
  fsub (np_mean (firstn nA r)) (np_mean (skipn nA r)).

(** One row of the similarity matrix: the cosine similarities of the target
    [u] to each attribute of [ab]. *)
Definition similarity_row (ab : list (list F)) (u : list F) : list F :=
  map (fun v => dot (normalize_row u) v) (map normalize_row ab).

(** The sum of the association scores [v] at the indices [mask]. *)
Definition sum_at (v : list F) (mask : list nat) : F :=
  np_sum (map (fun i => nth i v fzero) mask).

(** The sums of all [k]-element combinations of the scores [v]. *)
Definition subset_sums (v : list F) (k : nat) : list F :=
  map np_sum (combinations v k).

(** [si > s or si == s] *)
Definition at_least (s si : F) : bool := fltb s si || feqb si s.

(** The number of index sets whose statistic is at least [s], and the number
    of those that tie with it. *)
Definition count_ge (v : list F) (s : F) (parts : list (list nat)) : nat :=
  length (filter (fun Xi => at_least s (sum_at v Xi)) parts).

Definition count_tie (v : list F) (s : F) (parts : list (list nat)) : nat :=
  length (filter (fun Xi => negb (fltb s (sum_at v Xi))
                            && feqb (sum_at v Xi) s) parts).

(** An index set the loops accept: half of the pooled indices, all in range. *)
Definition admissible (t : Test F) (lenXY : nat) (Xi : list nat) : Prop :=
  2 * length Xi = lenXY /\ Forall (fun i => i < length (s_AB t)) Xi.

(** The statistic [s_XYAB] of the bipartition a shuffled index array induces. *)
Definition split_statistic (v : list F) (size : nat) (a : list nat) : F :=
  fsub (sum_at v (firstn size a)) (sum_at v (skipn size a)).

(** The randomized repartition: the rows of X, Y, A and B pooled in this
    order and shuffled, then cut at [|X|], [2 |X|] and [2 |X| + |A|]. *)
Definition repartition (x y a b : ndarray F) (st : RandomState)
  : (ndarray F * ndarray F * ndarray F * ndarray F) * RandomState :=
  let (d, st) := shuffle (((rows x ++ rows y) ++ rows a) ++ rows b) st in
  let D := mk_ndarray (ncols x) d in
  let nX := nrows x in
  let nA := nrows a in
  ((slice_rows D 0 nX, slice_rows D nX (2 * nX),
    slice_rows D (2 * nX) (2 * nX + nA),
    slice_rows D (2 * nX + nA) (nrows D)), st).

(** [k] successive shuffles of a fresh [arange(n)], the generator threaded
    from one to the next. *)
Fixpoint draws (k n : nat) (st : RandomState)
  : list (list nat) * RandomState :=
  match k with
  | 0 => ([], st)
  | S k' =>
      let (a, st) := shuffle (arange n) st in
      let (r, st) := draws k' n st in
      (a :: r, st)
  end.

End Vocabulary.

(* ================================================================== *)
(** ** Branch selection, repeated runs, and concrete inputs *)

(** Which loop the non-parametric estimator runs: the test
    [num_partitions > n_samples] of [p]. *)
Inductive branch : Type := Exact | Sampled.

Definition selected_branch (size : nat) (n_samples : Z) : result branch :=
  let* np := num_partitions size in
  Ok (if (n_samples <? np)%Z then Sampled else Exact).

(** Two calls of [run] in succession on the same instance. *)
Definition run_twice {F : Type} `{Scalar F}
    (shapiro : list F -> F * F) (norm_sf : F -> F -> F -> F)
    (self : Test F) (randomized : bool) (n_samples : Z) (parametric : bool)
    (st : RandomState)
  : result ((F * pvalue F) * (F * pvalue F)) :=
  let* (r1, self, st) := run shapiro norm_sf self randomized n_samples
                           parametric st in
  let* (r2, self, st) := run shapiro norm_sf self randomized n_samples
                           parametric st in
  Ok (r1, r2).

(** A binary64 array. *)
Definition array64 (d : nat) (l : list (list float)) : ndarray float :=
  mk_ndarray d l.

(** The scenario of the specification. *)
Definition X_1 : ndarray float := array64 2 [[1; 0]; [0; 1]]%float.
Definition Y_1 : ndarray float := array64 2 [[-1; 0]; [0; -1]]%float.
Definition A_1 : ndarray float := array64 2 [[1; 0]]%float.
Definition B_1 : ndarray float := array64 2 [[-1; 0]]%float.

(** A generator whose raw draws are 0, 1, 2, ... *)
Definition counting_state (start : nat) : RandomState :=
  mk_random (fun i => i) start.

(** Classification of a double. *)
Definition is_nan_or_inf (x : float) : bool := is_nan x || is_infinity x.

(** Inputs on which rounding shows: two targets almost orthogonal to the
    attributes, at [2^-60] on either side. *)
Definition X_2 : ndarray float := array64 2 [[0; 1]; [1; 0]]%float.
Definition Y_2 : ndarray float :=
  array64 2 [[0x1p-60; 1]; [-0x1p-60; 1]]%float.

(** Six hundred targets per set: [C(1200, 600)] is beyond every double. *)
Definition X_600 : ndarray float := array64 2 (repeat [1; 0]%float 600).
Definition Y_600 : ndarray float := array64 2 (repeat [0; 1]%float 600).

(** One target per set, both equally associated with A and with B. *)
Definition X_0 : ndarray float := array64 2 [[1; 0]]%float.
Definition Y_0 : ndarray float := array64 2 [[1; 0]]%float.
Definition A_0 : ndarray float := array64 2 [[1; 0]]%float.
Definition B_0 : ndarray float := array64 2 [[0; 1]]%float.

(** A small input over the reals. *)
Definition X_R : ndarray R := mk_ndarray 2 [[1; 0]]%R.
Definition Y_R : ndarray R := mk_ndarray 2 [[0; 1]]%R.
Definition A_R : ndarray R := mk_ndarray 2 [[1; 0]]%R.
Definition B_R : ndarray R := mk_ndarray 2 [[0; 1]]%R.

(** A third target set, one row longer than [X_1]. *)
Definition Y_3 : ndarray float := array64 2 [[-1; 0]; [0; -1]; [1; 1]]%float.

(** The targets of the small real input, rescaled. *)
Definition X_R2 : ndarray R := mk_ndarray 2 [[2; 0]]%R.
Definition Y_R2 : ndarray R := mk_ndarray 2 [[0; 3]]%R.

(** ** Vocabulary for the exact arithmetic *)

(** A cosine lies in [[-1, 1]]. *)
Definition in_unit (c : R) : Prop := (-1 <= c <= 1)%R.

(** A row the normalization divides by its norm, or a zero row: its norm is
    not below [10 * eps] unless it is zero. *)
Definition sizeable (r : list R) : Prop :=
  (row_norm r = 0 \/ small_norm <= row_norm r)%R.

(** [x'] is [x] with each row multiplied by a positive factor of its own, no
    row having a norm between 0 and [10 * eps], before or after. *)
Definition rescaled (x x' : ndarray R) : Prop :=
  ncols x' = ncols x /\
  Forall2 (fun r r' => exists c : R, (0 < c)%R /\ r' = map (Rmult c) r /\
                                     sizeable r /\ sizeable r')
          (rows x) (rows x').

(* ================================================================== *)
(** ** Python strings *)

(** A [str] is a sequence of Unicode code points. *)
Abbreviation str := (list N) (only parsing).

(** The characters the prompt templates are cut at: ['\n'], ['#'], [' ']. *)
Definition LF : N := 10%N.
Definition HASH : N := 35%N.
Definition SPACE : N := 32%N.

(** [s.startswith(prefix)] *)
Fixpoint startswith (s prefix : str) {struct prefix} : bool :=
  match prefix, s with
  | [], _ => true
  | _ :: _, [] => false
  | c :: prefix', d :: s' => (c =? d)%N && startswith s' prefix'
  end.

(** [sub in s] *)
Fixpoint contains (s sub : str) : bool :=
  startswith s sub ||
  match s with
  | [] => false
  | _ :: s' => contains s' sub
  end.

(** [s.replace('', new, count)]: [new] goes before each character and after
    the last one, [count] times at most (a negative [count] is no limit). *)
Fixpoint interleave (new s : str) (count : Z) : str :=
  if (count =? 0)%Z then s
  else match s with
       | [] => new
       | c :: s' => new ++ c :: interleave new s' (count - 1)
       end.

(** [s.replace(old, new, count)] for a non-empty [old]: the occurrences are
    found from the left and do not overlap; [skip] characters of the last
    occurrence found are still to be passed over. *)
Fixpoint replace_from (old new s : str) (skip : nat) (count : Z) : str :=
  match s with
  | [] => []
  | c :: s' =>
      match skip with
      | S k => replace_from old new s' k count
      | 0 =>
          if negb (count =? 0)%Z && startswith s old
          then new ++ replace_from old new s' (length old - 1) (count - 1)
          else c :: replace_from old new s' 0 count
      end
  end.

(** [s.replace(old, new, count)]; [s.replace(old, new)] is [count = -1]. *)
Definition replace (s old new : str) (count : Z) : str :=
  match old with
  | [] => interleave new s count
  | _ :: _ => replace_from old new s 0 count
  end.

(** [f.readlines()] on the text of a file opened in text mode: the lines,
    each with its ['\n'] (the last one may have none). *)
Fixpoint readlines (text : str) : list str :=
  match text with
  | [] => []
  | c :: text' =>
      if (c =? LF)%N then [c] :: readlines text'
      else match readlines text' with
           | [] => [[c]]
           | l :: ls => (c :: l) :: ls
           end
  end.

(** [[item for item in l for i in range(k)]] *)
Definition repeat_each {E : Type} (l : list E) (k : Z) : list E :=
  flat_map (fun item => repeat item (Z.to_nat k)) l.

(* ================================================================== *)
(** ** [compute_relative_bias.py]: the prompts *)

(** The prompts of [generate_clean_samples]: the placeholder ["# "] is
    dropped.  [prompt_file] is the text of the file of that name. *)
Definition clean_prompts (prompt_file : str) (num_images : Z) : list str :=
  let clean_prompts := readlines prompt_file in
  let clean_prompts := map (fun p => replace p [LF] [] (-1)) clean_prompts in
  let clean_prompts :=
    map (fun p => replace p [HASH; SPACE] [] (-1)) clean_prompts in
  repeat_each clean_prompts num_images.

(** The prompts of [generate_homoglyph_samples]: the placeholder [#] becomes
    the homoglyph. *)
Definition homoglyph_prompts (prompt_file : str) (num_images : Z)
    (homoglyph : str) : list str :=
  let homoglyph_prompts := readlines prompt_file in
  let homoglyph_prompts :=
    map (fun p => replace p [HASH] homoglyph (-1)) homoglyph_prompts in
  let homoglyph_prompts :=
    map (fun p => replace p [LF] [] (-1)) homoglyph_prompts in
  repeat_each homoglyph_prompts num_images.

Definition get_target_prompts (prompt_file : str) (target_culture : str)
    (num_images : Z) : list str :=
  let target_prompts := readlines prompt_file in
  let target_prompts := map (fun p => replace p [LF] [] (-1)) target_prompts in
  let target_prompts :=
    map (fun p => replace p [HASH] target_culture (-1)) target_prompts in
  repeat_each target_prompts num_images.

(* ================================================================== *)
(** ** Python: [a / b] on integers, [math.ceil], slices *)

(** An integer as a binary number, not rounded. *)
Definition sf_of_Z (z : Z) : spec_float :=
  match z with
  | Z0 => S754_zero false
  | Zpos p => S754_finite false p 0
  | Zneg p => S754_finite true p 0
  end.

(** [a / b] on integers: the double nearest to the quotient, ties to even
    ([SFdiv] rounds once, whatever the size of the two integers);
    [ZeroDivisionError] for [b = 0], [OverflowError] when the quotient is
    beyond the doubles. *)
Definition int_true_divide (a b : Z) : result spec_float :=
  match b with
  | Z0 => Raise ZeroDivisionError
  | _ =>
      match SFdiv prec emax (sf_of_Z a) (sf_of_Z b) with
      | S754_infinity _ => Raise OverflowError
      | q => Ok q
      end
  end.

(** [math.ceil(x)] for a double. *)
Definition math_ceil (x : spec_float) : result Z :=
  match x with
  | S754_nan => Raise ValueError
  | S754_infinity _ => Raise OverflowError
  | S754_zero _ => Ok 0%Z
  | S754_finite s m e =>
      let v := if s then Zneg m else Zpos m in
      Ok (if (0 <=? e)%Z then (v * 2 ^ e)%Z else (- ((- v) / 2 ^ (- e)))%Z)
  end.

(** [l[a:b]] for [0 <= a] and [0 <= b] *)
Definition slice {E : Type} (l : list E) (a b : nat) : list E :=
  firstn (b - a) (skipn a l).

(* ================================================================== *)
(** ** [compute_relative_bias.py]: the images *)

Section Generation.

(** [generate] of [utils.stable_diffusion_utils] runs the diffusion pipeline;
    it is left abstract: the images of a list of prompts, and the random
    generator as the call leaves it.  [torch.manual_seed] gives the
    generator its seed. *)
Variables Image Generator TextEncoder : Type.
Variable generate :
  list str -> TextEncoder -> Generator -> list Image * Generator.
Variable manual_seed : Z -> Generator.

(** [for batch in range(...):
       images += generate(prompts[batch * batch_size:(batch + 1) * batch_size],
                          HF_TOKEN, text_encoder=text_encoder, samples=1,
                          num_inference_steps=100, guidance_scale=7.5,
                          generator=generator)] *)
Fixpoint generate_loop (prompts : list str) (text_encoder : TextEncoder)
    (batch_size : nat) (batches : list nat) (images : list Image)
    (generator : Generator) : list Image * Generator :=
  match batches with
  | [] => (images, generator)
  | batch :: batches' =>
      let (new, generator) :=
        generate (slice prompts (batch * batch_size) ((batch + 1) * batch_size))
                 text_encoder generator in
      generate_loop prompts text_encoder batch_size batches' (images ++ new)
        generator
  end.

Definition generate_clean_samples (prompt_file : str)
    (text_encoder : TextEncoder) (num_images batch_size : Z)
  : result (list Image) :=
  let clean_prompts := clean_prompts prompt_file num_images in
  let clean_images := [] in
  let generator := manual_seed 0 in
  let* q := int_true_divide (Z.of_nat (length clean_prompts)) batch_size in
  let* n := math_ceil q in
  let (clean_images, _) :=
    generate_loop clean_prompts text_encoder (Z.to_nat batch_size)
      (seq 0 (Z.to_nat n)) clean_images generator in
  Ok clean_images.

Definition generate_homoglyph_samples (prompt_file : str)
    (text_encoder : TextEncoder) (num_images batch_size : Z)
    (homoglyph : str) : result (list Image) :=
  let homoglyph_prompts :=
    homoglyph_prompts prompt_file num_images homoglyph in
  let homoglyph_images := [] in
  let generator := manual_seed 0 in
  let* q := int_true_divide (Z.of_nat (length homoglyph_prompts)) batch_size in
  let* n := math_ceil q in
  let (homoglyph_images, _) :=
    generate_loop homoglyph_prompts text_encoder (Z.to_nat batch_size)
      (seq 0 (Z.to_nat n)) homoglyph_images generator in
  Ok homoglyph_images.

(** [generate] called on each of [chunks] in turn, the generator going from
    one call to the next, the images appended. *)
Fixpoint generate_each (chunks : list (list str)) (text_encoder : TextEncoder)
    (images : list Image) (generator : Generator)
  : list Image * Generator :=
  match chunks with
  | [] => (images, generator)
  | chunk :: chunks' =>
      let (new, generator) := generate chunk text_encoder generator in
      generate_each chunks' text_encoder (images ++ new) generator
  end.

End Generation.

Arguments generate_loop {Image Generator TextEncoder}.
Arguments generate_clean_samples {Image Generator TextEncoder}.
Arguments generate_homoglyph_samples {Image Generator TextEncoder}.
Arguments generate_each {Image Generator TextEncoder}.

(** The prompts cut into batches: consecutive chunks of [batch_size]
    prompts, the last one shorter when the prompts do not fill it. *)
Definition chunked (prompts : list str) (batch_size : Z)
    (chunks : list (list str)) : Prop :=
  concat chunks = prompts /\
  Z.of_nat (length chunks)
  = ((Z.of_nat (length prompts) + batch_size - 1) / batch_size)%Z /\
  Forall (fun c => 1 <= length c <= Z.to_nat batch_size) chunks /\
  forall i, S i < length chunks ->
    length (nth i chunks []) = Z.to_nat batch_size.

(* ================================================================== *)
(** ** [homoglyph_unlearning.py]: the batches of a training step *)

(** An entry of [config.homoglyphs]. *)
Record homoglyph_entry : Type := mk_homoglyph {
  homoglyph : str;
  replaced_character : str
}.

(** The part of the configuration the batches depend on.
    [DataLoader(dataset, batch_size=config.clean_batch_size, ...)] has
    already refused a size that is not positive. *)
Record Config : Type := mk_Config {
  homoglyphs : list homoglyph_entry;
  clean_batch_size : positive;
  poisoned_samples_per_step : Z;
  homoglyph_count : option Z
}.

(** A [DataLoader] with [shuffle=True] and the iterator over it: the batches
    of each pass over the dataset, the number of passes begun, and the
    batches still to come in the current pass. *)
Record DataLoader : Type := mk_loader {
  passes : nat -> list (list str);
  begun : nat;
  pending : list (list str)
}.

(** [dataloader_iter = iter(dataloader)] *)
Definition iter (dl : DataLoader) : DataLoader :=
  mk_loader (passes dl) (S (begun dl)) (passes dl (begun dl)).

(** How a loop over the loader ends. *)
Inductive outcome (T : Type) : Type :=
| Done (v : T)
| StopIteration
| Running.

Arguments Done {T} v.
Arguments StopIteration {T}.
Arguments Running {T}.

(** [try: batch = next(dataloader_iter)
     except StopIteration: dataloader_iter = iter(dataloader);
                           batch = next(dataloader_iter)] *)
Definition next_batch (dl : DataLoader) : option (list str * DataLoader) :=
  match pending dl with
  | batch :: rest => Some (batch, mk_loader (passes dl) (begun dl) rest)
  | [] =>
      let dl := iter dl in
      match pending dl with
      | batch :: rest => Some (batch, mk_loader (passes dl) (begun dl) rest)
      | [] => None
      end
  end.

(** [for homoglyph in config.homoglyphs:
       batch = [sample for sample in batch
                if homoglyph['homoglyph'] not in sample]] *)
Definition remove_homoglyphed (hs : list homoglyph_entry) (batch : list str)
  : list str :=
  fold_left
    (fun batch h => filter (fun sample => negb (contains sample (homoglyph h)))
                           batch)
    hs batch.

(** The loop that gathers [batch_clean]; [fuel] bounds its iterations.
    Returns [batch_clean] before it is cut, the last [batch], the loader. *)
Fixpoint clean_batch_loop (fuel : nat) (config : Config) (dl : DataLoader)
    (batch_clean batch : list str)
  : outcome (list str * list str * DataLoader) :=
  if length batch_clean <? Pos.to_nat (clean_batch_size config) then
    match fuel with
    | 0 => Running
    | S fuel' =>
        match next_batch dl with
        | None => StopIteration
        | Some (batch, dl) =>
            let batch := remove_homoglyphed (homoglyphs config) batch in
            clean_batch_loop fuel' config dl (batch_clean ++ batch) batch
        end
    end
  else Done (batch_clean, batch, dl).

(** [if config.injection['homoglyph_count']: samples = [... count ...]
     else: samples = [...]]: the poisoned samples of one batch.  [None] and
    [0] are the values Python takes for false. *)
Definition poisoned_samples (config : Config) (h : homoglyph_entry)
    (batch : list str) : list str :=
  let rc := replaced_character h in
  match homoglyph_count config with
  | Some (Zpos _ as count) | Some (Zneg _ as count) =>
      map (fun sample => replace sample rc (homoglyph h) count)
          (filter (fun sample => contains sample rc) batch)
  | Some Z0 | None =>
      map (fun sample => replace sample rc (homoglyph h) (-1))
          (filter (fun sample => contains sample rc) batch)
  end.

(** The loop that gathers [batch_homoglyph] and its [batch_clean] for one
    homoglyph. *)
Fixpoint homoglyph_batch_loop (fuel : nat) (config : Config)
    (h : homoglyph_entry) (dl : DataLoader)
    (batch_homoglyph batch_clean : list str)
  : outcome (list str * list str * DataLoader) :=
  let num_poisoned_samples := poisoned_samples_per_step config in
  if (Z.of_nat (length batch_homoglyph) <? num_poisoned_samples)%Z then
    match fuel with
    | 0 => Running
    | S fuel' =>
        match next_batch dl with
        | None => StopIteration
        | Some (batch, dl) =>
            let batch := remove_homoglyphed (homoglyphs config) batch in
            let batch_clean :=
              batch_clean
              ++ filter (fun sample => contains sample (replaced_character h))
                        batch in
            let samples := poisoned_samples config h batch in
            let batch_homoglyph := batch_homoglyph ++ samples in
            let batch_homoglyph :=
              firstn (Z.to_nat num_poisoned_samples) batch_homoglyph in
            let batch_clean :=
              firstn (Z.to_nat num_poisoned_samples) batch_clean in
            homoglyph_batch_loop fuel' config h dl batch_homoglyph batch_clean
        end
    end
  else Done (batch_homoglyph, batch_clean, dl).

(** The text a training step hands to the tokenizer: the batch of the
    utility loss, and for each homoglyph the poisoned batch of the student
    and the clean batch of the teacher. *)
Record step_batches : Type := mk_step_batches {
  batch_clean : list str;
  utility_batch : list str;
  homoglyph_batches : list (list str * list str)
}.

Fixpoint homoglyph_batches_loop (fuel : nat) (config : Config)
    (hs : list homoglyph_entry) (dl : DataLoader)
    (acc : list (list str * list str))
  : outcome (list (list str * list str) * DataLoader) :=
  match hs with
  | [] => Done (acc, dl)
  | h :: hs' =>
      match homoglyph_batch_loop fuel config h dl [] [] with
      | Done (batch_homoglyph, batch_clean, dl) =>
          homoglyph_batches_loop fuel config hs' dl
            (acc ++ [(batch_homoglyph, batch_clean)])
      | StopIteration => StopIteration
      | Running => Running
      end
  end.

(** One pass through the body of [while (True)], as far as the text goes. *)
Definition training_step (fuel : nat) (config : Config) (dl : DataLoader)
  : outcome (step_batches * DataLoader) :=
  match clean_batch_loop fuel config dl [] [] with
  | Done (batch_clean, batch, dl) =>
      let batch_clean :=
        firstn (Pos.to_nat (clean_batch_size config)) batch_clean in
      match homoglyph_batches_loop fuel config (homoglyphs config) dl [] with
      | Done (hb, dl) => Done (mk_step_batches batch_clean batch hb, dl)
      | StopIteration => StopIteration
      | Running => Running
      end
  | StopIteration => StopIteration
  | Running => Running
  end.

(** *** Vocabulary for the batches *)

(** [sample] contains none of the configured homoglyphs. *)
Definition free_of_homoglyphs (hs : list homoglyph_entry) (sample : str)
  : bool :=
  forallb (fun h => negb (contains sample (homoglyph h))) hs.

(** The poisoned form of one sample. *)
Definition poison (config : Config) (h : homoglyph_entry) (sample : str)
  : str :=
  replace sample (replaced_character h) (homoglyph h)
    (match homoglyph_count config with
     | Some Z0 | None => -1
     | Some count => count
     end).

(** A batch that yields something to every loop of a step: a sample free of
    homoglyphs and, for every configured homoglyph, one that also contains
    the character to replace. *)
Definition yields (config : Config) (batch : list str) : Prop :=
  let kept := remove_homoglyphed (homoglyphs config) batch in
  kept <> [] /\
  forall h, In h (homoglyphs config) ->
    filter (fun sample => contains sample (replaced_character h)) kept <> [].

(** A loader all of whose batches yield, in every pass, none of them empty. *)
Definition productive (config : Config) (dl : DataLoader) : Prop :=
  Forall (yields config) (pending dl) /\
  forall n, passes dl n <> [] /\ Forall (yields config) (passes dl n).

(** What holds of the pair of batches gathered for the homoglyph [h]: the
    poisoned batch is the clean one, sample by sample, poisoned; both have
    the size asked for; every clean sample contains the character to replace
    and no configured homoglyph. *)
Definition paired (config : Config) (h : homoglyph_entry)
    (pair : list str * list str) : Prop :=
  let (batch_homoglyph, batch_clean) := pair in
  batch_homoglyph = map (poison config h) batch_clean /\
  length batch_homoglyph = Z.to_nat (poisoned_samples_per_step config) /\
  Forall (fun s => contains s (replaced_character h) = true /\
                   free_of_homoglyphs (homoglyphs config) s = true)
         batch_clean.

(** How many of the [occ] occurrences of the character to replace a sample
    loses: all of them, or [homoglyph_count] at most when that is positive. *)
Definition replaced_occurrences (config : Config) (occ : nat) : nat :=
  match homoglyph_count config with
  | Some (Zpos k) => Nat.min (Pos.to_nat k) occ
  | _ => occ
  end.

(* ================================================================== *)
(** ** Concrete inputs for the prompts and the batches *)

(** The template ["a # b\nc\n"], the homoglyph [U+03BF] (Greek omicron) and
    the culture ["Greek"]. *)
Definition template_1 : str := [97; 32; 35; 32; 98; 10; 99; 10]%N.
Definition omicron_str : str := [959]%N.
Definition greek_str : str := [71; 114; 101; 101; 107]%N.

(** Greek omicron for Latin [o]. *)
Definition omicron : homoglyph_entry := mk_homoglyph [959]%N [111]%N.

(** Two clean samples and one poisoned sample per step, every [o] replaced. *)
Definition config_1 : Config := mk_Config [omicron] 2 1 None.

(** A configuration whose homoglyph is the empty string. *)
Definition config_empty : Config :=
  mk_Config [mk_homoglyph [] [111]%N] 2 1 None.

(** A loader over ["bo" ++ omicron; "foo"; "go"; "bar"] in batches of two, the same in every
    pass, with its iterator just created. *)
Definition loader_1 : DataLoader :=
  iter (mk_loader
          (fun _ => [[[98; 111; 959]; [102; 111; 111]];
                     [[103; 111]; [98; 97; 114]]]%N)
          0 []).

(** A stand-in for the pipeline: the image of a prompt is the prompt, and the
    generator counts the calls. *)
Definition generate_1 (prompts : list str) (_ : unit) (generator : nat)
  : list str * nat := (prompts, S generator).
Definition manual_seed_1 (_ : Z) : nat := 0.

(* ================================================================== *)
(** * Properties *)

(** ** Fallible computations *)

Lemma bind_Ok {T U : Type} (c : result T) (k : T -> result U) (u : U) :
  bind c k = Ok u -> exists v, c = Ok v /\ k v = Ok u.
Proof.
  destruct c as [v|e]; simpl; intros Hk; [exists v; auto | discriminate].
Qed.

Lemma assert_Ok (b : bool) : assert b = Ok tt -> b = true.
Proof. destruct b; simpl; [reflexivity | discriminate]. Qed.

(** Inversion of a successful chain of binds and asserts. *)
Ltac inv_ok :=
  repeat match goal with
  | Hb : bind ?c ?k = Ok ?u |- _ =>
      let v := fresh "v" in
      let Hc := fresh "Hc" in
      let Hk := fresh "Hk" in
      destruct (bind_Ok c k u Hb) as [v [Hc Hk]]; clear Hb; cbv beta in Hk
  | Ha : assert ?b = Ok ?u |- _ =>
      let Hb := fresh "Hb" in
      assert (Hb : b = true) by (destruct b; [reflexivity | discriminate Ha]);
      clear Ha
  end.

(** ** Index arrays *)

Lemma take_in_range {E : Type} (d : E) (v : list E) (mask : list nat) :
  Forall (fun i => i < length v) mask ->
  take v mask = Ok (map (fun i => nth i v d) mask).
Proof.
  induction 1 as [|i mask Hi _ IH]; simpl; [reflexivity|].
  destruct (nth_error v i) as [x|] eqn:Hx.
  - rewrite IH; simpl. now rewrite (nth_error_nth _ _ d Hx).
  - apply nth_error_None in Hx. lia.
Qed.

Lemma skipn_nth_error {E : Type} (v : list E) (a : nat) (x : E) :
  nth_error v a = Some x -> skipn a v = x :: skipn (S a) v.
Proof.
  revert v; induction a as [|a IH]; intros [|e v]; simpl; try discriminate.
  - now intros [= ->].
  - intros Hx. now rewrite (IH _ Hx).
Qed.

Lemma take_seq {E : Type} (v : list E) (a k : nat) :
  a + k <= length v -> take v (seq a k) = Ok (firstn k (skipn a v)).
Proof.
  revert a; induction k as [|k IH]; intros a Hle; simpl; [reflexivity|].
  destruct (nth_error v a) as [x|] eqn:Hx.
  - rewrite IH by lia. simpl. now rewrite (skipn_nth_error _ _ _ Hx).
  - apply nth_error_None in Hx. lia.
Qed.

Lemma take_arange {E : Type} (v : list E) : take v (arange (length v)) = Ok v.
Proof.
  unfold arange. rewrite take_seq by lia. simpl. now rewrite firstn_all.
Qed.

Lemma take_length {E : Type} (v r : list E) (mask : list nat) :
  take v mask = Ok r -> length r = length mask.
Proof.
  revert r; induction mask as [|i mask IH]; simpl; intros r Hr.
  - now injection Hr as <-.
  - destruct (nth_error v i); [|discriminate].
    inv_ok. injection Hk as <-. simpl. f_equal. now apply IH.
Qed.

Lemma In_firstn {E : Type} (n : nat) (l : list E) (x : E) :
  In x (firstn n l) -> In x l.
Proof.
  intros Hx. rewrite <- (firstn_skipn n l). apply in_or_app. now left.
Qed.

Lemma In_skipn {E : Type} (n : nat) (l : list E) (x : E) :
  In x (skipn n l) -> In x l.
Proof.
  intros Hx. rewrite <- (firstn_skipn n l). apply in_or_app. now right.
Qed.

(** ** Combinations *)

Lemma length_combinations {E : Type} (l : list E) (k : nat) :
  length (combinations l k) = binomial (length l) k.
Proof.
  revert k; induction l as [|x l IH]; intros [|k]; simpl; try reflexivity.
  now rewrite length_app, length_map, !IH.
Qed.

Lemma combinations_length {E : Type} (l : list E) (k : nat) (c : list E) :
  In c (combinations l k) -> length c = k.
Proof.
  revert k c; induction l as [|x l IH]; intros [|k] c; simpl.
  - intros [<-|[]]; reflexivity.
  - intros [].
  - intros [<-|[]]; reflexivity.
  - rewrite in_app_iff, in_map_iff. intros [(c' & <- & Hc)|Hc].
    + simpl. f_equal. now apply IH.
    + now apply IH.
Qed.

Lemma combinations_incl {E : Type} (l : list E) (k : nat) (c : list E) :
  In c (combinations l k) -> incl c l.
Proof.
  revert k c; induction l as [|x l IH]; intros [|k] c; simpl.
  - intros [<-|[]]. apply incl_nil_l.
  - intros [].
  - intros [<-|[]]. apply incl_nil_l.
  - rewrite in_app_iff, in_map_iff. intros [(c' & <- & Hc)|Hc].
    + apply incl_cons; [now left|]. apply incl_tl. eapply IH; eauto.
    + apply incl_tl. eapply IH; eauto.
Qed.

(** The first combination is the first [k] elements themselves. *)
Lemma combinations_head {E : Type} (l : list E) (k : nat) :
  k <= length l ->
  exists rest, combinations l k = firstn k l :: rest.
Proof.
  revert k; induction l as [|x l IH]; intros [|k] Hk; simpl in *.
  - now exists [].
  - lia.
  - now exists [].
  - destruct (IH k) as [rest ->]; [lia|]. simpl. eauto.
Qed.

Lemma binomial_0_r (n : nat) : binomial n 0 = 1.
Proof. now destruct n. Qed.

Lemma binomial_pos (n k : nat) : k <= n -> 0 < binomial n k.
Proof.
  revert k; induction n as [|n IH]; intros [|k] Hk; simpl; try lia.
  specialize (IH k). lia.
Qed.

Lemma binomial_gt (n k : nat) : n < k -> binomial n k = 0.
Proof.
  revert k; induction n as [|n IH]; intros [|k] Hk; simpl; try lia.
  rewrite !IH by lia. reflexivity.
Qed.

(** [(k+1) C(n,k+1) = (n-k) C(n,k)], from which the multiplicative formula
    follows. *)
Lemma binomial_succ_r (n k : nat) :
  (Z.of_nat (S k) * Z.of_nat (binomial n (S k))
   = (Z.of_nat n - Z.of_nat k) * Z.of_nat (binomial n k))%Z.
Proof.
  revert k; induction n as [|n IH]; intros k.
  - destruct k; simpl binomial; lia.
  - destruct k as [|k].
    + specialize (IH 0). simpl binomial in *.
      rewrite !binomial_0_r in *. lia.
    + pose proof (IH k) as H1. pose proof (IH (S k)) as H2.
      change (binomial (S n) (S (S k)))
        with (binomial n (S k) + binomial n (S (S k))).
      change (binomial (S n) (S k)) with (binomial n k + binomial n (S k)).
      rewrite !Nat2Z.inj_add. rewrite !Nat2Z.inj_succ in *. nia.
Qed.

Lemma comb_binomial (n k : nat) :
  comb (Z.of_nat n) k = Z.of_nat (binomial n k).
Proof.
  induction k as [|k IH]; simpl comb.
  - now rewrite binomial_0_r.
  - rewrite IH, (Z.mul_comm (Z.of_nat (binomial n k))), <- binomial_succ_r.
    rewrite Z.mul_comm. apply Z.div_mul. lia.
Qed.

(** ** Shuffling *)

Lemma length_update {E : Type} (i : nat) (v : E) (x : list E) :
  length (update i v x) = length x.
Proof.
  revert i; induction x as [|e x IH]; intros [|i]; simpl; auto.
Qed.

Lemma update_head_perm {E : Type} (x : list E) (j : nat) (b e : E) :
  nth_error x j = Some b ->
  Permutation (b :: update j e x) (e :: x).
Proof.
  revert j; induction x as [|c x IH]; intros [|j]; simpl; try discriminate.
  - intros [= ->]. apply perm_swap.
  - intros Hj. etransitivity; [apply perm_swap|].
    etransitivity; [apply perm_skip, (IH _ Hj)|]. apply perm_swap.
Qed.

Lemma swap_perm {E : Type} (i j : nat) (x : list E) :
  Permutation (swap i j x) x.
Proof.
  unfold swap.
  destruct (nth_error x i) as [a|] eqn:Hi; [|reflexivity].
  destruct (nth_error x j) as [b|] eqn:Hj; [|reflexivity].
  revert i j Hi Hj; induction x as [|e x IH]; intros [|i] [|j]; simpl;
    try discriminate.
  - intros [= ->] [= ->]. reflexivity.
  - intros [= ->] Hj. now apply update_head_perm.
  - intros Hi [= ->]. now apply update_head_perm.
  - intros Hi Hj. apply perm_skip. now apply IH.
Qed.

Lemma shuffle_from_perm {E : Type} (i : nat) (x : list E) (st : RandomState) :
  Permutation (fst (shuffle_from i x st)) x.
Proof.
  revert x st; induction i as [|i IH]; intros x st; simpl; [reflexivity|].
  etransitivity; [apply IH | apply swap_perm].
Qed.

Lemma shuffle_perm {E : Type} (x : list E) (st : RandomState) :
  Permutation (fst (shuffle x st)) x.
Proof. apply shuffle_from_perm. Qed.

Lemma shuffle_length {E : Type} (x : list E) (st : RandomState) :
  length (fst (shuffle x st)) = length x.
Proof. apply Permutation_length, shuffle_perm. Qed.

Lemma shuffle_arange_range (n : nat) (st : RandomState) :
  Forall (fun i => i < n) (fst (shuffle (arange n) st)).
Proof.
  apply Forall_forall. intros i Hi.
  apply (Permutation_in _ (shuffle_perm _ _)) in Hi.
  apply in_seq in Hi. lia.
Qed.

Lemma draws_length (k n : nat) (st : RandomState) :
  length (fst (draws k n st)) = k.
Proof.
  revert st; induction k as [|k IH]; intros st; simpl; [reflexivity|].
  destruct (shuffle (arange n) st) as [a st1].
  specialize (IH st1). destruct (draws k n st1). simpl in *. now rewrite IH.
Qed.

Lemma draws_perm (k n : nat) (st : RandomState) :
  Forall (fun a => Permutation a (arange n)) (fst (draws k n st)).
Proof.
  revert st; induction k as [|k IH]; intros st; simpl; [constructor|].
  pose proof (shuffle_perm (arange n) st) as Hp.
  destruct (shuffle (arange n) st) as [a st1].
  specialize (IH st1). destruct (draws k n st1). simpl in *.
  constructor; assumption.
Qed.

(** ** The instance built by the constructor *)

Section Instance.
Context {F : Type} `{Scalar F}.

Lemma s_wAB_arange (t : Test F) :
  s_wAB t (arange (nrows (similarity_matrix t)))
  = Ok (map (association (nrows (A t))) (rows (similarity_matrix t))).
Proof.
  unfold s_wAB, nrows. now rewrite take_arange.
Qed.

Lemma reset_calc_eq (t : Test F) :
  reset_calc t =
  let* m := similarities t in
  Ok (mk_Test (X t) (Y t) (A t) (B t) (names t) m
        (map (association (nrows (A t))) (rows m))).
Proof.
  unfold reset_calc. destruct (similarities t) as [m|e]; simpl; [|reflexivity].
  unfold calc_s_AB. rewrite s_wAB_arange. reflexivity.
Qed.

Lemma reset_calc_consistent (t t' : Test F) :
  reset_calc t = Ok t' -> consistent t'.
Proof.
  unfold consistent. rewrite !reset_calc_eq. intros Ht. inv_ok.
  injection Hk as <-. unfold similarities in *. simpl. rewrite Hc.
  reflexivity.
Qed.

Lemma init_consistent x y a b nm (t : Test F) :
  init x y a b nm = Ok t -> consistent t.
Proof. apply reset_calc_consistent. Qed.

Lemma init_fields x y a b nm (t : Test F) :
  init x y a b nm = Ok t -> X t = x /\ Y t = y /\ A t = a /\ B t = b.
Proof.
  unfold init. rewrite reset_calc_eq. intros Ht. inv_ok.
  injection Hk as <-. simpl. auto.
Qed.

Lemma cosine_similarity_rows (U V m : ndarray F) :
  cosine_similarity U V = Ok m ->
  ncols U = ncols V /\ nrows U <> 0 /\ nrows V <> 0 /\
  length (rows m) = nrows U.
Proof.
  unfold cosine_similarity, check_array. intros Hm.
  destruct ((nrows U =? 0) || (ncols U =? 0)) eqn:HU; [discriminate|].
  destruct (forallb (forallb isfinite) (rows U)); [|discriminate].
  destruct ((nrows V =? 0) || (ncols V =? 0)) eqn:HV; [discriminate|].
  destruct (forallb (forallb isfinite) (rows V)); [|discriminate].
  simpl in Hm. destruct (ncols U =? ncols V) eqn:Hc; [|discriminate].
  injection Hm as <-. simpl. rewrite !length_map.
  apply orb_false_elim in HU as [HU _]. apply orb_false_elim in HV as [HV _].
  apply Nat.eqb_neq in HU, HV. apply Nat.eqb_eq in Hc. auto.
Qed.

Lemma concatenate_Ok (a b c : ndarray F) :
  concatenate a b = Ok c ->
  ncols a = ncols b /\ c = mk_ndarray (ncols a) (rows a ++ rows b).
Proof.
  unfold concatenate. destruct (ncols a =? ncols b) eqn:Hc; [|discriminate].
  intros [= <-]. apply Nat.eqb_eq in Hc. auto.
Qed.

(** What consistency gives the estimators: the two target sets have the same
    dimension, and there is one association score per pooled target. *)
Lemma consistent_shape (t : Test F) :
  consistent t ->
  ncols (X t) = ncols (Y t) /\
  length (s_AB t) = nrows (X t) + nrows (Y t) /\
  nrows (similarity_matrix t) = nrows (X t) + nrows (Y t) /\
  s_AB t = map (association (nrows (A t))) (rows (similarity_matrix t)).
Proof.
  unfold consistent. rewrite reset_calc_eq. intros Ht. inv_ok.
  unfold similarities in Hc. inv_ok.
  match goal with
  | Hxy : concatenate (X t) (Y t) = Ok _ |- _ =>
      apply concatenate_Ok in Hxy as [Hxy ->]
  end.
  match goal with
  | Hm : cosine_similarity _ _ = Ok _ |- _ =>
      apply cosine_similarity_rows in Hm as (_ & _ & _ & Hlen)
  end.
  unfold nrows in *. simpl in Hlen. rewrite length_app in Hlen.
  injection Hk as Hk. rewrite <- Hk. simpl. rewrite length_map. auto.
Qed.

Lemma s_XAB_in_range (t : Test F) (mask : list nat) :
  Forall (fun i => i < length (s_AB t)) mask ->
  s_XAB t mask = Ok (sum_at (s_AB t) mask).
Proof.
  intros Hm. unfold s_XAB, sum_at. now rewrite (take_in_range fzero _ _ Hm).
Qed.

End Instance.

(** ** The loops of the estimators *)

Section Loops.
Context {F : Type} `{Scalar F}.

Lemma tally_eq (s si : F) (c : counts) :
  tally s si c =
  mk_counts (total_true c + b2z (at_least s si))
            (total_equal c + b2z (negb (fltb s si) && feqb si s))
            (total c + 1).
Proof.
  unfold tally, at_least. destruct c as [tt te tot]; simpl.
  destruct (fltb s si); simpl; [f_equal; lia|].
  destruct (feqb si s); simpl; f_equal; lia.
Qed.

Lemma count_ge_cons (v : list F) (s : F) (Xi : list nat) parts :
  Z.of_nat (count_ge v s (Xi :: parts))
  = (b2z (at_least s (sum_at v Xi)) + Z.of_nat (count_ge v s parts))%Z.
Proof.
  unfold count_ge. simpl. destruct (at_least s (sum_at v Xi)); simpl length;
    unfold b2z; lia.
Qed.

Lemma count_tie_cons (v : list F) (s : F) (Xi : list nat) parts :
  Z.of_nat (count_tie v s (Xi :: parts))
  = (b2z (negb (fltb s (sum_at v Xi)) && feqb (sum_at v Xi) s)
     + Z.of_nat (count_tie v s parts))%Z.
Proof.
  unfold count_tie. simpl.
  destruct (negb (fltb s (sum_at v Xi)) && feqb (sum_at v Xi) s);
    simpl length; unfold b2z; lia.
Qed.

Lemma exact_loop_spec (t : Test F) (s : F) (lenXY : nat) parts (c : counts) :
  Forall (admissible t lenXY) parts ->
  exact_loop t s lenXY parts c =
  Ok (mk_counts
        (total_true c + Z.of_nat (count_ge (s_AB t) s parts))
        (total_equal c + Z.of_nat (count_tie (s_AB t) s parts))
        (total c + Z.of_nat (length parts))).
Proof.
  intros Hall; revert c; induction Hall as [|Xi parts [Hlen Hrng] _ IH];
    intros c.
  - simpl. destruct c; simpl. f_equal. f_equal; lia.
  - cbn [exact_loop]. apply Nat.eqb_eq in Hlen. rewrite Hlen. simpl.
    rewrite (s_XAB_in_range _ _ Hrng). simpl. rewrite IH, tally_eq. simpl.
    rewrite count_ge_cons, count_tie_cons. cbn [length]. f_equal.
    f_equal; lia.
Qed.

Lemma draws_S (k n : nat) (st : RandomState) :
  draws (S k) n st =
  (fst (shuffle (arange n) st)
     :: fst (draws k n (snd (shuffle (arange n) st))),
   snd (draws k n (snd (shuffle (arange n) st)))).
Proof.
  simpl. destruct (shuffle (arange n) st) as [a st1]. simpl.
  now destruct (draws k n st1).
Qed.

Lemma firstn_shuffle_admissible (t : Test F) (size : nat) (st : RandomState) :
  length (s_AB t) = 2 * size ->
  admissible t (2 * size)
    (firstn size (fst (shuffle (arange (2 * size)) st))).
Proof.
  intros Hlen. split.
  - rewrite length_firstn, shuffle_length. unfold arange.
    rewrite length_seq. lia.
  - apply Forall_forall. intros i Hi. apply In_firstn in Hi.
    pose proof (shuffle_arange_range (2 * size) st) as Hr.
    rewrite Forall_forall in Hr. rewrite Hlen. now apply Hr.
Qed.

Lemma sampling_loop_spec (t : Test F) (s : F) (size k : nat) (c : counts)
    (st : RandomState) :
  length (s_AB t) = 2 * size ->
  let parts := map (firstn size) (fst (draws k (2 * size) st)) in
  sampling_loop t s size (2 * size) k c st =
  Ok (mk_counts
        (total_true c + Z.of_nat (count_ge (s_AB t) s parts))
        (total_equal c + Z.of_nat (count_tie (s_AB t) s parts))
        (total c + Z.of_nat k),
      snd (draws k (2 * size) st)).
Proof.
  intros Hlen. revert c st; induction k as [|k IH]; intros c st parts.
  - simpl. destruct c; simpl. do 2 f_equal. f_equal; lia.
  - subst parts. rewrite draws_S. cbn [sampling_loop fst snd map].
    destruct (firstn_shuffle_admissible t size st Hlen) as [Hl Hr].
    destruct (shuffle (arange (2 * size)) st) as [a st1]. cbn [fst snd] in *.
    apply Nat.eqb_eq in Hl. rewrite Hl. simpl bind.
    rewrite (s_XAB_in_range _ _ Hr). simpl bind. rewrite IH, tally_eq.
    cbn [total_true total_equal total].
    rewrite count_ge_cons, count_tie_cons. do 2 f_equal.
    rewrite Nat2Z.inj_succ. f_equal; lia.
Qed.

Lemma parametric_loop_spec (t : Test F) (size k : nat) (acc : list F)
    (st : RandomState) :
  length (s_AB t) = 2 * size ->
  parametric_loop t size (2 * size) k acc st =
  Ok (acc ++ map (split_statistic (s_AB t) size)
                 (fst (draws k (2 * size) st)),
      snd (draws k (2 * size) st)).
Proof.
  intros Hlen. revert acc st; induction k as [|k IH]; intros acc st.
  - simpl. now rewrite app_nil_r.
  - rewrite draws_S. cbn [parametric_loop fst snd map].
    pose proof (shuffle_arange_range (2 * size) st) as Hr.
    pose proof (shuffle_length (arange (2 * size)) st) as Hl.
    destruct (shuffle (arange (2 * size)) st) as [a st1]. cbn [fst snd] in *.
    unfold arange in Hl. rewrite length_seq in Hl.
    rewrite length_firstn, length_skipn, Hl.
    replace (Nat.min size (2 * size) =? 2 * size - size) with true
      by (symmetry; apply Nat.eqb_eq; lia).
    simpl bind. unfold s_XYAB.
    rewrite !s_XAB_in_range.
    + simpl bind. rewrite IH, <- app_assoc. reflexivity.
    + rewrite Hlen. apply Forall_forall. intros i Hi.
      rewrite Forall_forall in Hr. eapply Hr, In_skipn; eauto.
    + rewrite Hlen. apply Forall_forall. intros i Hi.
      rewrite Forall_forall in Hr. eapply Hr, In_firstn; eauto.
Qed.

End Loops.

(** ** The enumeration is the set of index combinations *)

Lemma combinations_NoDup {E : Type} (l : list E) (k : nat) :
  NoDup l -> NoDup (combinations l k).
Proof.
  intros Hl; revert k; induction Hl as [|x l Hx Hl IH]; intros [|k];
    cbn [combinations]; try repeat constructor; try (intros []).
  apply NoDup_app.
  - apply Finite.Injective_map_NoDup; [|apply IH].
    intros c c' Hcc. now injection Hcc.
  - apply IH.
  - intros c Hc Hc'. apply in_map_iff in Hc as (c0 & <- & _).
    apply combinations_incl in Hc'. apply Hx, Hc'. now left.
Qed.

Lemma combinations_seq_sorted (a n k : nat) (c : list nat) :
  In c (combinations (seq a n) k) ->
  StronglySorted lt c /\ Forall (fun i => a <= i < a + n) c.
Proof.
  revert a k c; induction n as [|n IH]; intros a [|k] c; cbn [seq combinations].
  - intros [<-|[]]. split; constructor.
  - intros [].
  - intros [<-|[]]. split; constructor.
  - rewrite in_app_iff, in_map_iff. intros [(c' & <- & Hc)|Hc].
    + destruct (IH _ _ _ Hc) as [Hs Hr]. split.
      * constructor; [exact Hs|].
        eapply Forall_impl; [|exact Hr]. cbv beta. intros i Hi. lia.
      * constructor; [lia|].
        eapply Forall_impl; [|exact Hr]. cbv beta. intros i Hi. lia.
    + destruct (IH _ _ _ Hc) as [Hs Hr]. split; [exact Hs|].
      eapply Forall_impl; [|exact Hr]. cbv beta. intros i Hi. lia.
Qed.

Lemma combinations_seq_complete (a n : nat) (c : list nat) :
  StronglySorted lt c -> Forall (fun i => a <= i < a + n) c ->
  In c (combinations (seq a n) (length c)).
Proof.
  revert a c; induction n as [|n IH]; intros a c Hs Hr.
  - destruct c as [|i c]; [now left|].
    apply Forall_inv in Hr. cbv beta in Hr. lia.
  - destruct c as [|i c]; [now left|].
    cbn [seq length combinations]. apply in_or_app.
    apply StronglySorted_inv in Hs as [Hs Hi].
    pose proof (Forall_inv Hr) as Hia. cbv beta in Hia.
    apply Forall_inv_tail in Hr.
    destruct (Nat.eq_dec i a) as [->|Hne].
    + left. apply in_map. apply IH; [exact Hs|].
      rewrite Forall_forall in *. intros j Hj.
      specialize (Hi j Hj). specialize (Hr j Hj). lia.
    + right. apply (IH (S a) (i :: c)).
      * now constructor.
      * constructor; [lia|].
        rewrite Forall_forall in *. intros j Hj.
        specialize (Hi j Hj). specialize (Hr j Hj). lia.
Qed.

(** [combinations (arange m) k] lists every [k]-element set of indices below
    [m], as an increasing list, exactly once. *)
Lemma combinations_arange_spec (m k : nat) :
  NoDup (combinations (arange m) k) /\
  forall c, In c (combinations (arange m) k) <->
            StronglySorted lt c /\ length c = k /\ Forall (fun i => i < m) c.
Proof.
  split; [apply combinations_NoDup, seq_NoDup|].
  intros c. split.
  - intros Hc. destruct (combinations_seq_sorted _ _ _ _ Hc) as [Hs Hr].
    repeat split; [exact Hs | eapply combinations_length; eauto |].
    eapply Forall_impl; [|exact Hr]. cbv beta. intros i Hi. lia.
  - intros (Hs & <- & Hr). apply combinations_seq_complete; [exact Hs|].
    eapply Forall_impl; [|exact Hr]. cbv beta. intros i Hi. lia.
Qed.

(** ** The estimators, characterised *)

Lemma true_divide_of_nat (a : Z) (b : nat) :
  0 < b -> true_divide a (Z.of_nat b) = Ok (Qmake a (Pos.of_nat b)).
Proof.
  destruct b as [|b]; [lia|]. intros _. cbn [Z.of_nat true_divide].
  now rewrite Pos.of_nat_succ.
Qed.

Lemma num_partitions_small (n : nat) :
  n <= 18 -> num_partitions n = Ok (Z.of_nat (binomial (2 * n) n)).
Proof.
  intros Hn. rewrite <- comb_binomial.
  assert (Hall : forallb (fun m =>
            match num_partitions m with
            | Ok z => (z =? comb (Z.of_nat (2 * m)) m)%Z
            | Raise _ => false
            end) (seq 0 19) = true) by (vm_compute; reflexivity).
  rewrite forallb_forall in Hall. specialize (Hall n).
  destruct (num_partitions n) as [z|e].
  - f_equal. apply Z.eqb_eq, Hall, in_seq. lia.
  - discriminate Hall. apply in_seq. lia.
Qed.

Lemma Zpos_of_nat (m : nat) : 0 < m -> Zpos (Pos.of_nat m) = Z.of_nat m.
Proof.
  destruct m as [|m]; [lia|]. intros _.
  now rewrite <- Pos.of_nat_succ, Zpos_P_of_succ_nat, Nat2Z.inj_succ.
Qed.

Lemma firstn_arange (k n : nat) : k <= n -> firstn k (arange n) = arange k.
Proof.
  intros Hle. unfold arange. replace n with (k + (n - k)) by lia.
  rewrite seq_app, firstn_app, length_seq, Nat.sub_diag. simpl.
  rewrite app_nil_r. rewrite <- (length_seq k 0) at 1. apply firstn_all.
Qed.

Section Estimators.
Context {F : Type} `{Scalar F}.
Variable shapiro : list F -> F * F.
Variable norm_sf : F -> F -> F -> F.

Lemma arange_range (n m : nat) : n <= m -> Forall (fun i => i < m) (arange n).
Proof.
  intros Hle. apply Forall_forall. intros i Hi. apply in_seq in Hi. lia.
Qed.

Lemma arange2_range (a b m : nat) :
  b <= m -> Forall (fun i => i < m) (arange2 a b).
Proof.
  intros Hle. apply Forall_forall. intros i Hi. apply in_seq in Hi. lia.
Qed.

Lemma combinations_admissible (t : Test F) (n : nat) :
  length (s_AB t) = 2 * n ->
  Forall (admissible t (2 * n)) (combinations (arange (2 * n)) n).
Proof.
  intros Hlen. apply Forall_forall. intros c Hc. split.
  - now rewrite (combinations_length _ _ _ Hc).
  - apply Forall_forall. intros i Hi.
    apply (combinations_incl _ _ _ Hc), in_seq in Hi. lia.
Qed.

(** The head of [p]: the assertion passes and the pooled array is built. *)
Lemma p_prologue (t : Test F) (n : nat) :
  consistent t -> nrows (X t) = n -> nrows (Y t) = n ->
  assert (nrows (X t) =? nrows (Y t)) = Ok tt /\
  concatenate (X t) (Y t)
    = Ok (mk_ndarray (ncols (X t)) (rows (X t) ++ rows (Y t))) /\
  length (s_AB t) = 2 * n.
Proof.
  intros Hc Hx Hy. destruct (consistent_shape t Hc) as (Hcols & Hlen & _).
  rewrite Hx, Hy in *. repeat split.
  - now rewrite Nat.eqb_refl.
  - unfold concatenate. now rewrite <- Hcols, Nat.eqb_refl.
  - lia.
Qed.

(** The non-parametric estimator on a consistent instance with
    [|X| = |Y| = n]: both branches in closed form. *)
Lemma p_nonparametric_eq (t : Test F) (n : nat) (n_samples : Z)
    (st : RandomState) :
  consistent t -> nrows (X t) = n -> nrows (Y t) = n ->
  let s := sum_at (s_AB t) (arange n) in
  p shapiro norm_sf t n_samples false st =
  let* np := num_partitions n in
  if (n_samples <? np)%Z then
    let k := Z.to_nat (n_samples - 1) in
    let drawn := draws k (2 * n) st in
    Ok (@Quotient F
          (Qmake (1 + Z.of_nat (count_ge (s_AB t) s
                                  (map (firstn n) (fst drawn))))
                 (Pos.of_nat (S k))),
        snd drawn)
  else
    Ok (@Quotient F
          (Qmake (Z.of_nat (count_ge (s_AB t) s
                              (combinations (arange (2 * n)) n)))
                 (Pos.of_nat (binomial (2 * n) n))),
        st).
Proof.
  intros Hc Hx Hy s.
  destruct (p_prologue t n Hc Hx Hy) as (Ha & Hcat & Hlen).
  unfold p. rewrite Ha, Hcat. cbn [bind].
  rewrite s_XAB_in_range by (rewrite Hx, Hlen; apply arange_range; lia).
  cbn [bind]. rewrite Hx. fold s.
  destruct (num_partitions n) as [np|e]; cbn [bind]; [|reflexivity].
  assert (HXY : nrows (mk_ndarray (ncols (X t)) (rows (X t) ++ rows (Y t)))
                = 2 * n).
  { unfold nrows in *. simpl. rewrite length_app. lia. }
  rewrite HXY.
  destruct (n_samples <? np)%Z.
  - rewrite (sampling_loop_spec t s n _ _ st Hlen). cbn [bind total_true total].
    replace (0 + 1 + Z.of_nat (Z.to_nat (n_samples - 1)))%Z
      with (Z.of_nat (S (Z.to_nat (n_samples - 1)))) by lia.
    rewrite true_divide_of_nat by lia. cbn [bind].
    reflexivity.
  - rewrite (exact_loop_spec t s _ _ _ (combinations_admissible t n Hlen)).
    cbn [bind total_true total].
    rewrite length_combinations. unfold arange at 2. rewrite length_seq.
    rewrite !Z.add_0_l, true_divide_of_nat
      by (apply binomial_pos; lia).
    cbn [bind]. reflexivity.
Qed.

(** [selected_branch] is the branch [p] takes. *)
Lemma p_follows_selected_branch (t : Test F) (n : nat) (n_samples : Z)
    (st : RandomState) :
  consistent t -> nrows (X t) = n -> nrows (Y t) = n ->
  let s := sum_at (s_AB t) (arange n) in
  match selected_branch n n_samples with
  | Raise e => p shapiro norm_sf t n_samples false st = Raise e
  | Ok Exact =>
      p shapiro norm_sf t n_samples false st =
      Ok (@Quotient F
            (Qmake (Z.of_nat (count_ge (s_AB t) s
                                (combinations (arange (2 * n)) n)))
                   (Pos.of_nat (binomial (2 * n) n))),
          st)
  | Ok Sampled =>
      let drawn := draws (Z.to_nat (n_samples - 1)) (2 * n) st in
      p shapiro norm_sf t n_samples false st =
      Ok (@Quotient F
            (Qmake (1 + Z.of_nat (count_ge (s_AB t) s
                                    (map (firstn n) (fst drawn))))
                   (Pos.of_nat (S (Z.to_nat (n_samples - 1))))),
          snd drawn)
  end.
Proof.
  intros Hc Hx Hy s.
  rewrite (p_nonparametric_eq t n n_samples st Hc Hx Hy).
  unfold selected_branch.
  destruct (num_partitions n) as [np|e]; cbn [bind]; [|reflexivity].
  destruct (n_samples <? np)%Z; reflexivity.
Qed.

(** C1, as amended.  For an instance with [|X| = |Y| = n], when the number
    of partitions as [p] computes it, [np = int(binom(2n, n))], is defined
    and at most [n_samples] (up to [n = 18] that number is [C(2n, n)]),
    the non-parametric [p] goes through [parts], which lists every size-[n]
    combination [Xi] of the [2n] pooled indices exactly once, counts those
    with [s_XAB(Xi) > s] or [s_XAB(Xi) == s], where [s] is [s_XAB] over the
    indices of X, and returns that count divided by [C(2n, n)]; the
    generator is not used. *)
Theorem p_exact_enumeration :
  forall x y a b nm (t : Test F) (n : nat) (n_samples np : Z)
         (st : RandomState),
  init x y a b nm = Ok t ->
  nrows x = n -> nrows y = n ->
  num_partitions n = Ok np ->
  (np <= n_samples)%Z ->
  let parts := combinations (arange (2 * n)) n in
  let s := sum_at (s_AB t) (arange n) in
  (n <= 18 -> np = Z.of_nat (binomial (2 * n) n)) /\
  NoDup parts /\
  (forall Xi, In Xi parts <->
     StronglySorted lt Xi /\ length Xi = n /\ Forall (fun i => i < 2 * n) Xi) /\
  length parts = binomial (2 * n) n /\
  p shapiro norm_sf t n_samples false st =
  Ok (@Quotient F (Qmake (Z.of_nat (count_ge (s_AB t) s parts))
                        (Pos.of_nat (binomial (2 * n) n))),
      st).
Proof.
  intros x y a b nm t n n_samples np st Hinit Hx Hy Hnp Hle parts s.
  destruct (init_fields _ _ _ _ _ _ Hinit) as (Ex & Ey & _).
  destruct (combinations_arange_spec (2 * n) n) as [Hnd Hiff].
  split.
  { intros Hn. rewrite (num_partitions_small n Hn) in Hnp. congruence. }
  split; [exact Hnd|]. split; [exact Hiff|]. split.
  - unfold parts, arange. now rewrite length_combinations, length_seq.
  - rewrite (p_nonparametric_eq t n n_samples st
               (init_consistent _ _ _ _ _ _ Hinit))
      by congruence.
    rewrite Hnp. cbn [bind].
    apply Z.ltb_ge in Hle. now rewrite Hle.
Qed.

(** C2, as amended.  For an instance with [|X| = |Y| = n], when the number
    of partitions as [p] computes it, [np = int(binom(2n, n))], is defined
    and exceeds [n_samples] (up to [n = 18] that number is [C(2n, n)]), the
    non-parametric [p] starts count and total at 1, shuffles the [2n] pooled
    indices [max(n_samples - 1, 0)] times taking the first [n] as [Xi], adds
    one to the count for every [Xi] with [s_XAB(Xi) > s] or
    [s_XAB(Xi) == s], and returns count over total; for [n_samples >= 1]
    the number of draws is [n_samples - 1] and the total is [n_samples]. *)
Theorem p_sampling_branch :
  forall x y a b nm (t : Test F) (n : nat) (n_samples np : Z)
         (st : RandomState),
  init x y a b nm = Ok t ->
  nrows x = n -> nrows y = n ->
  num_partitions n = Ok np ->
  (n_samples < np)%Z ->
  let k := Z.to_nat (n_samples - 1) in
  let drawn := draws k (2 * n) st in
  let parts := map (firstn n) (fst drawn) in
  let s := sum_at (s_AB t) (arange n) in
  (n <= 18 -> np = Z.of_nat (binomial (2 * n) n)) /\
  p shapiro norm_sf t n_samples false st =
  Ok (@Quotient F (Qmake (1 + Z.of_nat (count_ge (s_AB t) s parts))
                        (Pos.of_nat (S k))),
      snd drawn) /\
  length parts = k /\
  Forall (fun a => Permutation a (arange (2 * n))) (fst drawn) /\
  ((1 <= n_samples)%Z ->
   Z.of_nat k = (n_samples - 1)%Z /\ Zpos (Pos.of_nat (S k)) = n_samples).
Proof.
  intros x y a b nm t n n_samples np st Hinit Hx Hy Hnp Hlt k drawn parts s.
  destruct (init_fields _ _ _ _ _ _ Hinit) as (Ex & Ey & _).
  split.
  { intros Hn. rewrite (num_partitions_small n Hn) in Hnp. congruence. }
  repeat split.
  - rewrite (p_nonparametric_eq t n n_samples st
               (init_consistent _ _ _ _ _ _ Hinit))
      by congruence.
    rewrite Hnp. cbn [bind].
    apply Z.ltb_lt in Hlt. now rewrite Hlt.
  - unfold parts, drawn. now rewrite length_map, draws_length.
  - apply draws_perm.
  - unfold k. lia.
  - unfold k. lia.
Qed.

(** The parametric estimator on a consistent instance with
    [|X| = |Y| = n], in closed form. *)
Lemma p_parametric_eq (t : Test F) (n : nat) (n_samples : Z)
    (st : RandomState) (normality_test : list F -> F * F) :
  consistent t -> nrows (X t) = n -> nrows (Y t) = n ->
  let drawn := draws (Z.to_nat n_samples) (2 * n) st in
  let samples := map (split_statistic (s_AB t) n) (fst drawn) in
  let s := fsub (sum_at (s_AB t) (arange n))
                (sum_at (s_AB t) (arange2 n (2 * n))) in
  p normality_test norm_sf t n_samples true st =
  Ok (@Survival F (norm_sf s (np_mean samples) (np_std samples 1)),
      snd drawn).
Proof.
  intros Hc Hxt Hyt drawn samples s.
  destruct (p_prologue t n Hc Hxt Hyt) as (Ha & Hcat & Hlen).
  unfold p. rewrite Ha, Hcat. cbn [bind].
  unfold s_XYAB at 1. rewrite Hxt, Hyt.
  rewrite !s_XAB_in_range
    by (rewrite Hlen; first [apply arange_range | apply arange2_range]; lia).
  cbn [bind].
  assert (HXY : nrows (mk_ndarray (ncols (X t)) (rows (X t) ++ rows (Y t)))
                = 2 * n).
  { unfold nrows in *. simpl. rewrite length_app. lia. }
  rewrite HXY, (parametric_loop_spec t n _ [] st Hlen). cbn [bind app].
  fold drawn. fold samples.
  replace (n + n) with (2 * n) by lia. fold s.
  now destruct (normality_test samples).
Qed.

(** C4.  For an instance with [|X| = |Y| = n], the parametric [p] shuffles
    the [2n] pooled indices [n_samples] times, splits each shuffle into its
    first [n] and last [n] indices, collects [s_XYAB(Xi, Yi)], and returns
    [norm.sf] of the observed [s_XYAB(X, Y)] at the sample mean and the
    sample standard deviation ([ddof = 1]) of the collected values.  The
    result is the same whatever [shapiro] returns. *)
Theorem p_parametric :
  forall x y a b nm (t : Test F) (n : nat) (n_samples : Z) (st : RandomState),
  init x y a b nm = Ok t ->
  nrows x = n -> nrows y = n ->
  let drawn := draws (Z.to_nat n_samples) (2 * n) st in
  let samples := map (split_statistic (s_AB t) n) (fst drawn) in
  let s := fsub (sum_at (s_AB t) (arange n))
                (sum_at (s_AB t) (arange2 n (2 * n))) in
  (forall normality_test : list F -> F * F,
    p normality_test norm_sf t n_samples true st =
    Ok (@Survival F (norm_sf s (np_mean samples) (np_std samples 1)),
        snd drawn)) /\
  length samples = Z.to_nat n_samples /\
  Forall (fun a => Permutation a (arange (2 * n))) (fst drawn).
Proof.
  intros x y a b nm t n n_samples st Hinit Hx Hy drawn samples s.
  destruct (init_fields _ _ _ _ _ _ Hinit) as (Ex & Ey & _).
  pose proof (init_consistent _ _ _ _ _ _ Hinit) as Hc.
  repeat split.
  - intros normality_test. apply p_parametric_eq; congruence.
  - unfold samples, drawn. now rewrite length_map, draws_length.
  - apply draws_perm.
Qed.

(** C10, as amended.  For an instance with [|X| = |Y| = n] and
    [n_samples >= 1]: when the number of partitions does not convert to an
    integer, [p] raises and returns nothing; otherwise it returns a
    quotient.  In the sampling branch, where the count starts at 1, the
    quotient is strictly positive, at least [1 / n_samples] and so at least
    [1 / max(C(2n, n), n_samples)], whatever the observed statistic is.  In
    the exact branch it is strictly positive and at least
    [1 / max(C(2n, n), n_samples)] when the observed statistic [s] is not
    NaN ([s == s]). *)
Theorem p_value_positive :
  forall x y a b nm (t : Test F) (n : nat) (n_samples : Z)
         (st : RandomState),
  init x y a b nm = Ok t ->
  nrows x = n -> nrows y = n ->
  (1 <= n_samples)%Z ->
  let s := sum_at (s_AB t) (arange n) in
  match num_partitions n with
  | Raise e => p shapiro norm_sf t n_samples false st = Raise e
  | Ok np =>
      exists q st',
        p shapiro norm_sf t n_samples false st = Ok (@Quotient F q, st') /\
        ((n_samples < np)%Z \/ feqb s s = true ->
         (0 < q)%Q /\
         (Qmake 1 (Z.to_pos (Z.max (Z.of_nat (binomial (2 * n) n)) n_samples))
          <= q)%Q) /\
        ((n_samples < np)%Z -> (Qmake 1 (Z.to_pos n_samples) <= q)%Q)
  end.
Proof.
  intros x y a b nm t n n_samples st Hinit Hx Hy Hpos s.
  destruct (init_fields _ _ _ _ _ _ Hinit) as (Ex & Ey & _).
  rewrite (p_nonparametric_eq t n n_samples st
             (init_consistent _ _ _ _ _ _ Hinit))
    by congruence.
  destruct (num_partitions n) as [np|e]; cbn [bind]; [|reflexivity].
  assert (HC : 0 < binomial (2 * n) n) by (apply binomial_pos; lia).
  destruct (n_samples <? np)%Z eqn:Hbr.
  - eexists _, _. split; [reflexivity|].
    pose proof (Nat2Z.is_nonneg
      (count_ge (s_AB t) (sum_at (s_AB t) (arange n))
         (map (firstn n) (fst (draws (Z.to_nat (n_samples - 1)) (2 * n) st)))))
      as Hc.
    assert (Hden : Zpos (Pos.of_nat (S (Z.to_nat (n_samples - 1))))
                   = n_samples) by (rewrite Zpos_of_nat by lia; lia).
    unfold Qlt, Qle. cbn [Qnum Qden]. rewrite Hden, !Z2Pos.id by lia.
    split; [intros _; split; [lia | nia] | intros _; nia].
  - apply Z.ltb_ge in Hbr.
    destruct (combinations_head (arange (2 * n)) n) as [rest Hrest].
    { unfold arange. rewrite length_seq. lia. }
    eexists _, _. split; [reflexivity|].
    split; [|intros Hlt; lia].
    intros [Hlt|Hnan]; [lia|].
    assert (Hcount : 1 <= count_ge (s_AB t) (sum_at (s_AB t) (arange n))
                          (combinations (arange (2 * n)) n)).
    { rewrite Hrest. unfold count_ge. cbn [filter].
      rewrite firstn_arange by lia.
      unfold at_least. fold s. rewrite Hnan, orb_true_r. simpl. lia. }
    unfold Qlt, Qle. cbn [Qnum Qden].
    rewrite !Z2Pos.id by lia.
    rewrite Zpos_of_nat by lia.
    split; [lia|]. nia.
Qed.

End Estimators.

(** ** The scenario of the specification *)

(** C3.  For X = [[1,0],[0,1]], Y = [[-1,0],[0,-1]], A = [[1,0]],
    B = [[-1,0]] and any [n_samples >= 6]: the association vector is
    [2, 0, -2, 0]; [C(4,2) = 6] and the exact branch is taken; no partition
    has a statistic above the observed one; two of the six partitions have a
    statistic at least the observed one and [p] returns 2/6; [effect_size]
    returns [(1 - (-1)) / std([2,0,-2,0], ddof=1)]. *)
Theorem weat_scenario :
  forall (shapiro : list float -> float * float)
         (norm_sf : float -> float -> float -> float)
         (n_samples : Z) (st : RandomState),
  (6 <= n_samples)%Z ->
  exists t : Test float,
    init X_1 Y_1 A_1 B_1 None = Ok t /\
    s_AB t = [2; 0; -2; 0]%float /\
    binomial 4 2 = 6 /\
    selected_branch 2 n_samples = Ok Exact /\
    (let s := sum_at (s_AB t) (arange 2) in
     let parts := combinations (arange 4) 2 in
     length parts = 6 /\
     Forall (fun Xi => PrimFloat.leb (sum_at (s_AB t) Xi) s = true) parts /\
     count_ge (s_AB t) s parts = 2 /\
     p shapiro norm_sf t n_samples false st
       = Ok (@Quotient float (Qmake 2 6), st)) /\
    effect_size t
      = Ok ((1 - (-1)) / np_std [2; 0; -2; 0]%float 1)%float.
Proof.
  intros shapiro norm_sf n_samples st Hn.
  destruct (init X_1 Y_1 A_1 B_1 None) as [t|e] eqn:Hinit;
    [|vm_compute in Hinit; discriminate].
  exists t. split; [reflexivity|].
  pose proof (init_consistent _ _ _ _ _ _ Hinit) as Hc.
  destruct (init_fields _ _ _ _ _ _ Hinit) as (Ex & Ey & _).
  vm_compute in Hinit. injection Hinit as <-. clear Ex Ey.
  split; [reflexivity|]. split; [reflexivity|]. split.
  - unfold selected_branch.
    change (num_partitions 2) with (@Ok Z 6%Z) .
    cbn [bind]. apply Z.ltb_ge in Hn. now rewrite Hn.
  - split.
    + cbv zeta. split; [reflexivity|]. split.
      * repeat constructor.
      * split; [vm_compute; reflexivity|].
        rewrite (p_nonparametric_eq shapiro norm_sf _ 2 n_samples st Hc)
          by reflexivity.
        change (num_partitions 2) with (@Ok Z 6%Z). cbn [bind].
        apply Z.ltb_ge in Hn. rewrite Hn. vm_compute. reflexivity.
    + vm_compute. reflexivity.
Qed.

Lemma weat_scenario_witness :
  exists t : Test float,
    init X_1 Y_1 A_1 B_1 None = Ok t /\
    p (fun _ => (nan, nan)) (fun _ _ _ => nan) t 10000 false (counting_state 0)
      = Ok (@Quotient float (Qmake 2 6), counting_state 0).
Proof.
  destruct (weat_scenario (fun _ => (nan, nan)) (fun _ _ _ => nan) 10000
              (counting_state 0))
    as (t & Hinit & _ & _ & _ & (_ & _ & _ & Hp) & _).
  - discriminate.
  - exists t. split; assumption.
Defined.

(** ** Doubles: what [int()] can return, and division by zero *)

Lemma digits2_pos_bound (m : positive) :
  (Zpos m < 2 ^ Zpos (digits2_pos m))%Z.
Proof.
  induction m as [m IH|m IH|]; cbn [digits2_pos].
  - rewrite Pos2Z.inj_succ, Z.pow_succ_r by lia. lia.
  - rewrite Pos2Z.inj_succ, Z.pow_succ_r by lia. lia.
  - reflexivity.
Qed.

(** Every finite double is below [2^1024] in magnitude. *)
Lemma int_of_float_bound (x : float) (z : Z) :
  int_of_float x = Ok z -> (Z.abs z < 2 ^ 1024)%Z.
Proof.
  unfold int_of_float. pose proof (Prim2SF_valid x) as Hv.
  destruct (Prim2SF x) as [s|s| |s m e]; try discriminate.
  - intros [= <-]. reflexivity.
  - intros [= <-]. cbn [valid_binary] in Hv.
    unfold bounded, canonical_mantissa, fexp, SpecFloat.emin in Hv.
    apply andb_prop in Hv as [Hc He].
    apply Z.eqb_eq in Hc. apply Z.leb_le in He.
    change prec with 53%Z in *. change emax with 1024%Z in *.
    unfold fexp, SpecFloat.emin in Hc.
    pose proof (digits2_pos_bound m) as Hm.
    assert (Hd : (Zpos (digits2_pos m) <= 53)%Z) by lia.
    assert (Hm53 : (Zpos m < 2 ^ 53)%Z).
    { eapply Z.lt_le_trans; [exact Hm|]. apply Z.pow_le_mono_r; lia. }
    assert (Ha : (0 <= (if (0 <=? e)%Z then Z.shiftl (Zpos m) e
                        else Z.shiftr (Zpos m) (- e)) < 2 ^ 1024)%Z).
    { destruct (0 <=? e)%Z eqn:Hs.
      - apply Z.leb_le in Hs. rewrite Z.shiftl_mul_pow2 by lia.
        assert (H971 : (2 ^ e <= 2 ^ 971)%Z) by (apply Z.pow_le_mono_r; lia).
        assert (Hpos : (0 < 2 ^ e)%Z) by (apply Z.pow_pos_nonneg; lia).
        replace (2 ^ 1024)%Z with (2 ^ 53 * 2 ^ 971)%Z by reflexivity.
        split; [lia|]. nia.
      - apply Z.leb_gt in Hs. rewrite Z.shiftr_div_pow2 by lia.
        assert (Hpos : (0 < 2 ^ (- e))%Z) by (apply Z.pow_pos_nonneg; lia).
        split; [apply Z.div_pos; lia|].
        apply Z.le_lt_trans with (Zpos m).
        + apply Z.div_le_upper_bound; nia.
        + eapply Z.lt_trans; [exact Hm53|]. reflexivity. }
    destruct s; lia.
Qed.

Lemma central_binomial_mono (n : nat) :
  binomial (2 * n) n <= binomial (2 * S n) (S n).
Proof.
  replace (2 * S n) with (S (S (2 * n))) by lia.
  cbn [binomial]. destruct n; simpl; lia.
Qed.

Lemma central_binomial_huge (n : nat) :
  515 <= n -> (2 ^ 1024 <= Z.of_nat (binomial (2 * n) n))%Z.
Proof.
  induction 1 as [|n Hn IH].
  - rewrite <- comb_binomial. vm_compute. discriminate.
  - pose proof (central_binomial_mono n). lia.
Qed.


(** With six hundred targets per set [p] raises [OverflowError] whatever
    [n_samples] is. *)
Lemma p_overflows_600 (t : Test float) :
  init X_600 Y_600 A_1 B_1 None = Ok t ->
  forall shapiro norm_sf n_samples st,
    p shapiro norm_sf t n_samples false st = Raise OverflowError.
Proof.
  intros Hinit shapiro norm_sf n_samples st.
  pose proof (init_consistent _ _ _ _ _ _ Hinit) as Hc.
  destruct (init_fields _ _ _ _ _ _ Hinit) as (Ex & Ey & _).
  rewrite (p_nonparametric_eq shapiro norm_sf t 600 _ st Hc)
    by (rewrite ?Ex, ?Ey; reflexivity).
  replace (num_partitions 600) with (@Raise Z OverflowError)
    by (vm_compute; reflexivity).
  reflexivity.
Qed.

Lemma init_600 : exists t : Test float, init X_600 Y_600 A_1 B_1 None = Ok t.
Proof.
  destruct (init X_600 Y_600 A_1 B_1 None) as [t|e] eqn:Hinit;
    [eauto | vm_compute in Hinit; discriminate].
Qed.


(** C1 fails as stated: with [|X| = |Y| = 600] and
    [n_samples = C(1200, 600)] the number of partitions is at most
    [n_samples], yet [p] returns nothing: it raises [OverflowError]. *)
Lemma exact_branch_overflows :
  (Z.of_nat (binomial 1200 600) <= comb 1200 600)%Z /\
  nrows X_600 = 600 /\ nrows Y_600 = 600 /\
  exists t : Test float,
    init X_600 Y_600 A_1 B_1 None = Ok t /\
    forall shapiro norm_sf st,
      p shapiro norm_sf t (comb 1200 600) false st = Raise OverflowError.
Proof.
  split; [rewrite <- (comb_binomial 1200 600 : comb 1200 600 = _);
          apply Z.le_refl|].
  split; [reflexivity|]. split; [reflexivity|].
  destruct init_600 as [t Hinit]. exists t. split; [exact Hinit|].
  intros shapiro norm_sf st. now apply p_overflows_600.
Qed.

(** C2 fails as stated.  With [|X| = |Y| = 600] and the default
    [n_samples = 10000] the number of partitions exceeds [n_samples], yet
    [p] draws nothing and raises [OverflowError].  And on the scenario
    instance with [n_samples = 0], where [C(4,2) = 6 > 0], [p] makes no draw
    and returns 1/1, which is not a count divided by [n_samples]. *)
Lemma sampling_branch_overflows :
  (10000 < Z.of_nat (binomial 1200 600))%Z /\
  (exists t : Test float,
     init X_600 Y_600 A_1 B_1 None = Ok t /\
     forall shapiro norm_sf st,
       p shapiro norm_sf t 10000 false st = Raise OverflowError) /\
  (0 < Z.of_nat (binomial 4 2))%Z /\
  exists t : Test float,
    init X_1 Y_1 A_1 B_1 None = Ok t /\
    forall shapiro norm_sf st,
      p shapiro norm_sf t 0 false st = Ok (@Quotient float (Qmake 1 1), st).
Proof.
  split.
  { pose proof (central_binomial_huge 600) as Hhuge.
    assert (H1 : (10000 < 2 ^ 1024)%Z) by reflexivity.
    change (2 * 600) with 1200 in Hhuge. lia. }
  split.
  { destruct init_600 as [t Hinit]. exists t. split; [exact Hinit|].
    intros shapiro norm_sf st. now apply p_overflows_600. }
  split; [reflexivity|].
  destruct (init X_1 Y_1 A_1 B_1 None) as [t|e] eqn:Hinit;
    [|vm_compute in Hinit; discriminate].
  exists t. split; [reflexivity|]. intros shapiro norm_sf st.
  pose proof (init_consistent _ _ _ _ _ _ Hinit) as Hc.
  vm_compute in Hinit. injection Hinit as <-.
  rewrite (p_nonparametric_eq shapiro norm_sf _ 2 0 st Hc) by reflexivity.
  vm_compute. reflexivity.
Qed.

Lemma eqb_zero_inv (d : float) :
  PrimFloat.eqb d 0%float = true -> exists s, Prim2SF d = S754_zero s.
Proof.
  rewrite eqb_spec. change (Prim2SF 0%float) with (S754_zero false).
  destruct (Prim2SF d) as [s|s| |s m e]; cbn; try discriminate.
  - intros _. now exists s.
  - destruct s; discriminate.
  - destruct s; discriminate.
Qed.

Lemma is_nan_spec (x : float) : Prim2SF x = S754_nan -> is_nan x = true.
Proof.
  intros Hx. unfold is_nan. now rewrite eqb_spec, Hx.
Qed.

Lemma is_infinity_spec (x : float) (s : bool) :
  Prim2SF x = S754_infinity s -> is_infinity x = true.
Proof.
  intros Hx. unfold is_infinity. rewrite eqb_spec, abs_spec, Hx. reflexivity.
Qed.

(** A double divided by zero is NaN or an infinity. *)
Lemma div_by_zero (x d : float) :
  PrimFloat.eqb d 0%float = true -> is_nan_or_inf (x / d)%float = true.
Proof.
  intros Hd. destruct (eqb_zero_inv d Hd) as [s Hs].
  unfold is_nan_or_inf. apply orb_true_iff.
  pose proof (div_spec x d) as Hdiv. rewrite Hs in Hdiv.
  destruct (Prim2SF x) as [sx|sx| |sx mx ex]; cbn in Hdiv.
  - left. now apply is_nan_spec.
  - right. eapply is_infinity_spec; eauto.
  - left. now apply is_nan_spec.
  - right. eapply is_infinity_spec; eauto.
Qed.

(** ** Effect size *)

Section EffectSize.
Context {F : Type} `{Scalar F}.

(** On a consistent instance [effect_size] raises nothing: it returns the
    quotient, whatever the denominator. *)
Lemma effect_size_eq (t : Test F) :
  consistent t ->
  let m := rows (similarity_matrix t) in
  let nX := nrows (X t) in
  let sx := map (association (nrows (A t))) (firstn nX m) in
  let sy := map (association (nrows (A t)))
                (firstn (length m - nX) (skipn nX m)) in
  effect_size t =
  Ok (fdiv (fsub (np_mean sx) (np_mean sy)) (np_std (s_AB t) 1)).
Proof.
  intros Hc m nX sx sy.
  destruct (consistent_shape t Hc) as (_ & _ & Hrows & _).
  assert (Hlen : length m = nX + nrows (Y t)) by exact Hrows.
  unfold effect_size, s_wAB, arange, arange2.
  change (rows (similarity_matrix t)) with m.
  change (nrows (similarity_matrix t)) with (length m).
  change (nrows (X t)) with nX.
  rewrite (take_seq m 0 nX) by lia. cbn [bind].
  rewrite (take_seq m nX (length m - nX)) by lia. cbn [bind skipn].
  reflexivity.
Qed.

End EffectSize.




(** ** Precondition violations *)

Section Preconditions.
Context {F : Type} `{Scalar F}.

Lemma cosine_similarity_raises (U V : ndarray F) (e : exn) :
  cosine_similarity U V = Raise e -> e = ValueError.
Proof.
  unfold cosine_similarity, check_array.
  destruct ((nrows U =? 0) || (ncols U =? 0)); cbn [bind];
    [now intros [= <-]|].
  destruct (forallb (forallb isfinite) (rows U)); cbn [bind];
    [|now intros [= <-]].
  destruct ((nrows V =? 0) || (ncols V =? 0)); cbn [bind];
    [now intros [= <-]|].
  destruct (forallb (forallb isfinite) (rows V)); cbn [bind];
    [|now intros [= <-]].
  destruct (ncols U =? ncols V); [discriminate | now intros [= <-]].
Qed.

Lemma init_raises x y a b nm (e : exn) :
  @init F _ x y a b nm = Raise e -> e = ValueError.
Proof.
  unfold init. rewrite reset_calc_eq. unfold similarities, concatenate.
  cbn [X Y A B].
  destruct (ncols x =? ncols y); cbn [bind]; [|now intros [= <-]].
  destruct (ncols a =? ncols b); cbn [bind]; [|now intros [= <-]].
  destruct (cosine_similarity _ _) as [m|e'] eqn:Hm; cbn [bind];
    [discriminate|].
  intros [= <-]. eapply cosine_similarity_raises; eauto.
Qed.

Lemma init_Ok x y a b nm (t : Test F) :
  init x y a b nm = Ok t ->
  ncols x = ncols y /\ ncols a = ncols b /\ ncols x = ncols a /\
  nrows x + nrows y <> 0 /\ nrows a + nrows b <> 0.
Proof.
  unfold init. rewrite reset_calc_eq. unfold similarities. cbn [X Y A B].
  intros Ht. inv_ok.
  repeat match goal with
  | Hcat : concatenate _ _ = Ok _ |- _ =>
      apply concatenate_Ok in Hcat as [? ->]
  end.
  match goal with
  | Hm : cosine_similarity _ _ = Ok _ |- _ =>
      apply cosine_similarity_rows in Hm as (Hcols & HU & HV & _)
  end.
  unfold nrows in *. cbn [ncols rows] in *. rewrite length_app in HU, HV.
  auto.
Qed.

End Preconditions.

(** C8, as amended.  When [|X| <> |Y|], [p] fails its assertion.  When the
    embedding dimensions of the four sets are not all equal, or X and Y are
    both empty, or A and B are both empty, the constructor fails with
    [ValueError].  (A single empty set beside a non-empty partner is not
    among the cases that fail.) *)
Theorem precondition_violations :
  forall (F : Type) (SF : Scalar F)
         (shapiro : list F -> F * F) (norm_sf : F -> F -> F -> F)
         (x y a b : ndarray F) nm,
  (nrows x <> nrows y ->
   forall t n_samples parametric st,
     init x y a b nm = Ok t ->
     p shapiro norm_sf t n_samples parametric st = Raise AssertionError) /\
  (~ (ncols x = ncols y /\ ncols a = ncols b /\ ncols x = ncols a) ->
   init x y a b nm = Raise ValueError) /\
  ((nrows x = 0 /\ nrows y = 0) \/ (nrows a = 0 /\ nrows b = 0) ->
   init x y a b nm = Raise ValueError).
Proof.
  intros F SF shapiro norm_sf x y a b nm. repeat split.
  - intros Hne t n_samples parametric st Hinit.
    destruct (init_fields _ _ _ _ _ _ Hinit) as (Ex & Ey & _).
    unfold p. rewrite Ex, Ey. apply Nat.eqb_neq in Hne. now rewrite Hne.
  - intros Hdim. destruct (init x y a b nm) as [t|e] eqn:Hinit.
    + apply init_Ok in Hinit. tauto.
    + now rewrite (init_raises _ _ _ _ _ _ Hinit).
  - intros Hempty. destruct (init x y a b nm) as [t|e] eqn:Hinit.
    + apply init_Ok in Hinit. lia.
    + now rewrite (init_raises _ _ _ _ _ _ Hinit).
Qed.

(** C8 fails as stated: an empty attribute set A beside a non-empty B.  The
    constructor succeeds, the association vector is NaN throughout, [p]
    returns 0 and [effect_size] returns NaN; nothing is raised. *)
Lemma empty_attribute_set_undetected :
  exists t : Test float,
    nrows (array64 2 []) = 0 /\
    init X_1 Y_1 (array64 2 []) B_1 None = Ok t /\
    s_AB t = [nan; nan; nan; nan]%float /\
    (forall shapiro norm_sf st,
       p shapiro norm_sf t 10000 false st
       = Ok (@Quotient float (Qmake 0 6), st)) /\
    effect_size t = Ok nan.
Proof.
  destruct (init X_1 Y_1 (array64 2 []) B_1 None) as [t|e] eqn:Hinit;
    [|vm_compute in Hinit; discriminate].
  exists t. split; [reflexivity|]. split; [reflexivity|].
  pose proof (init_consistent _ _ _ _ _ _ Hinit) as Hc.
  vm_compute in Hinit. injection Hinit as <-.
  split; [reflexivity|]. split.
  - intros shapiro norm_sf st.
    rewrite (p_nonparametric_eq shapiro norm_sf _ 2 10000 st Hc)
      by reflexivity.
    vm_compute. reflexivity.
  - vm_compute. reflexivity.
Qed.

(** C10 fails as stated: on the same instance the observed statistic is NaN,
    no partition compares at least as large, and [p] returns 0. *)
Lemma p_value_zero_on_nan :
  exists t : Test float,
    init X_1 Y_1 (array64 2 []) B_1 None = Ok t /\
    nrows X_1 = 2 /\ nrows Y_1 = 2 /\
    forall shapiro norm_sf st,
      exists q, p shapiro norm_sf t 10000 false st = Ok (@Quotient float q, st)
                /\ ~ (0 < q)%Q.
Proof.
  destruct (init X_1 Y_1 (array64 2 []) B_1 None) as [t|e] eqn:Hinit;
    [|vm_compute in Hinit; discriminate].
  exists t. split; [reflexivity|]. split; [reflexivity|].
  split; [reflexivity|].
  pose proof (init_consistent _ _ _ _ _ _ Hinit) as Hc.
  vm_compute in Hinit. injection Hinit as <-.
  intros shapiro norm_sf st. exists (Qmake 0 6). split.
  - rewrite (p_nonparametric_eq shapiro norm_sf _ 2 10000 st Hc)
      by reflexivity.
    vm_compute. reflexivity.
  - intros Hq. discriminate Hq.
Qed.

(** ** The test driver *)

Lemma forallb_sub {E : Type} (f : E -> bool) (l l' : list E) :
  (forall x, In x l' -> In x l) ->
  forallb f l = true -> forallb f l' = true.
Proof.
  intros Hsub Hl. apply forallb_forall. intros x Hx.
  rewrite forallb_forall in Hl. auto.
Qed.

Section Driver.
Context {F : Type} `{Scalar F}.
Variable shapiro : list F -> F * F.
Variable norm_sf : F -> F -> F -> F.

Lemma check_array_Ok (a : ndarray F) :
  check_array a = Ok tt <->
  nrows a <> 0 /\ ncols a <> 0 /\ forallb (forallb isfinite) (rows a) = true.
Proof.
  unfold check_array.
  destruct (Nat.eqb_spec (nrows a) 0) as [Hr|Hr]; cbn [orb].
  - split; [discriminate | intros (? & _); contradiction].
  - destruct (Nat.eqb_spec (ncols a) 0) as [Hc|Hc].
    + split; [discriminate | intros (_ & ? & _); contradiction].
    + destruct (forallb (forallb isfinite) (rows a)).
      * split; auto.
      * split; [discriminate | intros (_ & _ & Hf); discriminate].
Qed.

Lemma cosine_similarity_inv (U V m : ndarray F) :
  cosine_similarity U V = Ok m ->
  check_array U = Ok tt /\ check_array V = Ok tt /\ ncols U = ncols V.
Proof.
  unfold cosine_similarity. intros Hm.
  destruct (check_array U) as [[]|]; [|discriminate].
  destruct (check_array V) as [[]|]; [|discriminate].
  cbn [bind] in Hm. destruct (ncols U =? ncols V) eqn:Hc; [|discriminate].
  apply Nat.eqb_eq in Hc. auto.
Qed.

Lemma cosine_similarity_total (U V : ndarray F) :
  check_array U = Ok tt -> check_array V = Ok tt -> ncols U = ncols V ->
  exists m, cosine_similarity U V = Ok m.
Proof.
  intros HU HV Hc. unfold cosine_similarity. rewrite HU, HV. cbn [bind].
  apply Nat.eqb_eq in Hc. rewrite Hc. eauto.
Qed.

(** [reset_calc] reads X, Y, A, B and the names only. *)
Lemma reset_calc_ext (t1 t2 : Test F) :
  X t1 = X t2 -> Y t1 = Y t2 -> A t1 = A t2 -> B t1 = B t2 ->
  names t1 = names t2 ->
  reset_calc t1 = reset_calc t2.
Proof.
  intros Hx Hy Ha Hb Hn. rewrite !reset_calc_eq. unfold similarities.
  now rewrite Hx, Hy, Ha, Hb, Hn.
Qed.

Lemma reset_calc_fields (t t' : Test F) :
  reset_calc t = Ok t' ->
  X t' = X t /\ Y t' = Y t /\ A t' = A t /\ B t' = B t /\ names t' = names t.
Proof.
  rewrite reset_calc_eq. intros Ht. inv_ok. injection Hk as <-. simpl. auto.
Qed.

(** What a consistent instance tells about its four sets. *)
Lemma consistent_checks (t : Test F) :
  consistent t ->
  ncols (X t) = ncols (Y t) /\ ncols (A t) = ncols (B t) /\
  ncols (X t) = ncols (A t) /\
  check_array (mk_ndarray (ncols (X t)) (rows (X t) ++ rows (Y t))) = Ok tt /\
  check_array (mk_ndarray (ncols (A t)) (rows (A t) ++ rows (B t))) = Ok tt.
Proof.
  unfold consistent. rewrite reset_calc_eq. unfold similarities.
  intros Ht. inv_ok.
  repeat match goal with
  | Hcat : concatenate _ _ = Ok _ |- _ =>
      apply concatenate_Ok in Hcat as [? ->]
  end.
  match goal with
  | Hm : cosine_similarity _ _ = Ok _ |- _ =>
      apply cosine_similarity_inv in Hm as (HU & HV & Hcols)
  end.
  cbn [ncols] in Hcols. auto.
Qed.

(** The randomized repartition of a consistent instance with [|X| = |Y|]
    passes the checks of the similarity layer again. *)
Lemma repartition_similarities (t : Test F) (n : nat) (d : list (list F)) :
  consistent t -> nrows (X t) = n -> nrows (Y t) = n ->
  Permutation d (((rows (X t) ++ rows (Y t)) ++ rows (A t)) ++ rows (B t)) ->
  let D := mk_ndarray (ncols (X t)) d in
  let nA := nrows (A t) in
  let t1 := set_XYAB t (slice_rows D 0 n) (slice_rows D n (2 * n))
              (slice_rows D (2 * n) (2 * n + nA))
              (slice_rows D (2 * n + nA) (nrows D)) in
  exists t', reset_calc t1 = Ok t' /\ nrows (X t') = n /\ nrows (Y t') = n.
Proof.
  intros Hc Hx Hy Hperm D nA t1. subst D.
  destruct (consistent_checks t Hc) as (Hxy & Hab & Hxa & HXY & HAB).
  apply check_array_Ok in HXY as (HrXY & HcXY & HfXY).
  apply check_array_Ok in HAB as (HrAB & HcAB & HfAB).
  unfold nrows in *. cbn [rows ncols] in *.
  rewrite length_app in HrXY, HrAB. rewrite forallb_app in HfXY, HfAB.
  apply andb_prop in HfXY as [HfX HfY]. apply andb_prop in HfAB as [HfA HfB].
  assert (Hlen : length d = 2 * n + nA + length (rows (B t))).
  { rewrite (Permutation_length Hperm), !length_app. unfold nA, nrows. lia. }
  assert (Hfin : forall r, In r d -> forallb isfinite r = true).
  { intros r Hr. apply (Permutation_in _ Hperm) in Hr.
    rewrite !in_app_iff in Hr.
    rewrite forallb_forall in HfX, HfY, HfA, HfB. intuition auto. }
  assert (Hsim : exists m, similarities t1 = Ok m).
  { unfold similarities, t1, set_XYAB, concatenate, slice_rows.
    cbn [X Y A B ncols rows]. rewrite !Nat.eqb_refl. cbn [bind].
    apply cosine_similarity_total; [| |reflexivity].
    - apply check_array_Ok. unfold nrows. cbn [rows ncols].
      repeat split; [|assumption|].
      + rewrite length_app, !length_firstn, !length_skipn. lia.
      + apply forallb_forall. intros r Hr. apply Hfin.
        apply in_app_or in Hr as [Hr|Hr];
          apply In_firstn, In_skipn in Hr; exact Hr.
    - apply check_array_Ok. unfold nrows. cbn [rows ncols].
      repeat split; [|assumption|].
      + rewrite length_app, !length_firstn, !length_skipn. unfold nA, nrows.
        lia.
      + apply forallb_forall. intros r Hr. apply Hfin.
        apply in_app_or in Hr as [Hr|Hr];
          apply In_firstn, In_skipn in Hr; exact Hr. }
  destruct Hsim as [m Hm]. rewrite reset_calc_eq, Hm. cbn [bind].
  eexists. split; [reflexivity|]. unfold t1, set_XYAB, slice_rows, nrows.
  cbn [X Y rows]. rewrite !length_firstn, !length_skipn. lia.
Qed.

Lemma concatenate4_Ok (t : Test F) :
  consistent t ->
  concatenate4 (X t) (Y t) (A t) (B t) =
  Ok (mk_ndarray (ncols (X t))
        (((rows (X t) ++ rows (Y t)) ++ rows (A t)) ++ rows (B t))).
Proof.
  intros Hc. destruct (consistent_checks t Hc) as (Hxy & Hab & Hxa & _).
  unfold concatenate4, concatenate. rewrite <- Hxy, Nat.eqb_refl. cbn [bind ncols].
  rewrite <- Hxa, Nat.eqb_refl. cbn [bind ncols rows].
  now rewrite <- Hab, <- Hxa, Nat.eqb_refl.
Qed.

Lemma p_total (t : Test F) (n : nat) (np n_samples : Z) (parametric : bool)
    (st : RandomState) :
  consistent t -> nrows (X t) = n -> nrows (Y t) = n ->
  num_partitions n = Ok np ->
  exists v st', p shapiro norm_sf t n_samples parametric st = Ok (v, st').
Proof.
  intros Hc Hx Hy Hnp. destruct parametric.
  - rewrite (p_parametric_eq norm_sf t n n_samples st shapiro Hc Hx Hy). eauto.
  - rewrite (p_nonparametric_eq shapiro norm_sf t n n_samples st Hc Hx Hy).
    rewrite Hnp. cbn [bind]. destruct (n_samples <? np)%Z; eauto.
Qed.

Lemma effect_size_total (t : Test F) :
  consistent t -> exists e, effect_size t = Ok e.
Proof. intros Hc. rewrite (effect_size_eq t Hc). eauto. Qed.

(** A randomized run returns and leaves the instance as it found it. *)
Lemma run_randomized_restores (t : Test F) (n : nat) (np n_samples : Z)
    (parametric : bool) (st : RandomState) :
  consistent t -> nrows (X t) = n -> nrows (Y t) = n ->
  num_partitions n = Ok np ->
  exists r st', run shapiro norm_sf t true n_samples parametric st
                = Ok (r, t, st').
Proof.
  intros Hc Hx Hy Hnp. unfold run. rewrite (concatenate4_Ok t Hc).
  cbn [bind rows ncols].
  pose proof (shuffle_perm
    (((rows (X t) ++ rows (Y t)) ++ rows (A t)) ++ rows (B t)) st) as Hperm.
  destruct (shuffle _ st) as [d st1]. cbn [fst] in Hperm.
  rewrite Hx.
  destruct (repartition_similarities t n d Hc Hx Hy Hperm)
    as (t' & Hreset & Hx' & Hy').
  cbv zeta in Hreset. rewrite Hreset. cbn [bind].
  destruct (p_total t' n np n_samples parametric st1
              (reset_calc_consistent _ _ Hreset) Hx' Hy' Hnp)
    as (v & st2 & Hp).
  rewrite Hp. cbn [bind].
  destruct (effect_size_total t' (reset_calc_consistent _ _ Hreset))
    as (e & He).
  rewrite He. cbn [bind].
  destruct (reset_calc_fields _ _ Hreset) as (_ & _ & _ & _ & Hn).
  rewrite (reset_calc_ext _ t) by (try reflexivity; exact Hn).
  rewrite Hc. cbn [bind]. eauto.
Qed.

(** A run without randomization through the exact branch changes neither
    the instance nor the generator. *)
Lemma run_exact_pure (t : Test F) (n : nat) (np n_samples : Z)
    (st : RandomState) :
  consistent t -> nrows (X t) = n -> nrows (Y t) = n ->
  num_partitions n = Ok np -> (np <= n_samples)%Z ->
  exists r, run shapiro norm_sf t false n_samples false st = Ok (r, t, st).
Proof.
  intros Hc Hx Hy Hnp Hle. unfold run. cbn [bind].
  rewrite (p_nonparametric_eq shapiro norm_sf t n n_samples st Hc Hx Hy).
  rewrite Hnp. cbn [bind]. apply Z.ltb_ge in Hle. rewrite Hle. cbn [bind].
  destruct (effect_size_total t Hc) as (e & He). rewrite He. cbn [bind].
  eauto.
Qed.

(** C9, as amended.  On every instance the constructor built:
    [run(randomized=True)] evaluates the randomized repartition, that is, it
    returns the effect size and the p-value of the instance the constructor
    builds from the repartitioned sets (with the same names), it raises what
    the constructor, [p] or [effect_size] raise on them, and when it returns
    the instance is exactly as it was before the call; with [|X| = |Y|] and
    a number of partitions that converts to an integer it does return.  A
    run without randomization leaves the instance as it is, so that two
    runs in succession return the same effect size, and p-values computed
    from successive parts of the random stream; when the non-parametric
    estimator takes the exact branch the stream is not used and the two
    results are identical. *)
Theorem run_restores_and_repeats :
  forall x y a b nm (t : Test F),
  init x y a b nm = Ok t ->
  (forall n_samples parametric st,
     run shapiro norm_sf t true n_samples parametric st =
     let '((x', y', a', b'), st1) := repartition x y a b st in
     let* t' := init x' y' a' b' (Some (names t)) in
     let* (pv, st2) := p shapiro norm_sf t' n_samples parametric st1 in
     let* e := effect_size t' in
     Ok ((e, pv), t, st2)) /\
  (forall np n_samples parametric st,
     nrows x = nrows y -> num_partitions (nrows x) = Ok np ->
     exists r st',
       run shapiro norm_sf t true n_samples parametric st = Ok (r, t, st')) /\
  (forall n_samples parametric st,
     run_twice shapiro norm_sf t false n_samples parametric st =
     let* (pv1, st1) := p shapiro norm_sf t n_samples parametric st in
     let* e := effect_size t in
     let* (pv2, st2) := p shapiro norm_sf t n_samples parametric st1 in
     Ok ((e, pv1), (e, pv2))) /\
  (forall n_samples st,
     nrows x = nrows y -> selected_branch (nrows x) n_samples = Ok Exact ->
     exists r,
       run shapiro norm_sf t false n_samples false st = Ok (r, t, st) /\
       run_twice shapiro norm_sf t false n_samples false st = Ok (r, r)).
Proof.
  intros x y a b nm t Hinit.
  destruct (init_fields _ _ _ _ _ _ Hinit) as (Ex & Ey & Ea & Eb).
  pose proof (init_consistent _ _ _ _ _ _ Hinit) as Hc.
  split; [|split; [|split]].
  - intros n_samples parametric st. unfold run, repartition.
    rewrite (concatenate4_Ok t Hc). cbn [bind rows ncols].
    rewrite Ex, Ey, Ea, Eb.
    destruct (shuffle _ st) as [d st1]. cbv zeta.
    unfold init.
    match goal with
    | |- context [reset_calc (set_XYAB t ?x' ?y' ?a' ?b')] =>
        rewrite (reset_calc_ext (set_XYAB t x' y' a' b')
                   (mk_Test x' y' a' b' (names t) (mk_ndarray 0 []) []))
          by reflexivity
    end.
    match goal with
    | |- context [reset_calc ?u] =>
        destruct (reset_calc u) as [t'|e] eqn:Hreset
    end; cbn [bind]; [|reflexivity].
    destruct (p shapiro norm_sf t' n_samples parametric st1)
      as [[pv st2]|e]; cbn [bind]; [|reflexivity].
    destruct (effect_size t') as [e|e']; cbn [bind]; [|reflexivity].
    destruct (reset_calc_fields _ _ Hreset) as (_ & _ & _ & _ & Hn).
    cbn [names] in Hn.
    rewrite (reset_calc_ext (set_XYAB t' x y a b) t)
      by (cbn [set_XYAB X Y A B names]; congruence).
    rewrite Hc. reflexivity.
  - intros np n_samples parametric st Hxy Hnp.
    apply run_randomized_restores with (n := nrows x) (np := np);
      congruence.
  - intros n_samples parametric st. unfold run_twice, run. cbn [bind].
    destruct (p shapiro norm_sf t n_samples parametric st)
      as [[pv1 st1]|e]; cbn [bind]; [|reflexivity].
    destruct (effect_size t) as [e|e'] eqn:He; cbn [bind]; [|reflexivity].
    destruct (p shapiro norm_sf t n_samples parametric st1)
      as [[pv2 st2]|e']; cbn [bind]; [|reflexivity].
    rewrite He. reflexivity.
  - intros n_samples st Hxy Hbr. unfold selected_branch in Hbr.
    destruct (num_partitions (nrows x)) as [np|e] eqn:Hnp; [|discriminate].
    cbn [bind] in Hbr.
    destruct (n_samples <? np)%Z eqn:Hlt; [discriminate|].
    apply Z.ltb_ge in Hlt.
    destruct (run_exact_pure t (nrows x) np n_samples st Hc) as (r & Hr);
      try congruence.
    exists r. split; [exact Hr|].
    unfold run_twice. rewrite Hr. cbn [bind]. rewrite Hr. reflexivity.
Qed.

End Driver.

Lemma run_restores_and_repeats_witness :
  exists (t : Test float) r1 st' r2,
    init X_1 Y_1 A_1 B_1 None = Ok t /\
    run (fun _ => (nan, nan)) (fun _ _ _ => nan) t true 10000 false
      (counting_state 0) = Ok (r1, t, st') /\
    run_twice (fun _ => (nan, nan)) (fun _ _ _ => nan) t false 10000 false
      (counting_state 0) = Ok (r2, r2).
Proof.
  destruct (init X_1 Y_1 A_1 B_1 None) as [t|e] eqn:Hinit;
    [|vm_compute in Hinit; discriminate].
  destruct (run_restores_and_repeats (fun _ => (nan, nan))
              (fun _ _ _ => nan) X_1 Y_1 A_1 B_1 None t Hinit)
    as (_ & Hrand & _ & Hexact).
  destruct (Hrand 6%Z 10000%Z false (counting_state 0) eq_refl eq_refl)
    as (r1 & st' & Hrun).
  destruct (Hexact 10000%Z (counting_state 0) eq_refl eq_refl)
    as (r2 & _ & Htwice).
  exists t, r1, st', r2. split; [reflexivity|]. split; assumption.
Defined.

(** C9 fails as stated: with [n_samples = 2] the scenario instance takes the
    sampling branch, and two successive calls of [run] without randomization
    return the p-values 2/2 and 1/2. *)
Lemma repeated_sampled_runs_differ :
  exists t : Test float,
    init X_1 Y_1 A_1 B_1 None = Ok t /\
    exists e : float,
    forall shapiro norm_sf,
      run_twice shapiro norm_sf t false 2 false (counting_state 1)
      = Ok ((e, @Quotient float (Qmake 2 2)), (e, @Quotient float (Qmake 1 2))).
Proof.
  eexists. split; [vm_compute; reflexivity|].
  eexists. intros shapiro norm_sf. vm_compute. reflexivity.
Qed.

(** ** Swapping the target sets *)

Section Swap.
Context {F : Type} `{Scalar F}.

Lemma cosine_similarity_eq (U V m : ndarray F) :
  cosine_similarity U V = Ok m ->
  m = mk_ndarray (nrows V) (map (similarity_row (rows V)) (rows U)).
Proof.
  unfold cosine_similarity. intros Hm.
  destruct (check_array U) as [[]|]; [|discriminate].
  destruct (check_array V) as [[]|]; [|discriminate].
  cbn [bind] in Hm. destruct (ncols U =? ncols V); [|discriminate].
  injection Hm as <-. unfold similarity_row. now rewrite map_map.
Qed.

(** The instance the constructor builds, written out. *)
Lemma init_eq x y a b nm (t : Test F) :
  init x y a b nm = Ok t ->
  let ab := rows a ++ rows b in
  let m := mk_ndarray (length ab) (map (similarity_row ab) (rows x ++ rows y)) in
  t = mk_Test x y a b
        (match nm with Some l => l | None => default_names end) m
        (map (association (nrows a)) (rows m)).
Proof.
  unfold init. rewrite reset_calc_eq. unfold similarities. cbn [X Y A B names].
  intros Ht. inv_ok.
  repeat match goal with
  | Hcat : concatenate _ _ = Ok _ |- _ =>
      apply concatenate_Ok in Hcat as [? ->]
  end.
  match goal with
  | Hm : cosine_similarity _ _ = Ok _ |- _ =>
      apply cosine_similarity_eq in Hm; cbn [rows nrows] in Hm; subst
  end.
  injection Hk as <-. reflexivity.
Qed.

Lemma init_total x y a b nm :
  ncols x = ncols y -> ncols a = ncols b -> ncols x = ncols a ->
  check_array (mk_ndarray (ncols x) (rows x ++ rows y)) = Ok tt ->
  check_array (mk_ndarray (ncols a) (rows a ++ rows b)) = Ok tt ->
  exists t : Test F, init x y a b nm = Ok t.
Proof.
  intros Hxy Hab Hxa HXY HAB. unfold init. rewrite reset_calc_eq.
  unfold similarities, concatenate. cbn [X Y A B].
  rewrite <- Hxy, <- Hab, !Nat.eqb_refl. cbn [bind].
  destruct (cosine_similarity_total _ _ HXY HAB Hxa) as [m Hm].
  rewrite Hm. cbn [bind]. eauto.
Qed.

(** Swapping X and Y exchanges the two halves of the association vector. *)
Lemma init_swap x y a b nm (t : Test F) :
  init x y a b nm = Ok t ->
  exists (t' : Test F) (sX sY : list F),
    init y x a b nm = Ok t' /\
    length sX = nrows x /\ length sY = nrows y /\
    s_AB t = sX ++ sY /\ s_AB t' = sY ++ sX.
Proof.
  intros Hinit.
  pose proof (init_consistent _ _ _ _ _ _ Hinit) as Hc.
  destruct (init_fields _ _ _ _ _ _ Hinit) as (Ex & Ey & Ea & Eb).
  destruct (consistent_checks t Hc) as (Hxy & Hab & Hxa & HXY & HAB).
  rewrite Ex, Ey, Ea, Eb in *.
  destruct (init_total y x a b nm) as [t' Hinit']; try congruence.
  { apply check_array_Ok in HXY as (Hr & Hcol & Hf).
    apply check_array_Ok. unfold nrows in *. cbn [rows ncols] in *.
    rewrite length_app in *. rewrite forallb_app in *.
    rewrite andb_comm. repeat split; [lia | congruence | assumption]. }
  pose proof (init_eq _ _ _ _ _ _ Hinit) as Et.
  pose proof (init_eq _ _ _ _ _ _ Hinit') as Et'. cbv zeta in Et, Et'.
  exists t', (map (association (nrows a))
                (map (similarity_row (rows a ++ rows b)) (rows x))),
             (map (association (nrows a))
                (map (similarity_row (rows a ++ rows b)) (rows y))).
  split; [exact Hinit'|]. unfold nrows. rewrite !length_map.
  split; [reflexivity|]. split; [reflexivity|].
  rewrite Et, Et'. cbn [s_AB rows]. now rewrite !map_app.
Qed.

End Swap.

(** ** Counting over combinations *)

Lemma combinations_map {E E' : Type} (f : E -> E') (l : list E) (k : nat) :
  combinations (map f l) k = map (map f) (combinations l k).
Proof.
  revert k; induction l as [|x l IH]; intros [|k]; simpl; try reflexivity.
  rewrite map_app, !map_map, !IH, map_map. reflexivity.
Qed.

Lemma combinations_nil_gt {E : Type} (l : list E) (k : nat) :
  length l < k -> combinations l k = [].
Proof.
  intros Hk. apply length_zero_iff_nil.
  rewrite length_combinations. now apply binomial_gt.
Qed.

Lemma map_nth_arange {E : Type} (d : E) (v : list E) :
  map (fun i => nth i v d) (arange (length v)) = v.
Proof.
  pose proof (take_arange v) as H1.
  rewrite (take_in_range d) in H1 by (apply Forall_forall; intros i Hi;
                                      apply in_seq in Hi; lia).
  now injection H1.
Qed.

Lemma map_nth_seq {E : Type} (d : E) (v : list E) (a k : nat) :
  a + k <= length v ->
  map (fun i => nth i v d) (seq a k) = firstn k (skipn a v).
Proof.
  intros Hle. pose proof (take_seq v a k Hle) as H1.
  rewrite (take_in_range d) in H1 by (apply Forall_forall; intros i Hi;
                                      apply in_seq in Hi; lia).
  now injection H1.
Qed.

Lemma filter_map_length {E E' : Type} (f : E' -> bool) (g : E -> E')
    (l : list E) :
  length (filter (fun x => f (g x)) l) = length (filter f (map g l)).
Proof.
  induction l as [|x l IH]; simpl; [reflexivity|].
  destruct (f (g x)); simpl; now rewrite IH.
Qed.

Lemma filter_length_perm {E : Type} (f : E -> bool) (l l' : list E) :
  Permutation l l' -> length (filter f l) = length (filter f l').
Proof.
  induction 1 as [|x l l' _ IH|x y l|l l' l'' _ IH1 _ IH2]; simpl.
  - reflexivity.
  - destruct (f x); simpl; now rewrite IH.
  - destruct (f x), (f y); reflexivity.
  - now rewrite IH1.
Qed.

Lemma filter_length_split {E : Type} (f g h : E -> bool) (l : list E) :
  (forall x, Nat.b2n (f x) + Nat.b2n (g x) = 1 + Nat.b2n (h x)) ->
  length (filter f l) + length (filter g l)
  = length l + length (filter h l).
Proof.
  intros Hfg. induction l as [|x l IH]; simpl; [reflexivity|].
  specialize (Hfg x).
  destruct (f x), (g x), (h x); simpl in *; lia.
Qed.

Section SubsetSums.
Context {F : Type} `{Scalar F}.

Lemma sum_at_subset_sums (v : list F) (k : nat) :
  map (sum_at v) (combinations (arange (length v)) k) = subset_sums v k.
Proof.
  unfold subset_sums, sum_at.
  rewrite <- (map_nth_arange fzero v) at 2.
  now rewrite combinations_map, map_map.
Qed.

Lemma count_ge_subset_sums (v : list F) (s : F) (m k : nat) :
  length v = m ->
  count_ge v s (combinations (arange m) k)
  = length (filter (at_least s) (subset_sums v k)).
Proof.
  intros <-. unfold count_ge.
  now rewrite filter_map_length, sum_at_subset_sums.
Qed.

Lemma count_tie_subset_sums (v : list F) (s : F) (m k : nat) :
  length v = m ->
  count_tie v s (combinations (arange m) k)
  = length (filter (fun x => negb (fltb s x) && feqb x s) (subset_sums v k)).
Proof.
  intros <-. unfold count_tie.
  rewrite (filter_map_length (fun x => negb (fltb s x) && feqb x s)).
  now rewrite sum_at_subset_sums.
Qed.

Lemma sum_at_seq (v : list F) (a k : nat) :
  a + k <= length v -> sum_at v (seq a k) = np_sum (firstn k (skipn a v)).
Proof.
  intros Hle. unfold sum_at. now rewrite map_nth_seq.
Qed.

Lemma subset_sums_cons (x : F) (l : list F) (k : nat) :
  subset_sums (x :: l) (S k)
  = map (fun c => np_sum (x :: c)) (combinations l k) ++ subset_sums l (S k).
Proof.
  unfold subset_sums. cbn [combinations]. now rewrite map_app, map_map.
Qed.

End SubsetSums.

(** ** Exact arithmetic: sums do not depend on the order *)

Section Exact.
Local Open Scope R_scope.

Lemma Rsum_shift (l : list R) (a : R) :
  fold_left Rplus l a = a + fold_left Rplus l 0.
Proof.
  revert a; induction l as [|x l IH]; intros a; simpl; [lra|].
  rewrite (IH (a + x)), (IH (0 + x)). lra.
Qed.

Lemma Rsum_nil : @np_sum R _ [] = 0.
Proof. reflexivity. Qed.

Lemma Rsum_cons (x : R) (l : list R) : np_sum (x :: l) = x + np_sum l.
Proof.
  unfold np_sum. cbn [fold_left fadd fzero exact_real].
  rewrite Rsum_shift. lra.
Qed.

Lemma Rsum_app (l1 l2 : list R) : np_sum (l1 ++ l2) = np_sum l1 + np_sum l2.
Proof.
  induction l1 as [|x l1 IH]; cbn [app].
  - rewrite Rsum_nil. lra.
  - rewrite !Rsum_cons, IH. lra.
Qed.

Lemma subset_sums_cons_R (x : R) (l : list R) (k : nat) :
  subset_sums (x :: l) (S k)
  = map (Rplus x) (subset_sums l k) ++ subset_sums l (S k).
Proof.
  rewrite subset_sums_cons. f_equal. unfold subset_sums. rewrite map_map.
  apply map_ext. intros c. apply Rsum_cons.
Qed.

Lemma subset_sums_0 (l : list R) : subset_sums l 0 = [0].
Proof. now destruct l. Qed.

Lemma subset_sums_gt (l : list R) (k : nat) :
  (length l < k)%nat -> subset_sums l k = [].
Proof.
  intros Hk. unfold subset_sums. now rewrite combinations_nil_gt.
Qed.

Lemma subset_sums_all (l : list R) :
  subset_sums l (length l) = [np_sum l].
Proof.
  induction l as [|x l IH]; [reflexivity|].
  cbn [length]. rewrite subset_sums_cons_R, IH, subset_sums_gt by lia.
  cbn [map app]. now rewrite Rsum_cons.
Qed.

(** The sums of the [k]-subsets do not depend on the order of the scores. *)
Lemma subset_sums_perm (l l' : list R) :
  Permutation l l' ->
  forall k, Permutation (subset_sums l k) (subset_sums l' k).
Proof.
  induction 1 as [|x l l' Hp IH|x y l|l l' l'' _ IH1 _ IH2]; intros k.
  - reflexivity.
  - destruct k as [|k]; [now rewrite !subset_sums_0|].
    rewrite !subset_sums_cons_R.
    apply Permutation_app; [apply Permutation_map|]; apply IH.
  - destruct k as [|[|k]].
    + now rewrite !subset_sums_0.
    + rewrite !subset_sums_cons_R, !subset_sums_0. cbn [map app].
      apply perm_swap.
    + rewrite !subset_sums_cons_R, !map_app, !map_map.
      rewrite <- !app_assoc.
      rewrite (map_ext (fun v => y + (x + v)) (fun v => x + (y + v)))
        by (intros; lra).
      apply Permutation_app_head.
      rewrite !app_assoc. apply Permutation_app_tail.
      apply Permutation_app_comm.
  - etransitivity; [apply IH1 | apply IH2].
Qed.

(** The sums of the complementary subsets: total minus the sum. *)
Lemma subset_sums_complement (l : list R) :
  forall k, (k <= length l)%nat ->
  Permutation (subset_sums l (length l - k))
              (map (fun v => np_sum l - v) (subset_sums l k)).
Proof.
  induction l as [|x l IH]; intros k Hk.
  - cbn [length] in *. replace k with 0%nat by lia. cbn.
    replace (0 - 0) with 0 by lra. reflexivity.
  - cbn [length] in *. destruct k as [|k].
    + rewrite Nat.sub_0_r, subset_sums_0.
      change (S (length l)) with (length (x :: l)).
      rewrite subset_sums_all. cbn [map].
      replace (np_sum (x :: l) - 0) with (np_sum (x :: l)) by lra.
      reflexivity.
    + rewrite subset_sums_cons_R, map_app, map_map.
      change (S (length l) - S k)%nat with (length l - k)%nat.
      destruct (Nat.eq_dec k (length l)) as [->|Hne].
      * rewrite Nat.sub_diag, subset_sums_0, subset_sums_all.
        rewrite subset_sums_gt by lia.
        cbn [map app]. rewrite Rsum_cons.
        replace (x + np_sum l - (x + np_sum l)) with 0 by lra. reflexivity.
      * replace (length l - k)%nat with (S (length l - S k)) by lia.
        rewrite subset_sums_cons_R.
        replace (S (length l - S k)) with (length l - k)%nat by lia.
        etransitivity; [|apply Permutation_app_comm].
        apply Permutation_app.
        -- etransitivity; [apply Permutation_map, (IH (S k)); lia|].
           rewrite map_map. rewrite Rsum_cons.
           erewrite map_ext; [reflexivity|]. intros v. cbv beta. lra.
        -- etransitivity; [apply (IH k); lia|].
           rewrite Rsum_cons.
           erewrite map_ext; [reflexivity|]. intros v. cbv beta. lra.
Qed.

End Exact.

Section EffectSizeVector.
Context {F : Type} `{Scalar F}.

(** [effect_size] in terms of the association vector alone. *)
Lemma effect_size_vector (t : Test F) :
  consistent t ->
  let nX := nrows (X t) in
  effect_size t =
  Ok (fdiv (fsub (np_mean (firstn nX (s_AB t))) (np_mean (skipn nX (s_AB t))))
           (np_std (s_AB t) 1)).
Proof.
  intros Hc nX. rewrite (effect_size_eq t Hc). cbv zeta.
  destruct (consistent_shape t Hc) as (_ & _ & _ & Hs).
  rewrite Hs, firstn_map, skipn_map. fold nX.
  rewrite (firstn_all2 (skipn nX _)) by (rewrite length_skipn; lia).
  reflexivity.
Qed.

End EffectSizeVector.

(** ** The swap in exact arithmetic *)

Section ExactSwap.
Local Open Scope R_scope.
Variable shapiro : list R -> R * R.
Variable norm_sf : R -> R -> R -> R.

Lemma counts_symmetry (L : list R) (s T : R) :
  (length (filter (at_least s) L)
   + length (filter (fun x : R => at_least (T - s)%R (T - x)%R) L)
   = length L
     + length (filter (fun x => negb (fltb s x) && feqb x s) L))%nat.
Proof.
  apply filter_length_split. intros x.
  unfold at_least. cbn [fltb feqb exact_real].
  destruct (Rlt_dec s x), (Req_dec_T x s), (Rlt_dec (T - s) (T - x)),
    (Req_dec_T (T - x) (T - s)); cbn; try reflexivity; exfalso; lra.
Qed.

(** In exact arithmetic the counts of the two instances add up to the number
    of partitions plus the number of ties. *)
Lemma exact_counts_swap (sX sY : list R) (n : nat) :
  length sX = n -> length sY = n ->
  let parts := combinations (arange (2 * n)) n in
  (count_ge (sX ++ sY) (np_sum sX) parts
   + count_ge (sY ++ sX) (np_sum sY) parts
   = binomial (2 * n) n + count_tie (sX ++ sY) (np_sum sX) parts)%nat.
Proof.
  intros HX HY parts. unfold parts.
  assert (Hv : (length (sX ++ sY) = 2 * n)%nat) by (rewrite length_app; lia).
  assert (Hv' : (length (sY ++ sX) = 2 * n)%nat) by (rewrite length_app; lia).
  rewrite (count_ge_subset_sums _ _ _ _ Hv), (count_ge_subset_sums _ _ _ _ Hv'),
    (count_tie_subset_sums _ _ _ _ Hv).
  set (T := np_sum (sX ++ sY)).
  assert (Hperm : Permutation (subset_sums (sY ++ sX) n)
                    (map (fun x => T - x) (subset_sums (sX ++ sY) n))).
  { etransitivity;
      [apply subset_sums_perm, Permutation_app_comm|].
    replace n with (length (sX ++ sY) - n)%nat at 1
      by (rewrite length_app; lia).
    apply subset_sums_complement. rewrite length_app. lia. }
  rewrite (filter_length_perm _ _ _ Hperm), <- filter_map_length.
  replace (np_sum sY) with (T - np_sum sX)
    by (unfold T; rewrite Rsum_app; lra).
  rewrite counts_symmetry. f_equal.
  unfold subset_sums. rewrite length_map, length_combinations.
  now rewrite Hv.
Qed.

Lemma np_mean_swap (sX sY : list R) :
  np_mean (sY ++ sX) = np_mean (sX ++ sY).
Proof.
  unfold np_mean. rewrite !Rsum_app, !length_app, Nat.add_comm.
  cbn [fdiv exact_real]. f_equal. lra.
Qed.

Lemma np_std_swap (sX sY : list R) (ddof : nat) :
  np_std (sY ++ sX) ddof = np_std (sX ++ sY) ddof.
Proof.
  unfold np_std. rewrite np_mean_swap, !map_app, !Rsum_app, !length_app.
  rewrite (Nat.add_comm (length sY)). cbn [fdiv fsqrt exact_real].
  do 2 f_equal. lra.
Qed.


End ExactSwap.



(** Witnesses of the estimator theorems, on the scenario instance. *)

Lemma p_exact_enumeration_witness :
  exists t : Test float,
    init X_1 Y_1 A_1 B_1 None = Ok t /\
    p (fun _ => (nan, nan)) (fun _ _ _ => nan) t 6 false (counting_state 0)
    = Ok (@Quotient float
            (Qmake (Z.of_nat (count_ge (s_AB t) (sum_at (s_AB t) (arange 2))
                                (combinations (arange 4) 2)))
                   (Pos.of_nat (binomial 4 2))),
          counting_state 0).
Proof.
  destruct (init X_1 Y_1 A_1 B_1 None) as [t|e] eqn:Hinit;
    [|vm_compute in Hinit; discriminate].
  exists t. split; [reflexivity|].
  refine (proj2 (proj2 (proj2 (proj2
            (p_exact_enumeration (fun _ => (nan, nan)) (fun _ _ _ => nan)
               X_1 Y_1 A_1 B_1 None t 2 6 6 (counting_state 0) Hinit
               eq_refl eq_refl _ _))))).
  - vm_compute. reflexivity.
  - vm_compute. discriminate.
Defined.

Lemma p_sampling_branch_witness :
  exists t : Test float,
    init X_1 Y_1 A_1 B_1 None = Ok t /\
    p (fun _ => (nan, nan)) (fun _ _ _ => nan) t 3 false (counting_state 0)
    = Ok (@Quotient float (Qmake 1 3), counting_state 6).
Proof.
  destruct (init X_1 Y_1 A_1 B_1 None) as [t|e] eqn:Hinit;
    [|vm_compute in Hinit; discriminate].
  exists t. split; [reflexivity|].
  destruct (p_sampling_branch (fun _ => (nan, nan)) (fun _ _ _ => nan)
              X_1 Y_1 A_1 B_1 None t 2 3 6 (counting_state 0) Hinit
              eq_refl eq_refl) as (_ & Hp & _).
  - vm_compute. reflexivity.
  - vm_compute. reflexivity.
  - rewrite Hp. vm_compute in Hinit. injection Hinit as <-.
    vm_compute. reflexivity.
Defined.

Lemma p_parametric_witness :
  exists (t : Test float) (samples : list float),
    init X_1 Y_1 A_1 B_1 None = Ok t /\
    length samples = 5 /\
    forall normality_test norm_sf,
      p normality_test norm_sf t 5 true (counting_state 0)
      = Ok (@Survival float
              (norm_sf 4%float (np_mean samples) (np_std samples 1)),
            counting_state 15).
Proof.
  destruct (init X_1 Y_1 A_1 B_1 None) as [t|e] eqn:Hinit;
    [|vm_compute in Hinit; discriminate].
  exists t, (map (split_statistic (s_AB t) 2)
               (fst (draws 5 4 (counting_state 0)))).
  split; [reflexivity|]. split; [now rewrite length_map, draws_length|].
  intros normality_test norm_sf.
  destruct (p_parametric norm_sf X_1 Y_1 A_1 B_1 None t 2 5
              (counting_state 0) Hinit eq_refl eq_refl) as (Hp & _).
  rewrite Hp. vm_compute in Hinit. injection Hinit as <-.
  reflexivity.
Defined.

Lemma p_value_positive_witness :
  (exists (t : Test float) q st',
     init X_1 Y_1 A_1 B_1 None = Ok t /\
     p (fun _ => (nan, nan)) (fun _ _ _ => nan) t 10000 false (counting_state 0)
     = Ok (@Quotient float q, st') /\ (0 < q)%Q) /\
  (exists (t : Test float) q st',
     init X_1 Y_1 (array64 2 []) B_1 None = Ok t /\
     PrimFloat.eqb (sum_at (s_AB t) (arange 2)) (sum_at (s_AB t) (arange 2))
     = false /\
     p (fun _ => (nan, nan)) (fun _ _ _ => nan) t 3 false (counting_state 0)
     = Ok (@Quotient float q, st') /\ (0 < q)%Q /\ (Qmake 1 3 <= q)%Q).
Proof.
  split.
  - destruct (init X_1 Y_1 A_1 B_1 None) as [t|e] eqn:Hinit;
      [|vm_compute in Hinit; discriminate].
    pose proof (p_value_positive (fun _ => (nan, nan)) (fun _ _ _ => nan)
                  X_1 Y_1 A_1 B_1 None t 2 10000 (counting_state 0) Hinit
                  eq_refl eq_refl) as Hpos.
    change (num_partitions 2) with (@Ok Z 6%Z) in Hpos. cbv zeta in Hpos.
    destruct Hpos as (q & st' & Hp & Hq & _); [lia|].
    exists t, q, st'. split; [reflexivity|]. split; [exact Hp|].
    apply Hq. right. vm_compute in Hinit. injection Hinit as <-.
    vm_compute. reflexivity.
  - destruct (init X_1 Y_1 (array64 2 []) B_1 None) as [t|e] eqn:Hinit;
      [|vm_compute in Hinit; discriminate].
    pose proof (p_value_positive (fun _ => (nan, nan)) (fun _ _ _ => nan)
                  X_1 Y_1 (array64 2 []) B_1 None t 2 3 (counting_state 0)
                  Hinit eq_refl eq_refl) as Hpos.
    change (num_partitions 2) with (@Ok Z 6%Z) in Hpos. cbv zeta in Hpos.
    destruct Hpos as (q & st' & Hp & Hq & Hq'); [lia|].
    exists t, q, st'. split; [reflexivity|]. split.
    { vm_compute in Hinit. injection Hinit as <-. vm_compute. reflexivity. }
    split; [exact Hp|]. split.
    + apply Hq. left. lia.
    + apply Hq'. lia.
Defined.


Lemma precondition_violations_witness :
  (forall st,
     exists t,
       init X_1 (array64 2 [[0; 1]]%float) A_1 B_1 None = Ok t /\
       p (fun _ => (nan, nan)) (fun _ _ _ => nan) t 10000 false st
       = Raise AssertionError) /\
  init X_1 (array64 3 [[0; 1; 0]]%float) A_1 B_1 None = Raise ValueError /\
  init X_1 Y_1 (array64 2 []) (array64 2 []) None = Raise ValueError.
Proof.
  split; [|split].
  - intros st.
    destruct (init X_1 (array64 2 [[0; 1]]%float) A_1 B_1 None)
      as [t|e] eqn:Hinit; [|vm_compute in Hinit; discriminate].
    exists t. split; [reflexivity|].
    apply (proj1 (precondition_violations float float64
                    (fun _ => (nan, nan)) (fun _ _ _ => nan)
                    X_1 (array64 2 [[0; 1]]%float) A_1 B_1 None));
      [discriminate | exact Hinit].
  - apply (proj1 (proj2 (precondition_violations float float64
                           (fun _ => (nan, nan)) (fun _ _ _ => nan)
                           X_1 (array64 3 [[0; 1; 0]]%float) A_1 B_1 None))).
    intros (Hxy & _). discriminate Hxy.
  - apply (proj2 (proj2 (precondition_violations float float64
                           (fun _ => (nan, nan)) (fun _ _ _ => nan)
                           X_1 Y_1 (array64 2 []) (array64 2 []) None))).
    right. split; reflexivity.
Defined.

(* ================================================================== *)
(** * Further properties of the test *)

(** ** The range of the p-value, ties *)

Section MoreEstimators.
Context {F : Type} `{Scalar F}.
Variable shapiro : list F -> F * F.
Variable norm_sf : F -> F -> F -> F.

Lemma count_ge_le (v : list F) (s : F) parts :
  count_ge v s parts <= length parts.
Proof. unfold count_ge. apply filter_length_le. Qed.

(** X1.  On an instance the constructor built, with [|X| = |Y| = n] and a
    number of partitions that converts to an integer, the non-parametric [p]
    returns the quotient of two counts, the numerator between 0 and the
    denominator: the p-value lies in [[0, 1]], in the exact and in the
    sampling branch, whatever [n_samples] is. *)
Theorem p_value_at_most_one :
  forall x y a b nm (t : Test F) (n : nat) (np n_samples : Z) (st : RandomState),
  init x y a b nm = Ok t -> nrows x = n -> nrows y = n ->
  num_partitions n = Ok np ->
  exists (q : Q) (st' : RandomState),
    p shapiro norm_sf t n_samples false st = Ok (@Quotient F q, st') /\
    (0 <= Qnum q <= Zpos (Qden q))%Z /\ (0 <= q)%Q /\ (q <= 1)%Q.
Proof.
  intros x y a b nm t n np n_samples st Hinit Hx Hy Hnp.
  destruct (init_fields _ _ _ _ _ _ Hinit) as (Ex & Ey & _).
  pose proof (init_consistent _ _ _ _ _ _ Hinit) as Hc.
  rewrite (p_nonparametric_eq shapiro norm_sf t n n_samples st Hc)
    by congruence.
  rewrite Hnp. cbn [bind].
  assert (Hq : forall (c m : nat), c <= m -> 0 < m ->
            let q := Qmake (Z.of_nat c) (Pos.of_nat m) in
            (0 <= Qnum q <= Zpos (Qden q))%Z /\ (0 <= q)%Q /\ (q <= 1)%Q).
  { intros c m Hcm Hm q. unfold q, Qle. cbn [Qnum Qden].
    rewrite Zpos_of_nat by exact Hm. lia. }
  destruct (n_samples <? np)%Z.
  - set (k := Z.to_nat (n_samples - 1)).
    set (parts := map (firstn n) (fst (draws k (2 * n) st))).
    do 2 eexists. split; [reflexivity|].
    pose proof (count_ge_le (s_AB t) (sum_at (s_AB t) (arange n)) parts) as Hle.
    assert (Hlen : length parts = k)
      by (unfold parts; now rewrite length_map, draws_length).
    replace (1 + Z.of_nat (count_ge (s_AB t) (sum_at (s_AB t) (arange n)) parts))%Z
      with (Z.of_nat (S (count_ge (s_AB t) (sum_at (s_AB t) (arange n)) parts)))
      by lia.
    apply Hq; lia.
  - do 2 eexists. split; [reflexivity|].
    apply Hq.
    + pose proof (length_combinations (arange (2 * n)) n) as Hl.
      unfold arange at 2 in Hl. rewrite length_seq in Hl. rewrite <- Hl.
      apply count_ge_le.
    + apply binomial_pos. lia.
Qed.

Lemma sum_at_constant (v : list F) (c : F) (Xi : list nat) :
  Forall (fun e => e = c) v -> Forall (fun i => i < length v) Xi ->
  sum_at v Xi = np_sum (repeat c (length Xi)).
Proof.
  intros Hv HXi. unfold sum_at. f_equal.
  induction HXi as [|i Xi Hi _ IH]; cbn [map length repeat]; [reflexivity|].
  f_equal; [|exact IH].
  rewrite Forall_forall in Hv. apply Hv, nth_In, Hi.
Qed.

Lemma count_ge_all (t : Test F) (c s : F) (n : nat) parts :
  Forall (fun e => e = c) (s_AB t) ->
  s = np_sum (repeat c n) -> feqb s s = true ->
  Forall (admissible t (2 * n)) parts ->
  count_ge (s_AB t) s parts = length parts.
Proof.
  intros Hv Hs Heq Hall. unfold count_ge.
  induction Hall as [|Xi parts [Hlen Hrng] _ IH]; cbn [filter length];
    [reflexivity|].
  rewrite (sum_at_constant _ c _ Hv Hrng).
  replace (length Xi) with n by lia. rewrite <- Hs.
  unfold at_least. rewrite Heq, orb_true_r. cbn [length]. f_equal.
  exact IH.
Qed.

Lemma draws_admissible (t : Test F) (n k : nat) (st : RandomState) :
  length (s_AB t) = 2 * n ->
  Forall (admissible t (2 * n))
    (map (firstn n) (fst (draws k (2 * n) st))).
Proof.
  intros Hlen. revert st; induction k as [|k IH]; intros st.
  - constructor.
  - rewrite draws_S. cbn [fst map]. constructor; [|apply IH].
    now apply firstn_shuffle_admissible.
Qed.

(** X3.  When every target has the same association score [c], and the sum
    of [n] of them compares equal to itself (it is not NaN), every partition
    ties with the observed one: the non-parametric p-value is [m / m], that
    is 1, in the exact and in the sampling branch. *)
Theorem p_value_constant_association :
  forall x y a b nm (t : Test F) (n : nat) (np n_samples : Z)
         (st : RandomState) (c : F),
  init x y a b nm = Ok t -> nrows x = n -> nrows y = n ->
  num_partitions n = Ok np ->
  Forall (fun e => e = c) (s_AB t) ->
  feqb (np_sum (repeat c n)) (np_sum (repeat c n)) = true ->
  exists (q : Q) (st' : RandomState),
    p shapiro norm_sf t n_samples false st = Ok (@Quotient F q, st') /\
    Qnum q = Zpos (Qden q) /\ (q == 1)%Q.
Proof.
  intros x y a b nm t n np n_samples st c Hinit Hx Hy Hnp Hv Heq.
  destruct (init_fields _ _ _ _ _ _ Hinit) as (Ex & Ey & _).
  pose proof (init_consistent _ _ _ _ _ _ Hinit) as Hc.
  assert (Hxt : nrows (X t) = n) by congruence.
  assert (Hyt : nrows (Y t) = n) by congruence.
  destruct (p_prologue t n Hc Hxt Hyt) as (_ & _ & Hlen).
  rewrite (p_nonparametric_eq shapiro norm_sf t n n_samples st Hc Hxt Hyt).
  rewrite Hnp. cbn [bind].
  assert (Hs : sum_at (s_AB t) (arange n) = np_sum (repeat c n)).
  { rewrite (sum_at_constant _ c _ Hv).
    - unfold arange. now rewrite length_seq.
    - rewrite Hlen. apply arange_range. lia. }
  assert (Hq : forall m : nat, 0 < m ->
            let q := Qmake (Z.of_nat m) (Pos.of_nat m) in
            Qnum q = Zpos (Qden q) /\ (q == 1)%Q).
  { intros m Hm q. unfold q, Qeq. cbn [Qnum Qden].
    rewrite Zpos_of_nat by exact Hm. lia. }
  destruct (n_samples <? np)%Z.
  - do 2 eexists. split; [reflexivity|].
    rewrite (count_ge_all t c _ n _ Hv Hs) by
      (try apply draws_admissible; try (rewrite Hs; exact Heq); exact Hlen).
    rewrite length_map, draws_length.
    replace (1 + Z.of_nat (Z.to_nat (n_samples - 1)))%Z
      with (Z.of_nat (S (Z.to_nat (n_samples - 1)))) by lia.
    apply Hq. lia.
  - do 2 eexists. split; [reflexivity|].
    rewrite (count_ge_all t c _ n _ Hv Hs) by
      (try apply combinations_admissible; try (rewrite Hs; exact Heq);
       exact Hlen).
    rewrite length_combinations. unfold arange. rewrite length_seq.
    apply Hq, binomial_pos. lia.
Qed.

End MoreEstimators.

Lemma p_value_at_most_one_witness :
  exists (t : Test float) (q : Q) (st' : RandomState),
    init X_1 Y_1 A_1 B_1 None = Ok t /\
    p (fun _ => (nan, nan)) (fun _ _ _ => nan) t 10000 false
      (counting_state 0) = Ok (@Quotient float q, st') /\
    (0 <= Qnum q <= Zpos (Qden q))%Z /\ (0 <= q)%Q /\ (q <= 1)%Q.
Proof.
  destruct (init X_1 Y_1 A_1 B_1 None) as [t|e] eqn:Hinit;
    [|vm_compute in Hinit; discriminate].
  destruct (p_value_at_most_one (fun _ => (nan, nan)) (fun _ _ _ => nan)
              X_1 Y_1 A_1 B_1 None t 2 6 10000 (counting_state 0) Hinit
              eq_refl eq_refl eq_refl) as (q & st' & Hp & Hq).
  exists t, q, st'. split; [reflexivity|]. split; assumption.
Defined.


Lemma p_value_constant_association_witness :
  exists (t : Test float) q st',
    init X_0 Y_0 A_0 B_0 None = Ok t /\
    p (fun _ => (nan, nan)) (fun _ _ _ => nan) t 10000 false
      (counting_state 0) = Ok (@Quotient float q, st') /\
    Qnum q = Zpos (Qden q) /\ (q == 1)%Q.
Proof.
  destruct (init X_0 Y_0 A_0 B_0 None) as [t|e] eqn:Hinit;
    [|vm_compute in Hinit; discriminate].
  destruct (p_value_constant_association (fun _ => (nan, nan))
              (fun _ _ _ => nan) X_0 Y_0 A_0 B_0 None t 1 2 10000
              (counting_state 0) 1%float Hinit eq_refl eq_refl eq_refl)
    as (q & st' & Hp & Hq).
  - vm_compute in Hinit. injection Hinit as <-. cbn [s_AB].
    repeat constructor.
  - vm_compute. reflexivity.
  - exists t, q, st'. split; [reflexivity|]. split; assumption.
Defined.

(** ** A randomized run on target sets of different sizes *)

Section MoreDriver.
Context {F : Type} `{Scalar F}.
Variable shapiro : list F -> F * F.
Variable norm_sf : F -> F -> F -> F.

(** The randomized repartition when Y is the larger target set: the new X
    and Y both get [|X|] rows, and the surplus of Y goes to B. *)
Lemma repartition_unbalanced (t : Test F) (n m : nat) (d : list (list F)) :
  consistent t -> nrows (X t) = n -> nrows (Y t) = m -> 1 <= n -> n <= m ->
  Permutation d (((rows (X t) ++ rows (Y t)) ++ rows (A t)) ++ rows (B t)) ->
  let D := mk_ndarray (ncols (X t)) d in
  let nA := nrows (A t) in
  let t1 := set_XYAB t (slice_rows D 0 n) (slice_rows D n (2 * n))
              (slice_rows D (2 * n) (2 * n + nA))
              (slice_rows D (2 * n + nA) (nrows D)) in
  exists t', reset_calc t1 = Ok t' /\ nrows (X t') = n /\ nrows (Y t') = n /\
             nrows (A t') = nA /\ nrows (B t') = nrows (B t) + (m - n).
Proof.
  intros Hc Hx Hy Hn Hnm Hperm D nA t1. subst D.
  destruct (consistent_checks t Hc) as (Hxy & Hab & Hxa & HXY & HAB).
  apply check_array_Ok in HXY as (HrXY & HcXY & HfXY).
  apply check_array_Ok in HAB as (HrAB & HcAB & HfAB).
  unfold nrows in *. cbn [rows ncols] in *.
  rewrite length_app in HrXY, HrAB. rewrite forallb_app in HfXY, HfAB.
  apply andb_prop in HfXY as [HfX HfY]. apply andb_prop in HfAB as [HfA HfB].
  assert (Hlen : length d = n + m + nA + length (rows (B t))).
  { rewrite (Permutation_length Hperm), !length_app. unfold nA, nrows. lia. }
  assert (Hfin : forall r, In r d -> forallb isfinite r = true).
  { intros r Hr. apply (Permutation_in _ Hperm) in Hr.
    rewrite !in_app_iff in Hr.
    rewrite forallb_forall in HfX, HfY, HfA, HfB. intuition auto. }
  assert (Hsim : exists s, similarities t1 = Ok s).
  { unfold similarities, t1, set_XYAB, concatenate, slice_rows.
    cbn [X Y A B ncols rows]. rewrite !Nat.eqb_refl. cbn [bind].
    apply cosine_similarity_total; [| |reflexivity].
    - apply check_array_Ok. unfold nrows. cbn [rows ncols].
      repeat split; [|assumption|].
      + rewrite length_app, !length_firstn, !length_skipn. lia.
      + apply forallb_forall. intros r Hr. apply Hfin.
        apply in_app_or in Hr as [Hr|Hr];
          apply In_firstn, In_skipn in Hr; exact Hr.
    - apply check_array_Ok. unfold nrows. cbn [rows ncols].
      repeat split; [|assumption|].
      + rewrite length_app, !length_firstn, !length_skipn. unfold nA, nrows.
        lia.
      + apply forallb_forall. intros r Hr. apply Hfin.
        apply in_app_or in Hr as [Hr|Hr];
          apply In_firstn, In_skipn in Hr; exact Hr. }
  destruct Hsim as [s Hs]. rewrite reset_calc_eq, Hs. cbn [bind].
  eexists. split; [reflexivity|]. unfold t1, set_XYAB, slice_rows, nrows.
  cbn [X Y A B rows]. rewrite !length_firstn, !length_skipn, Hlen.
  unfold nA, nrows. clear -Hn Hnm.
  repeat split.
  - rewrite Nat.min_l by lia. lia.
  - rewrite Nat.min_l by lia. lia.
  - rewrite Nat.min_l by lia. lia.
  - rewrite Nat.min_id. lia.
Qed.


End MoreDriver.


(** ** Exact arithmetic: the range of similarities, scores and effect size *)

Section RealBounds.
Local Open Scope R_scope.

(** Sums of squares of a row are non-negative. *)
Lemma Rsum_sq_nonneg (r : list R) :
  0 <= np_sum (map (fun e => fmul e e) r).
Proof.
  induction r as [|x r IH]; cbn [map].
  - rewrite Rsum_nil. lra.
  - rewrite Rsum_cons. cbn [fmul exact_real] in *. nra.
Qed.

Lemma Rsum_sq_zero (r : list R) :
  np_sum (map (fun e => fmul e e) r) = 0 -> Forall (fun e => e = 0) r.
Proof.
  induction r as [|x r IH]; cbn [map]; [constructor|].
  rewrite Rsum_cons. intros Hs.
  pose proof (Rsum_sq_nonneg r) as Hr. cbn [fmul exact_real] in *.
  constructor; [nra|]. apply IH. nra.
Qed.

Lemma Rsum_map_div (r : list R) (d : R) :
  np_sum (map (fun e => e / d) r) = np_sum r / d.
Proof.
  induction r as [|x r IH]; cbn [map].
  - rewrite Rsum_nil. unfold Rdiv. lra.
  - rewrite !Rsum_cons, IH. unfold Rdiv. lra.
Qed.

Lemma dot_shift (l : list (R * R)) (a : R) :
  fold_left (fun acc p => fadd acc (fmul (fst p) (snd p))) l a
  = a + fold_left (fun acc p => fadd acc (fmul (fst p) (snd p))) l 0.
Proof.
  revert a; induction l as [|x l IH]; intros a; cbn [fold_left]; [lra|].
  rewrite (IH (fadd a _)), (IH (fadd 0 _)). cbn [fadd fmul exact_real]. lra.
Qed.

Lemma dot_cons (a b : R) (u v : list R) :
  dot (a :: u) (b :: v) = a * b + dot u v.
Proof.
  unfold dot. cbn [combine fold_left fst snd]. rewrite dot_shift.
  cbn [fadd fmul fzero exact_real]. lra.
Qed.

(** [2 |u.v| <= |u|^2 + |v|^2], whatever the two lengths. *)
Lemma dot_bound (u v : list R) :
  let S := np_sum (map (fun e => fmul e e) u)
           + np_sum (map (fun e => fmul e e) v) in
  - S <= 2 * dot u v <= S.
Proof.
  revert v; induction u as [|a u IH]; intros v.
  - unfold dot. cbn [combine fold_left map fzero exact_real].
    rewrite Rsum_nil. pose proof (Rsum_sq_nonneg v). cbv zeta. lra.
  - destruct v as [|b v].
    + unfold dot. cbn [combine fold_left fzero exact_real].
      pose proof (Rsum_sq_nonneg (a :: u)). cbn [map] in *.
      rewrite Rsum_nil. cbv zeta. lra.
    + rewrite dot_cons. cbn [map]. rewrite !Rsum_cons.
      specialize (IH v). cbv zeta in IH. cbn [fmul exact_real] in *.
      cbv zeta. pose proof (Rle_0_sqr (a - b)) as H1.
      pose proof (Rle_0_sqr (a + b)) as H2. unfold Rsqr in H1, H2.
      split; lra.
Qed.

(** [10 * eps] over the reals. *)
Lemma small_norm_bounds : 0 < @small_norm R _ < 1.
Proof.
  unfold small_norm. cbn [fmul of_nat finfo_eps exact_real].
  replace (INR 10) with 10 by (cbn [INR]; lra).
  assert (Hp : 2 ^ 52 = 4503599627370496)
    by (rewrite (pow_IZR 2 52); reflexivity).
  rewrite Hp. lra.
Qed.

(** A normalized row has squared norm at most 1: it is 1 when the row was
    divided by its norm, and below [(10 * eps)^2] when it was left as it
    is. *)
Lemma normalize_row_norm (r : list R) :
  np_sum (map (fun e => fmul e e) (normalize_row r)) <= 1.
Proof.
  unfold normalize_row, row_norm. cbn [fltb fone fdiv fsqrt exact_real].
  set (S := np_sum (map (fun e => fmul e e) r)).
  pose proof (Rsum_sq_nonneg r) as HS. fold S in HS.
  pose proof small_norm_bounds as [Hlo Hhi].
  rewrite map_map. cbn [fmul exact_real].
  destruct (Rlt_dec (sqrt S) small_norm) as [Hlt|Hge].
  - replace (map (fun x => x / 1 * (x / 1)) r)
      with (map (fun e => fmul e e) r)
      by (apply map_ext; intros x; cbn [fmul exact_real]; field).
    fold S. rewrite <- (sqrt_sqrt S HS). pose proof (sqrt_pos S). nra.
  - assert (Hnz : sqrt S <> 0) by lra.
    assert (Hpos : 0 < S).
    { destruct HS as [HS|HS]; [exact HS|]. rewrite <- HS, sqrt_0 in Hnz. lra. }
    replace (map (fun x => x / sqrt S * (x / sqrt S)) r)
      with (map (fun e => e / S) (map (fun e => fmul e e) r)).
    + rewrite Rsum_map_div. fold S. apply Req_le. field. lra.
    + rewrite map_map. apply map_ext. intros x. cbn [fmul exact_real].
      rewrite <- (sqrt_sqrt S) at 1 by exact HS. field. exact Hnz.
Qed.

Lemma similarity_row_bounded (ab : list (list R)) (u : list R) :
  Forall in_unit (similarity_row ab u).
Proof.
  unfold similarity_row. apply Forall_forall. intros c Hc.
  apply in_map_iff in Hc as (v' & <- & Hv).
  apply in_map_iff in Hv as (v & <- & _).
  pose proof (dot_bound (normalize_row u) (normalize_row v)) as Hd.
  pose proof (normalize_row_norm u). pose proof (normalize_row_norm v).
  cbv zeta in Hd. unfold in_unit. lra.
Qed.

Lemma Rsum_bounded (l : list R) :
  Forall in_unit l -> - INR (length l) <= np_sum l <= INR (length l).
Proof.
  induction 1 as [|x l Hx _ IH].
  - rewrite Rsum_nil. cbn [length INR]. lra.
  - rewrite Rsum_cons. cbn [length]. rewrite S_INR. unfold in_unit in Hx. lra.
Qed.

Lemma np_mean_bounded (l : list R) :
  l <> [] -> Forall in_unit l -> in_unit (np_mean l).
Proof.
  intros Hne Hl. unfold np_mean. cbn [fdiv of_nat exact_real].
  pose proof (Rsum_bounded l Hl) as Hs.
  assert (Hpos : 0 < INR (length l)).
  { apply lt_0_INR. destruct l; [congruence|cbn [length]; lia]. }
  assert (Hinv : 0 < / INR (length l)) by now apply Rinv_0_lt_compat.
  assert (Hone : INR (length l) * / INR (length l) = 1) by (field; lra).
  unfold in_unit, Rdiv. split; nra.
Qed.

End RealBounds.

Section RealTheorems.
Local Open Scope R_scope.


Lemma association_bounded_row (nA : nat) (r : list R) :
  (1 <= nA)%nat -> (nA < length r)%nat -> Forall in_unit r ->
  -2 <= association nA r <= 2.
Proof.
  intros HA Hlen Hr. unfold association. cbn [fsub exact_real].
  assert (H1 : in_unit (np_mean (firstn nA r))).
  { apply np_mean_bounded.
    - intros E. apply (f_equal (@length R)) in E.
      rewrite length_firstn in E. cbn [length] in E. lia.
    - apply Forall_forall. intros c Hc. rewrite Forall_forall in Hr.
      eapply Hr, In_firstn; eauto. }
  assert (H2 : in_unit (np_mean (skipn nA r))).
  { apply np_mean_bounded.
    - intros E. apply (f_equal (@length R)) in E.
      rewrite length_skipn in E. cbn [length] in E. lia.
    - apply Forall_forall. intros c Hc. rewrite Forall_forall in Hr.
      eapply Hr, In_skipn; eauto. }
  unfold in_unit in *. lra.
Qed.


End RealTheorems.



Section RealEffectSize.
Local Open Scope R_scope.

Lemma Rsum_map_sub (l : list R) (c : R) :
  np_sum (map (fun e => fsub e c) l) = np_sum l - INR (length l) * c.
Proof.
  induction l as [|x l IH]; cbn [map length].
  - rewrite Rsum_nil. cbn [INR]. lra.
  - rewrite !Rsum_cons, IH, S_INR. cbn [fsub exact_real]. lra.
Qed.

(** [(sum w)^2 <= |w| * sum w^2] *)
Lemma Rsum_sq_mean (w : list R) :
  np_sum w * np_sum w
  <= INR (length w) * np_sum (map (fun e => fmul e e) w).
Proof.
  induction w as [|x w IH]; cbn [map length].
  - rewrite !Rsum_nil. cbn [INR]. lra.
  - rewrite !Rsum_cons, S_INR.
    pose proof (Rsum_sq_nonneg w) as HQ.
    cbn [fmul exact_real] in *.
    set (S := np_sum w) in *. set (Q := np_sum (map _ w)) in *.
    set (k := INR (length w)) in *.
    assert (Hk : 0 <= k) by apply pos_INR.
    (* k x^2 - 2 x S + Q >= 0 *)
    assert (Hmid : 0 <= k * (x * x) - 2 * x * S + Q).
    { destruct (Req_dec k 0) as [Hz|Hnz].
      - assert (HS : S = 0) by nra. rewrite Hz, HS. lra.
      - assert (Hpos : 0 < k) by lra.
        assert (Hsq : 0 <= k * (k * (x * x) - 2 * x * S + Q)).
        { replace (k * (k * (x * x) - 2 * x * S + Q))
            with ((k * x - S) * (k * x - S) + (k * Q - S * S)) by ring.
          pose proof (Rle_0_sqr (k * x - S)) as Hs. unfold Rsqr in Hs. lra. }
        nra. }
    lra.
Qed.

(** The sum of squared deviations from any centre [c] dominates the squared
    deviation of the total. *)
Lemma Rsum_sq_dev (l : list R) (c : R) :
  (np_sum l - INR (length l) * c) * (np_sum l - INR (length l) * c)
  <= INR (length l)
     * np_sum (map (fun e => fmul e e) (map (fun e => fsub e c) l)).
Proof.
  pose proof (Rsum_sq_mean (map (fun e => fsub e c) l)) as Hm.
  now rewrite length_map, Rsum_map_sub in Hm.
Qed.

Lemma effect_size_arith (N Sa Sb Qa Qb : R) :
  1 <= N ->
  (Sa - N * ((Sa + Sb) / (2 * N))) * (Sa - N * ((Sa + Sb) / (2 * N)))
    <= N * Qa ->
  (Sb - N * ((Sa + Sb) / (2 * N))) * (Sb - N * ((Sa + Sb) / (2 * N)))
    <= N * Qb ->
  (Sa / N - Sb / N) * (Sa / N - Sb / N)
  <= (4 - 2 / N) * ((Qa + Qb) / (2 * N - 1)).
Proof.
  intros HN Ha Hb.
  replace (Sa - N * ((Sa + Sb) / (2 * N))) with ((Sa - Sb) / 2) in Ha
    by (field; lra).
  replace (Sb - N * ((Sa + Sb) / (2 * N))) with (- ((Sa - Sb) / 2)) in Hb
    by (field; lra).
  replace ((4 - 2 / N) * ((Qa + Qb) / (2 * N - 1)))
    with ((2 * N * (Qa + Qb)) * / (N * N)) by (field; lra).
  replace ((Sa / N - Sb / N) * (Sa / N - Sb / N))
    with (((Sa - Sb) * (Sa - Sb)) * / (N * N)) by (field; lra).
  apply Rmult_le_compat_r.
  - apply Rlt_le, Rinv_0_lt_compat. nra.
  - nra.
Qed.


End RealEffectSize.


(** ** Exact arithmetic: the test ignores the length of the embeddings *)

Section ScaleInvariance.
Local Open Scope R_scope.
Variable shapiro : list R -> R * R.
Variable norm_sf : R -> R -> R -> R.

Lemma Rsum_map_mul (r : list R) (c : R) :
  np_sum (map (Rmult c) r) = c * np_sum r.
Proof.
  induction r as [|x r IH]; cbn [map].
  - rewrite Rsum_nil. lra.
  - rewrite !Rsum_cons, IH. lra.
Qed.

Lemma normalize_row_scale (c : R) (r : list R) :
  0 < c -> sizeable r -> sizeable (map (Rmult c) r) ->
  normalize_row (map (Rmult c) r) = normalize_row r.
Proof.
  intros Hc Hr Hr'. unfold sizeable, normalize_row, row_norm in *.
  cbn [fltb fone fdiv fsqrt exact_real] in *.
  set (S := np_sum (map (fun e => fmul e e) r)) in *.
  pose proof (Rsum_sq_nonneg r) as HS. fold S in HS.
  pose proof small_norm_bounds as [Hlo _].
  assert (HS' : np_sum (map (fun e => fmul e e) (map (Rmult c) r))
                = (c * c) * S).
  { unfold S. rewrite <- Rsum_map_mul, !map_map. f_equal.
    apply map_ext. intros x. cbn [fmul exact_real]. ring. }
  rewrite HS' in *.
  assert (Hsq : sqrt (c * c * S) = c * sqrt S).
  { rewrite sqrt_mult by nra. now rewrite sqrt_square by lra. }
  rewrite Hsq in *. rewrite map_map.
  destruct Hr as [Hz|Hbig].
  - rewrite Hz, Rmult_0_r.
    destruct (Rlt_dec 0 small_norm) as [_|Hn]; [|lra].
    apply sqrt_eq_0 in Hz; [|exact HS]. apply Rsum_sq_zero in Hz.
    apply map_ext_in. intros x Hx. rewrite Forall_forall in Hz.
    rewrite (Hz x Hx). lra.
  - destruct Hr' as [Hz'|Hbig']; [nra|].
    destruct (Rlt_dec (c * sqrt S) small_norm) as [Hn|_]; [lra|].
    destruct (Rlt_dec (sqrt S) small_norm) as [Hn|_]; [lra|].
    apply map_ext. intros x. field. split; lra.
Qed.

Lemma rescaled_normalize (x x' : ndarray R) :
  rescaled x x' ->
  map normalize_row (rows x') = map normalize_row (rows x) /\
  nrows x' = nrows x /\ ncols x' = ncols x.
Proof.
  intros [Hcols Hrows]. unfold nrows. split; [|split; [|exact Hcols]].
  - induction Hrows as [|r r' l l' (c & Hc & -> & Hs & Hs') _ IH];
      cbn [map]; [reflexivity|].
    now rewrite normalize_row_scale, IH.
  - symmetry. eapply Forall2_length; eauto.
Qed.

(** A row of norm at least 1 is divided by its norm. *)
Lemma sizeable_big (r : list R) :
  1 <= np_sum (map (fun e => fmul e e) r) -> sizeable r.
Proof.
  intros H1. right. unfold row_norm. cbn [fsqrt exact_real].
  pose proof small_norm_bounds as [_ Hhi].
  apply Rle_trans with 1; [lra|].
  rewrite <- sqrt_1. now apply sqrt_le_1_alt.
Qed.

Lemma similarity_row_normalized (ab ab' : list (list R)) (u u' : list R) :
  map normalize_row ab' = map normalize_row ab ->
  normalize_row u' = normalize_row u ->
  similarity_row ab' u' = similarity_row ab u.
Proof. unfold similarity_row. now intros -> ->. Qed.

Lemma check_array_real (a : ndarray R) :
  nrows a <> 0%nat -> ncols a <> 0%nat -> check_array a = Ok tt.
Proof.
  intros Hr Hc. apply check_array_Ok. repeat split; try assumption.
  apply forallb_forall. intros r _. apply forallb_forall. reflexivity.
Qed.


End ScaleInvariance.


(* ================================================================== *)
(** * The prompts of [compute_relative_bias.py] *)

(** ** Python strings *)

Lemma replace_char (s new : str) (c : N) :
  replace s [c] new (-1) = flat_map (fun x => if (c =? x)%N then new else [x]) s.
Proof.
  unfold replace.
  assert (Hgen : forall count : Z, (count < 0)%Z ->
            replace_from [c] new s 0 count
            = flat_map (fun x => if (c =? x)%N then new else [x]) s).
  { induction s as [|x s IH]; intros count Hcount; cbn [replace_from flat_map];
      [reflexivity|].
    destruct (Z.eqb_spec count 0) as [E|_]; [lia|].
    cbn [negb andb startswith length Nat.sub].
    rewrite andb_true_r.
    destruct (c =? x)%N; cbn [app]; now rewrite IH by lia. }
  apply Hgen. lia.
Qed.

Lemma replace_char_In (s new : str) (c x : N) :
  In x (replace s [c] new (-1)) <->
  (In x s /\ x <> c) \/ (In c s /\ In x new).
Proof.
  rewrite replace_char, in_flat_map. split.
  - intros (y & Hy & Hx). destruct (N.eqb_spec c y) as [->|Hne].
    + right. auto.
    + destruct Hx as [<-|[]]. left. split; [exact Hy | congruence].
  - intros [[Hx Hne]|[Hc Hx]].
    + exists x. split; [exact Hx|].
      destruct (N.eqb_spec c x) as [E|_]; [congruence | now left].
    + exists c. split; [exact Hc|]. now rewrite N.eqb_refl.
Qed.

(** Replacing never brings in a character that is neither in the string nor
    in the replacement. *)
Lemma replace_from_In (old new s : str) (skip : nat) (count : Z) (x : N) :
  In x (replace_from old new s skip count) -> In x s \/ In x new.
Proof.
  revert skip count; induction s as [|c s IH]; intros skip count;
    cbn [replace_from]; [intros []|].
  destruct skip as [|k].
  - destruct (negb (count =? 0)%Z && startswith (c :: s) old).
    + rewrite in_app_iff. intros [Hx|Hx]; [now right|].
      destruct (IH _ _ Hx); [left; now right | now right].
    + intros [<-|Hx]; [left; now left|].
      destruct (IH _ _ Hx); [left; now right | now right].
  - intros Hx. destruct (IH _ _ Hx); [left; now right | now right].
Qed.

Lemma startswith_head (s old : str) (c : N) :
  startswith s (c :: old) = true -> exists s', s = c :: s'.
Proof.
  destruct s as [|d s]; cbn [startswith]; [discriminate|].
  intros Hs. apply andb_prop in Hs as [Hc _]. apply N.eqb_eq in Hc.
  subst. eauto.
Qed.

(** Without the first character of [old], a string is left as it is. *)
Lemma replace_from_absent (c : N) (old new s : str) (count : Z) :
  ~ In c s -> replace_from (c :: old) new s 0 count = s.
Proof.
  induction s as [|d s IH]; intros Hc; cbn [replace_from]; [reflexivity|].
  replace (startswith (d :: s) (c :: old)) with false.
  - rewrite andb_false_r, IH; [reflexivity|]. intros Hin. apply Hc. now right.
  - symmetry. cbn [startswith]. destruct (N.eqb_spec c d) as [->|_];
      [|reflexivity]. exfalso. apply Hc. now left.
Qed.

Lemma replace_from_prefix (c : N) (old new pre s : str) (count : Z) :
  ~ In c pre ->
  replace_from (c :: old) new (pre ++ s) 0 count
  = pre ++ replace_from (c :: old) new s 0 count.
Proof.
  induction pre as [|d pre IH]; intros Hc; cbn [app]; [reflexivity|].
  cbn [replace_from].
  replace (startswith (d :: pre ++ s) (c :: old)) with false.
  - rewrite andb_false_r, IH; [reflexivity|]. intros Hin. apply Hc. now right.
  - symmetry. cbn [startswith]. destruct (N.eqb_spec c d) as [->|_];
      [|reflexivity]. exfalso. apply Hc. now left.
Qed.

(** ** Lines *)

Lemma readlines_concat (text : str) : concat (readlines text) = text.
Proof.
  induction text as [|c text IH]; cbn [readlines]; [reflexivity|].
  destruct (c =? LF)%N.
  - cbn [concat app]. now rewrite IH.
  - destruct (readlines text) as [|l ls]; cbn [concat app] in *;
      now rewrite <- IH.
Qed.

(** ** Repetition *)

Lemma repeat_each_length {E : Type} (l : list E) (k : Z) :
  length (repeat_each l k) = length l * Z.to_nat k.
Proof.
  unfold repeat_each. induction l as [|x l IH]; cbn [flat_map length];
    [reflexivity|].
  rewrite length_app, repeat_length, IH. lia.
Qed.

Lemma repeat_each_nth {E : Type} (l : list E) (k : Z) (i : nat) (d : E) :
  i < length l * Z.to_nat k ->
  nth i (repeat_each l k) d = nth (i / Z.to_nat k) l d.
Proof.
  unfold repeat_each. set (m := Z.to_nat k).
  revert i; induction l as [|x l IH]; intros i Hi; cbn [length] in Hi;
    [lia|].
  cbn [flat_map]. destruct (Nat.lt_ge_cases i m) as [Hlt|Hge].
  - rewrite app_nth1 by now rewrite repeat_length.
    rewrite Nat.div_small by exact Hlt. cbn [nth].
    apply nth_repeat_lt. exact Hlt.
  - rewrite app_nth2 by now rewrite repeat_length.
    rewrite repeat_length, IH by (cbn [Nat.mul] in Hi; lia).
    assert (Hm : m <> 0) by lia.
    replace i with ((i - m) + 1 * m) at 2 by lia.
    rewrite Nat.div_add by exact Hm.
    now rewrite Nat.add_1_r.
Qed.

Lemma repeat_each_map {E E' : Type} (f : E -> E') (l : list E) (k : Z) :
  repeat_each (map f l) k = map f (repeat_each l k).
Proof.
  unfold repeat_each. induction l as [|x l IH]; cbn [map flat_map];
    [reflexivity|].
  now rewrite map_app, map_repeat, IH.
Qed.

Lemma repeat_each_map_nth {E E' : Type} (f : E -> E') (l : list E) (k : Z)
    (i : nat) (d : E) (d' : E') :
  i < length l * Z.to_nat k ->
  nth i (repeat_each (map f l) k) d' = f (nth (i / Z.to_nat k) l d).
Proof.
  intros Hi. rewrite repeat_each_nth by now rewrite length_map.
  assert (Hk : Z.to_nat k <> 0) by lia.
  assert (Hq : i / Z.to_nat k < length l).
  { apply Nat.Div0.div_lt_upper_bound. lia. }
  rewrite (nth_indep _ d' (f d)) by now rewrite length_map.
  apply map_nth.
Qed.

(** Every line [readlines] returns is non-empty and has no ['\n'] before its
    last character. *)
Lemma readlines_lines (text : str) :
  Forall (fun l => l <> [] /\ ~ In LF (removelast l)) (readlines text).
Proof.
  induction text as [|c text IH]; cbn [readlines]; [constructor|].
  destruct (N.eqb_spec c LF) as [->|Hne].
  - constructor; [|exact IH]. split; [discriminate|]. cbn. tauto.
  - destruct (readlines text) as [|l ls].
    + constructor; [|constructor]. split; [discriminate|]. cbn. tauto.
    + apply Forall_cons_iff in IH as [[Hl Hlf] Hls].
      constructor; [|exact Hls]. split; [discriminate|].
      destruct l as [|x l]; [congruence|].
      change (removelast (c :: x :: l)) with (c :: removelast (x :: l)).
      intros [E|Hin]; [congruence | contradiction].
Qed.

Lemma replace_app_char (s1 s2 new : str) (c : N) :
  replace (s1 ++ s2) [c] new (-1)
  = replace s1 [c] new (-1) ++ replace s2 [c] new (-1).
Proof. rewrite !replace_char. apply flat_map_app. Qed.

Lemma replace_char_absent (s new : str) (c : N) :
  ~ In c s -> replace s [c] new (-1) = s.
Proof.
  intros Hc. unfold replace. now apply replace_from_absent.
Qed.

(** X9.  The clean prompts, the homoglyph prompts and the target prompts of
    one template file line up: each list has [num_images] entries per line
    of the file, the copies of one line next to each other, and entry [i] of
    each list is made from line [i / num_images]. *)
Theorem prompt_lists_aligned (prompt_file homoglyph target_culture : str)
    (num_images : Z) :
  let lines := readlines prompt_file in
  let k := Z.to_nat num_images in
  let clean := clean_prompts prompt_file num_images in
  let glyph := homoglyph_prompts prompt_file num_images homoglyph in
  let target := get_target_prompts prompt_file target_culture num_images in
  length clean = length lines * k /\
  length glyph = length lines * k /\
  length target = length lines * k /\
  forall i, i < length lines * k ->
    let line := nth (i / k) lines [] in
    nth i clean [] = replace (replace line [LF] [] (-1)) [HASH; SPACE] [] (-1) /\
    nth i glyph [] = replace (replace line [HASH] homoglyph (-1)) [LF] [] (-1) /\
    nth i target [] = replace (replace line [LF] [] (-1)) [HASH] target_culture (-1).
Proof.
  intros lines k clean glyph target.
  unfold clean, glyph, target, clean_prompts, homoglyph_prompts,
    get_target_prompts.
  fold lines. rewrite !map_map, !repeat_each_length, !length_map. fold k.
  repeat split; try reflexivity;
    now rewrite (repeat_each_map_nth _ lines num_images i []).
Qed.

Lemma In_repeat_each {E : Type} (l : list E) (k : Z) (x : E) :
  In x (repeat_each l k) -> In x l.
Proof.
  unfold repeat_each. rewrite in_flat_map. intros (y & Hy & Hx).
  apply repeat_spec in Hx. now subst.
Qed.

Lemma strip_no_newline (s : str) : ~ In LF (replace s [LF] [] (-1)).
Proof.
  rewrite replace_char_In. intros [[_ Hne]|[_ []]]. now apply Hne.
Qed.

(** X10.  No clean prompt and no homoglyph prompt contains a newline, even
    when the homoglyph does: there the newlines are removed last.  In the
    target prompts they are removed first: a target prompt contains a
    newline only if the culture does, and then every prompt made from a
    line with a placeholder has one. *)
Theorem prompts_newlines (prompt_file homoglyph target_culture : str)
    (num_images : Z) :
  let k := Z.to_nat num_images in
  let target := get_target_prompts prompt_file target_culture num_images in
  Forall (fun p => ~ In LF p) (clean_prompts prompt_file num_images) /\
  Forall (fun p => ~ In LF p)
         (homoglyph_prompts prompt_file num_images homoglyph) /\
  Forall (fun p => In LF p -> In LF target_culture) target /\
  (In LF target_culture ->
   forall i, i < length (readlines prompt_file) * k ->
     In HASH (nth (i / k) (readlines prompt_file) []) ->
     In LF (nth i target [])).
Proof.
  intros k target. unfold target, clean_prompts, homoglyph_prompts,
    get_target_prompts.
  rewrite !map_map. repeat split.
  - apply Forall_forall. intros p Hp Hlf.
    apply In_repeat_each, in_map_iff in Hp as (line & <- & _).
    unfold replace at 1 in Hlf.
    apply replace_from_In in Hlf as [Hlf|[]].
    now apply strip_no_newline in Hlf.
  - apply Forall_forall. intros p Hp.
    apply In_repeat_each, in_map_iff in Hp as (line & <- & _).
    apply strip_no_newline.
  - apply Forall_forall. intros p Hp Hlf.
    apply In_repeat_each, in_map_iff in Hp as (line & <- & _).
    apply replace_char_In in Hlf as [[Hlf _]|[_ Hc]]; [|exact Hc].
    now apply strip_no_newline in Hlf.
  - intros Hc i Hi Hhash.
    rewrite (repeat_each_map_nth _ (readlines prompt_file) num_images i [])
      by exact Hi.
    apply replace_char_In. right. split; [|exact Hc].
    apply replace_char_In. left. split; [exact Hhash | discriminate].
Qed.

(** X11.  A line [pre # post] with one placeholder: the clean prompt drops
    the placeholder together with the space after it, and keeps the [#] when
    no space follows; the homoglyph prompt has the homoglyph (without its
    newlines) and the target prompt the culture in place of the [#]. *)
Theorem placeholder_semantics (prompt_file homoglyph target_culture : str)
    (num_images : Z) (i : nat) (pre post : str) :
  let k := Z.to_nat num_images in
  i < length (readlines prompt_file) * k ->
  nth (i / k) (readlines prompt_file) [] = pre ++ HASH :: post ++ [LF] ->
  ~ In HASH pre -> ~ In HASH post ->
  nth i (clean_prompts prompt_file num_images) []
  = pre ++ match post with
           | c :: rest => if (c =? SPACE)%N then rest else HASH :: post
           | [] => [HASH]
           end /\
  nth i (homoglyph_prompts prompt_file num_images homoglyph) []
  = pre ++ replace homoglyph [LF] [] (-1) ++ post /\
  nth i (get_target_prompts prompt_file target_culture num_images) []
  = pre ++ target_culture ++ post.
Proof.
  intros k Hi Hline Hpre Hpost.
  assert (Hq : i / k < length (readlines prompt_file)).
  { apply Nat.Div0.div_lt_upper_bound. lia. }
  pose proof (readlines_lines prompt_file) as Hall.
  rewrite Forall_forall in Hall.
  destruct (Hall _ (nth_In _ [] Hq)) as [_ Hlf]. fold k in Hlf.
  rewrite Hline in Hlf.
  replace (pre ++ HASH :: post ++ [LF]) with ((pre ++ HASH :: post) ++ [LF])
    in Hlf by now rewrite <- app_assoc.
  rewrite removelast_last in Hlf.
  assert (Hlpre : ~ In LF pre) by (intros Hin; apply Hlf, in_or_app; now left).
  assert (Hlpost : ~ In LF post)
    by (intros Hin; apply Hlf, in_or_app; right; now right).
  assert (Hstrip : replace (pre ++ HASH :: post ++ [LF]) [LF] [] (-1)
                   = pre ++ HASH :: post).
  { change (HASH :: post ++ [LF]) with ([HASH] ++ post ++ [LF]).
    rewrite !replace_app_char, (replace_char_absent pre),
      (replace_char_absent post) by assumption.
    rewrite (replace_char_absent [HASH])
      by (intros [E|[]]; unfold LF, HASH in E; discriminate E).
    rewrite replace_char. cbn [flat_map]. rewrite N.eqb_refl.
    now rewrite !app_nil_r. }
  unfold clean_prompts, homoglyph_prompts, get_target_prompts.
  rewrite !map_map.
  rewrite !(repeat_each_map_nth _ (readlines prompt_file) num_images i [])
    by exact Hi.
  fold k. rewrite Hline, Hstrip. repeat split.
  - unfold replace. rewrite replace_from_prefix by exact Hpre. f_equal.
    cbn [replace_from negb Z.eqb andb startswith length Nat.sub].
    rewrite N.eqb_refl. cbn [andb].
    destruct post as [|c rest]; [reflexivity|].
    cbn [startswith]. rewrite andb_true_r.
    destruct (N.eqb_spec SPACE c) as [<-|Hne].
    + cbn [replace_from app]. rewrite N.eqb_refl.
      apply replace_from_absent. intros Hin. apply Hpost. now right.
    + replace (c =? SPACE)%N with false
        by (symmetry; apply N.eqb_neq; congruence).
      f_equal. apply replace_from_absent. exact Hpost.
  - assert (Hin : replace (pre ++ HASH :: post ++ [LF]) [HASH] homoglyph (-1)
                  = pre ++ homoglyph ++ post ++ [LF]).
    { change (HASH :: post ++ [LF]) with ([HASH] ++ post ++ [LF]).
      rewrite !(replace_app_char _ _ homoglyph HASH).
      rewrite (replace_char_absent pre homoglyph HASH) by exact Hpre.
      rewrite (replace_char_absent post homoglyph HASH) by exact Hpost.
      rewrite (replace_char_absent [LF] homoglyph HASH)
        by (intros [E|[]]; unfold LF, HASH in E; discriminate E).
      rewrite (replace_char [HASH]). cbn [flat_map].
      now rewrite N.eqb_refl, app_nil_r. }
    rewrite Hin, !(replace_app_char _ _ [] LF).
    rewrite (replace_char_absent pre [] LF) by exact Hlpre.
    rewrite (replace_char_absent post [] LF) by exact Hlpost.
    rewrite (replace_char [LF] [] LF). cbn [flat_map].
    now rewrite N.eqb_refl, !app_nil_r.
  - change (HASH :: post) with ([HASH] ++ post).
    rewrite !(replace_app_char _ _ target_culture HASH).
    rewrite (replace_char_absent pre target_culture HASH) by exact Hpre.
    rewrite (replace_char_absent post target_culture HASH) by exact Hpost.
    rewrite (replace_char [HASH]). cbn [flat_map].
    now rewrite N.eqb_refl, app_nil_r.
Qed.

(** X12.  A line without placeholder gives the same prompt three times: the
    line without its newline. *)
Theorem prompts_without_placeholder (prompt_file homoglyph target_culture : str)
    (num_images : Z) (i : nat) :
  let k := Z.to_nat num_images in
  let line := nth (i / k) (readlines prompt_file) [] in
  i < length (readlines prompt_file) * k ->
  ~ In HASH line ->
  let prompt := replace line [LF] [] (-1) in
  prompt = filter (fun c => negb (c =? LF)%N) line /\
  nth i (clean_prompts prompt_file num_images) [] = prompt /\
  nth i (homoglyph_prompts prompt_file num_images homoglyph) [] = prompt /\
  nth i (get_target_prompts prompt_file target_culture num_images) [] = prompt.
Proof.
  intros k line Hi Hhash prompt.
  assert (Hp : ~ In HASH prompt).
  { unfold prompt. rewrite replace_char_In. intros [[Hin _]|[_ []]].
    now apply Hhash. }
  unfold clean_prompts, homoglyph_prompts, get_target_prompts.
  rewrite !map_map.
  rewrite !(repeat_each_map_nth _ (readlines prompt_file) num_images i [])
    by exact Hi.
  fold k. fold line. fold prompt. repeat split.
  - unfold prompt. rewrite replace_char. clear.
    induction line as [|c l IH]; cbn [flat_map filter]; [reflexivity|].
    rewrite (N.eqb_sym c LF). destruct (LF =? c)%N; cbn [negb app];
      now rewrite IH.
  - unfold replace. now apply replace_from_absent.
  - now rewrite (replace_char_absent line) by exact Hhash.
  - now apply replace_char_absent.
Qed.

Lemma placeholder_semantics_witness :
  nth 1 (clean_prompts template_1 2) [] = [97; 32; 98]%N /\
  nth 1 (homoglyph_prompts template_1 2 omicron_str) []
  = [97; 32; 959; 32; 98]%N /\
  nth 1 (get_target_prompts template_1 greek_str 2) []
  = [97; 32; 71; 114; 101; 101; 107; 32; 98]%N.
Proof.
  apply (placeholder_semantics template_1 omicron_str greek_str 2 1
           [97; 32]%N [32; 98]%N).
  - vm_compute. lia.
  - reflexivity.
  - intros [E|[E|[]]]; discriminate E.
  - intros [E|[E|[]]]; discriminate E.
Defined.

Lemma prompts_without_placeholder_witness :
  nth 2 (clean_prompts template_1 2) [] = [99]%N /\
  nth 2 (homoglyph_prompts template_1 2 omicron_str) [] = [99]%N /\
  nth 2 (get_target_prompts template_1 greek_str 2) [] = [99]%N.
Proof.
  apply (prompts_without_placeholder template_1 omicron_str greek_str 2 2).
  - vm_compute. lia.
  - intros [E|[E|[]]]; discriminate E.
Defined.


(* ================================================================== *)
(** * The batches of images of [compute_relative_bias.py] *)

(** ** The number of batches: [math.ceil(len(prompts) / batch_size)] *)

Open Scope Z_scope.

(** The ceiling of [m / T] when [m] is [q0] or [q0 + 1], [q0] being the floor
    of [a T / b] ([beta = b]) or of [a T / b] taken with one more bit
    ([beta = 2 b]), and [m = q0 + 1] whenever more than half is left. *)
Lemma ceil_round (a b T q0 rho beta m : Z) (two : Z) :
  0 < b -> 0 < T -> 0 <= a -> 0 <= rho < beta ->
  beta = two * b -> (two = 1 \/ two = 2) ->
  two * (a * T) = q0 * beta + rho ->
  b < two * T ->
  (m = q0 /\ 2 * rho <= beta) \/ (m = q0 + 1 /\ 0 < rho) ->
  (m + T - 1) / T = (a + b - 1) / b.
Proof.
  intros Hb HT Ha Hrho Hbeta Htwo Hdiv HbT Hm.
  set (L := (m + T - 1) / T).
  assert (HL : (L - 1) * T < m <= L * T).
  { unfold L. pose proof (Z.div_mod (m + T - 1) T ltac:(lia)) as Hdm.
    pose proof (Z.mod_pos_bound (m + T - 1) T HT) as Hmod. nia. }
  clearbody L.
  apply Z.div_unique with (r := a + b - 1 - b * L).
  - left.
    (* (L - 1) b < a <= L b *)
    assert (Hq0 : 0 <= q0).
    { destruct (Z.lt_ge_cases q0 0) as [Hneg|]; [|assumption].
      exfalso. subst beta. nia. }
    assert (Hup : a <= L * b).
    { destruct (Z.lt_ge_cases (L * b) a) as [Hlt|]; [|lia]. exfalso.
      (* a >= L b + 1 *)
      assert (H1 : two * (a * T) >= two * ((L * b + 1) * T)) by nia.
      destruct Hm as [[-> Hr]|[-> Hr]].
      - (* m = q0 <= L T *)
        subst beta. 
        assert (q0 * (two * b) + rho < (q0 + 1) * (two * b)) by nia.
        assert ((L * b + 1) * T * two <= q0 * (two * b) + rho) by nia.
        assert (L * T * b * two + T * two <= q0 * (two * b) + rho) by nia.
        assert (q0 * (two * b) <= L * T * (two * b)) by nia.
        assert (T * two <= rho) by nia.
        destruct Htwo as [->| ->]; nia.
      - subst beta.
        assert ((q0 + 1) * (two * b) <= L * T * (two * b)) by nia.
        nia. }
    assert (Hlow : (L - 1) * b < a).
    { destruct (Z.lt_ge_cases ((L - 1) * b) a) as [|Hge]; [assumption|].
      exfalso.
      assert (H1 : two * (a * T) <= two * ((L - 1) * b * T)) by nia.
      subst beta.
      destruct Hm as [[-> Hr]|[-> Hr]].
      + assert ((L - 1) * T * (two * b) < q0 * (two * b)) by nia. nia.
      + assert ((L - 1) * T <= q0) by lia.
        assert ((L - 1) * T * (two * b) <= q0 * (two * b)) by nia. nia. }
    lia.
  - lia.
Qed.

Lemma digits2_pos_lower (m : positive) :
  2 ^ (Zpos (digits2_pos m) - 1) <= Zpos m.
Proof.
  induction m as [m IH|m IH|]; cbn [digits2_pos].
  - rewrite Pos2Z.inj_succ. replace (Z.succ (Zpos (digits2_pos m)) - 1)
      with (Z.succ (Zpos (digits2_pos m) - 1)) by lia.
    rewrite Z.pow_succ_r by lia. lia.
  - rewrite Pos2Z.inj_succ. replace (Z.succ (Zpos (digits2_pos m)) - 1)
      with (Z.succ (Zpos (digits2_pos m) - 1)) by lia.
    rewrite Z.pow_succ_r by lia. lia.
  - reflexivity.
Qed.

Lemma Zdigits2_unique (z k : Z) :
  2 ^ (k - 1) <= z < 2 ^ k -> 0 < k -> Zdigits2 z = k.
Proof.
  intros [Hlo Hhi] Hk.
  assert (Hz : 0 < z).
  { eapply Z.lt_le_trans; [|exact Hlo]. apply Z.pow_pos_nonneg; lia. }
  destruct z as [|p|p]; try lia. cbn [Zdigits2].
  pose proof (digits2_pos_bound p) as Hu.
  pose proof (digits2_pos_lower p) as Hl.
  set (d := Zpos (digits2_pos p)) in *.
  assert (Hd : 0 < d) by (unfold d; lia).
  destruct (Z.lt_trichotomy d k) as [Hlt|[Heq|Hgt]]; [|exact Heq|].
  - assert (2 ^ d <= 2 ^ (k - 1)) by (apply Z.pow_le_mono_r; lia). lia.
  - assert (2 ^ k <= 2 ^ (d - 1)) by (apply Z.pow_le_mono_r; lia). lia.
Qed.

Lemma Zdigits2_bounds (p : positive) :
  2 ^ (Zdigits2 (Zpos p) - 1) <= Zpos p < 2 ^ Zdigits2 (Zpos p).
Proof.
  cbn [Zdigits2]. split; [apply digits2_pos_lower | apply digits2_pos_bound].
Qed.

(** [-((-x) / d)] is the ceiling of [x / d]. *)
Lemma ceil_div (x d : Z) : 0 < d -> - ((- x) / d) = (x + d - 1) / d.
Proof.
  intros Hd. apply Z.div_unique with (r := d - 1 - (- x) mod d).
  - left. pose proof (Z.mod_pos_bound (- x) d Hd). lia.
  - pose proof (Z.div_mod (- x) d ltac:(lia)). lia.
Qed.

(** One shift to the right of a positive mantissa. *)
Lemma shr_1_pos (q : Z) (r s : bool) :
  1 < q ->
  shr_1 (Build_shr_record q r s)
  = Build_shr_record (q / 2) (Z.odd q) (r || s).
Proof.
  intros Hq. destruct q as [|[p|p|]|p]; try lia; cbn [shr_1 Z.odd].
  - f_equal. rewrite Pos2Z.inj_xI.
    apply Z.div_unique with (r := 1); lia.
  - f_equal. rewrite Pos2Z.inj_xO.
    apply Z.div_unique with (r := 0); lia.
Qed.

(** What [new_location] says of a remainder. *)
Lemma new_location_spec (b r : Z) :
  0 < b -> 0 <= r < b ->
  match new_location b r with
  | loc_Exact => r = 0
  | loc_Inexact Lt => 0 < r /\ 2 * r < b
  | loc_Inexact Eq => 0 < r /\ 2 * r = b
  | loc_Inexact Gt => 0 < r /\ b < 2 * r
  end.
Proof.
  intros Hb Hr. unfold new_location, new_location_even, new_location_odd.
  destruct (Z.even b) eqn:Heven; destruct (Z.eqb_spec r 0) as [E|NE];
    try exact E.
  - destruct (Z.compare_spec (2 * r) b); lia.
  - assert (Hodd : Z.odd b = true) by (rewrite <- Z.negb_even, Heven; reflexivity).
    apply Z.odd_spec in Hodd as [k Hk].
    destruct (Z.compare_spec (2 * r + 1) b); lia.
Qed.

Lemma ceil_div_double (x d : Z) :
  0 < d -> (2 * x + 2 * d - 1) / (2 * d) = (x + d - 1) / d.
Proof.
  intros Hd. symmetry.
  pose proof (Z.div_mod (x + d - 1) d ltac:(lia)) as Hdm.
  pose proof (Z.mod_pos_bound (x + d - 1) d Hd) as Hmod.
  apply Z.div_unique with (r := 2 * ((x + d - 1) mod d) + 1); lia.
Qed.

Lemma fexp_53 (d e : Z) :
  -1074 <= e -> d - 53 >= 0 -> fexp prec emax (d + e) = d - 53 + e.
Proof.
  intros He Hd. unfold fexp, emin. change prec with 53. change emax with 1024.
  lia.
Qed.

(** The second half of [binary_round_aux]: a rounded mantissa of 53 bits,
    or [2^53], is put in place; the value is the same. *)
Lemma round_aux_place (sx : bool) (m1 e1 : Z) :
  2 ^ 52 <= m1 <= 2 ^ 53 -> -1074 <= e1 <= 0 ->
  exists (p : positive) (e2 : Z),
    (let '(mrs, e) := shr_fexp prec emax m1 e1 loc_Exact in
     match shr_m mrs with
     | Z0 => S754_zero sx
     | Zpos m => if e <=? emax - prec then S754_finite sx m e
                 else S754_infinity sx
     | Zneg _ => S754_nan
     end) = S754_finite sx p e2 /\
    math_ceil (S754_finite false p e2)
    = Ok ((m1 + 2 ^ (- e1) - 1) / 2 ^ (- e1)).
Proof.
  intros Hm He. unfold shr_fexp.
  destruct (Z.eq_dec m1 (2 ^ 53)) as [->|Hne].
  - rewrite (Zdigits2_unique (2 ^ 53) 54) by (change (54 - 1) with 53; lia).
    rewrite (fexp_53 54) by lia.
    replace (54 - 53 + e1 - e1) with 1 by lia.
    cbn [shr_record_of_loc shr iter_pos].
    rewrite shr_1_pos by reflexivity.
    change (2 ^ 53 / 2) with (Zpos (2 ^ 52)).
    cbn [shr_m orb]. change (emax - prec) with 971.
    destruct (Z.leb_spec (e1 + 1) 971) as [_|]; [|lia].
    exists (2 ^ 52)%positive, (e1 + 1). split; [reflexivity|].
    cbn [math_ceil]. f_equal.
    destruct (Z.leb_spec 0 (e1 + 1)) as [Hge|Hlt].
    + assert (Hcase : e1 = 0 \/ e1 = -1) by lia.
      destruct Hcase as [-> | ->]; reflexivity.
    + rewrite ceil_div by (apply Z.pow_pos_nonneg; lia).
      replace (2 ^ (- e1)) with (2 * 2 ^ (- (e1 + 1))).
      * change (2 ^ 53) with (2 * Zpos (2 ^ 52)).
        now rewrite ceil_div_double by (apply Z.pow_pos_nonneg; lia).
      * rewrite <- Z.pow_succ_r by lia. f_equal. lia.
  - rewrite (Zdigits2_unique m1 53) by (change (53 - 1) with 52; lia).
    rewrite (fexp_53 53) by lia.
    replace (53 - 53 + e1 - e1) with 0 by lia.
    cbn [shr_record_of_loc shr shr_m].
    assert (Hpos : 0 < m1).
    { eapply Z.lt_le_trans; [|apply Hm]. reflexivity. }
    destruct m1 as [|p|p]; try lia.
    change (emax - prec) with 971.
    destruct (Z.leb_spec e1 971) as [_|]; [|lia].
    exists p, e1. split; [reflexivity|].
    cbn [math_ceil]. f_equal.
    destruct (Z.leb_spec 0 e1) as [Hge|Hlt].
    + assert (e1 = 0) by lia. subst e1.
      change (2 ^ (- 0)) with 1. change (2 ^ 0) with 1.
      rewrite Z.mul_1_r, Z.div_1_r. lia.
    + apply ceil_div. apply Z.pow_pos_nonneg; lia.
Qed.

Lemma loc_of_shr_record_of_loc (m : Z) (l : location) :
  shr_m (shr_record_of_loc m l) = m /\
  loc_of_shr_record (shr_record_of_loc m l) = l.
Proof. destruct l as [|[]]; split; reflexivity. Qed.

(** A quotient of 53 or 54 bits with its remainder, rounded to a double and
    taken to the next integer: the ceiling of the exact quotient. *)
Lemma round_div_ceil (sx : bool) (a b s q r : Z) :
  0 <= a -> 0 < b -> 0 < s <= 1074 ->
  a * 2 ^ s = b * q + r -> 0 <= r < b ->
  2 ^ 52 <= q < 2 ^ 54 -> b < 2 ^ s ->
  exists (p : positive) (e2 : Z),
    binary_round_aux prec emax sx q (- s) (new_location b r)
    = S754_finite sx p e2 /\
    math_ceil (S754_finite false p e2) = Ok ((a + b - 1) / b).
Proof.
  intros Ha Hb Hs Hdiv Hr Hq HbT.
  pose proof (new_location_spec b r Hb Hr) as Hloc.
  set (l := new_location b r) in *.
  unfold binary_round_aux, shr_fexp at 1.
  assert (H2s : 0 < 2 ^ s) by (apply Z.pow_pos_nonneg; lia).
  destruct (Z.lt_ge_cases q (2 ^ 53)) as [Hlt|Hge].
  - (* 53 bits: no shift *)
    rewrite (Zdigits2_unique q 53) by (change (53 - 1) with 52; lia).
    rewrite (fexp_53 53) by lia.
    replace (53 - 53 + - s - - s) with 0 by lia.
    cbn [shr].
    destruct (loc_of_shr_record_of_loc q l) as [-> ->].
    set (m1 := round_nearest_even q l).
    assert (Hm1 : (m1 = q /\ 2 * r <= b) \/ (m1 = q + 1 /\ 0 < r)).
    { unfold m1, round_nearest_even. destruct l as [|[]].
      - left. lia.
      - destruct (Z.even q); [left | right]; lia.
      - left. lia.
      - right. lia. }
    destruct (round_aux_place sx m1 (- s)) as (p & e2 & Hplace & Hceil);
      [lia | lia |].
    exists p, e2. split; [exact Hplace|]. rewrite Hceil. f_equal.
    rewrite Z.opp_involutive.
    apply (ceil_round a b (2 ^ s) q r b m1 1); try lia.
  - (* 54 bits: one shift *)
    rewrite (Zdigits2_unique q 54) by (change (54 - 1) with 53; lia).
    rewrite (fexp_53 54) by lia.
    replace (54 - 53 + - s - - s) with 1 by lia.
    cbn [shr]. unfold SpecFloat.iter_pos.
    set (q0 := q / 2).
    assert (Hq0 : q = 2 * q0 + (if Z.odd q then 1 else 0)).
    { unfold q0. rewrite (Z.div_mod q 2) at 1 by lia.
      rewrite Zmod_odd. reflexivity. }
    assert (Hshift : shr_1 (shr_record_of_loc q l)
                     = Build_shr_record q0 (Z.odd q)
                         (match l with loc_Exact => false | _ => true end)).
    { destruct l as [|[]]; cbn [shr_record_of_loc];
        rewrite shr_1_pos by lia; reflexivity. }
    rewrite Hshift. cbn [shr_m].
    set (l' := loc_of_shr_record _).
    set (m1 := round_nearest_even q0 l').
    set (rho := (if Z.odd q then b else 0) + r).
    assert (Hm1 : (m1 = q0 /\ 2 * rho <= 2 * b) \/ (m1 = q0 + 1 /\ 0 < rho)).
    { unfold m1, l', rho, round_nearest_even, loc_of_shr_record.
      destruct (Z.odd q); destruct l as [|[]];
        first [ left; lia | right; lia
              | destruct (Z.even q0); [left | right]; lia ]. }
    assert (Hq0b : 2 ^ 52 <= q0 < 2 ^ 53) by (destruct (Z.odd q); lia).
    assert (Hs1 : 2 ^ s = 2 * 2 ^ (s - 1)).
    { rewrite <- Z.pow_succ_r by lia. f_equal. lia. }
    destruct (round_aux_place sx m1 (- s + 1)) as (p & e2 & Hplace & Hceil);
      [lia | lia |].
    exists p, e2. split; [exact Hplace|]. rewrite Hceil. f_equal.
    replace (- (- s + 1)) with (s - 1) by lia.
    apply (ceil_round a b (2 ^ (s - 1)) q0 rho (2 * b) m1 2); try lia.
    + unfold rho. destruct (Z.odd q); lia.
    + unfold rho. destruct (Z.odd q); nia.
Qed.

Lemma Zdigits2_le_53 (p : positive) :
  Zpos p < 2 ^ 53 -> 1 <= Zdigits2 (Zpos p) <= 53.
Proof.
  intros Hp. pose proof (Zdigits2_bounds p) as [Hlo _].
  cbn [Zdigits2] in *. split; [lia|].
  destruct (Z.le_gt_cases (Zpos (digits2_pos p)) 53) as [|Hgt]; [assumption|].
  assert (2 ^ 53 <= 2 ^ (Zpos (digits2_pos p) - 1))
    by (apply Z.pow_le_mono_r; lia).
  lia.
Qed.

(** The quotient of two non-zero integers below [2^53] in magnitude, as a
    double: finite, with the sign of the quotient, and of magnitude
    [|a| / |b|] rounded. *)
Lemma true_divide_finite (sa sb : bool) (pa pb : positive) :
  Zpos pa < 2 ^ 53 -> Zpos pb < 2 ^ 53 ->
  exists (p : positive) (e2 : Z),
    SFdiv prec emax (S754_finite sa pa 0) (S754_finite sb pb 0)
    = S754_finite (xorb sa sb) p e2 /\
    math_ceil (S754_finite false p e2)
    = Ok ((Zpos pa + Zpos pb - 1) / Zpos pb).
Proof.
  intros Ha Hb. unfold SFdiv, SFdiv_core_binary.
  pose proof (Zdigits2_le_53 pa ltac:(lia)) as Hd1.
  pose proof (Zdigits2_le_53 pb ltac:(lia)) as Hd2.
  pose proof (Zdigits2_bounds pa) as Ba.
  pose proof (Zdigits2_bounds pb) as Bb.
  set (d1 := Zdigits2 (Zpos pa)) in *. set (d2 := Zdigits2 (Zpos pb)) in *.
  set (s := 53 + d2 - d1).
  assert (He : Z.min (fexp prec emax (d1 + 0 - (d2 + 0))) (0 - 0) = - s).
  { unfold fexp, emin. change prec with 53. change emax with 1024.
    unfold s. lia. }
  rewrite He. replace (0 - 0 - - s) with s by lia.
  assert (Hs : 0 < s <= 105) by (unfold s; lia).
  assert (Hm' : match s with
                | 0 => Zpos pa
                | Zpos _ => Z.shiftl (Zpos pa) s
                | Zneg _ => 0
                end = Zpos pa * 2 ^ s).
  { destruct s; try lia. apply Z.shiftl_mul_pow2. lia. }
  rewrite Hm'.
  pose proof (Z_div_mod (Zpos pa * 2 ^ s) (Zpos pb) ltac:(lia)) as Hdm.
  destruct (Z.div_eucl (Zpos pa * 2 ^ s) (Zpos pb)) as [q r].
  destruct Hdm as [Hdiv Hr].
  assert (H2s : 0 < 2 ^ s) by (apply Z.pow_pos_nonneg; lia).
  assert (Hsa : 2 ^ (d1 - 1) * 2 ^ s = 2 ^ 52 * 2 ^ d2).
  { rewrite <- !Z.pow_add_r by lia. f_equal. unfold s. lia. }
  assert (Hsb : 2 ^ d1 * 2 ^ s = 2 ^ 54 * 2 ^ (d2 - 1)).
  { rewrite <- !Z.pow_add_r by lia. f_equal. unfold s. lia. }
  assert (HbT : Zpos pb < 2 ^ s).
  { eapply Z.lt_le_trans; [apply Bb|]. apply Z.pow_le_mono_r; unfold s; lia. }
  assert (Hq : 2 ^ 52 <= q < 2 ^ 54).
  { assert (Hlo : 2 ^ 52 * 2 ^ d2 <= Zpos pa * 2 ^ s) by nia.
    assert (Hhi : Zpos pa * 2 ^ s < 2 ^ 54 * 2 ^ (d2 - 1)) by nia.
    assert (Hd2p : 0 < 2 ^ (d2 - 1)) by (apply Z.pow_pos_nonneg; lia).
    split.
    - destruct (Z.le_gt_cases (2 ^ 52) q) as [|Hlt]; [assumption|].
      exfalso.
      assert (Zpos pb * q + r < Zpos pb * 2 ^ 52) by nia.
      assert (Zpos pb * 2 ^ 52 < 2 ^ 52 * 2 ^ d2) by nia.
      lia.
    - destruct (Z.lt_ge_cases q (2 ^ 54)) as [|Hge]; [assumption|].
      exfalso.
      assert (Zpos pb * 2 ^ 54 <= Zpos pb * q) by nia.
      assert (2 ^ 54 * 2 ^ (d2 - 1) <= Zpos pb * 2 ^ 54) by nia.
      lia. }
  apply (round_div_ceil (xorb sa sb) (Zpos pa) (Zpos pb) s q r); lia.
Qed.

(** [math.ceil(a / b)] is the ceiling of the quotient for integers below
    [2^53]; the rounding of [a / b] to a double does not reach the next
    integer. *)
Lemma true_divide_ceil (a b : Z) :
  0 <= a < 2 ^ 53 -> 0 < b < 2 ^ 53 ->
  (let* q := int_true_divide a b in math_ceil q) = Ok ((a + b - 1) / b).
Proof.
  intros Ha Hb. destruct b as [|pb|pb]; try lia.
  destruct a as [|pa|pa]; try lia.
  - unfold int_true_divide, sf_of_Z, SFdiv. cbn [xorb bind math_ceil].
    f_equal. symmetry. apply Z.div_small. lia.
  - unfold int_true_divide, sf_of_Z.
    destruct (true_divide_finite false false pa pb) as (p & e2 & -> & Hc);
      try lia.
    cbn [xorb bind]. exact Hc.
Qed.

(** With a negative divisor the ceiling is not positive. *)
Lemma true_divide_ceil_neg (a b : Z) :
  0 <= a < 2 ^ 53 -> - 2 ^ 53 < b < 0 ->
  exists n : Z,
    (let* q := int_true_divide a b in math_ceil q) = Ok n /\ n <= 0.
Proof.
  intros Ha Hb. destruct b as [|pb|pb]; try lia.
  destruct a as [|pa|pa]; try lia.
  - exists 0. split; [reflexivity | lia].
  - unfold int_true_divide, sf_of_Z.
    destruct (true_divide_finite false true pa pb) as (p & e2 & -> & _);
      try lia.
    cbn [xorb bind math_ceil]. eexists. split; [reflexivity|].
    destruct (Z.leb_spec 0 e2) as [Hge|Hlt].
    + assert (0 <= 2 ^ e2) by (apply Z.pow_nonneg; lia).
      nia.
    + assert (0 <= - Z.neg p / 2 ^ (- e2)); [|lia].
      apply Z.div_pos; [lia | apply Z.pow_pos_nonneg; lia].
Qed.

(** ** The loop over the batches *)

Close Scope Z_scope.

Lemma slice_chunk {E : Type} (l : list E) (i bs : nat) :
  slice l (i * bs) ((i + 1) * bs) = firstn bs (skipn (i * bs) l).
Proof. unfold slice. f_equal. lia. Qed.

Lemma chunks_shift {E : Type} (l : list E) (bs a n : nat) :
  map (fun i => firstn bs (skipn (i * bs) l)) (seq (S a) n)
  = map (fun i => firstn bs (skipn (i * bs) (skipn bs l))) (seq a n).
Proof.
  rewrite <- seq_shift, map_map. apply map_ext. intros i.
  rewrite skipn_skipn. do 2 f_equal. lia.
Qed.

Lemma chunks_concat {E : Type} (bs n : nat) (l : list E) :
  length l <= n * bs ->
  concat (map (fun i => firstn bs (skipn (i * bs) l)) (seq 0 n)) = l.
Proof.
  revert l; induction n as [|n IH]; intros l Hl.
  - cbn in *. destruct l; [reflexivity | cbn in Hl; lia].
  - cbn [seq map concat]. rewrite chunks_shift, IH.
    + cbn [Nat.mul skipn]. apply firstn_skipn.
    + rewrite length_skipn. lia.
Qed.

(** The batches the loops cut a list into. *)
Lemma chunks_chunked (prompts : list str) (batch_size : Z) :
  (0 < batch_size)%Z ->
  let bs := Z.to_nat batch_size in
  let n := Z.to_nat ((Z.of_nat (length prompts) + batch_size - 1) / batch_size) in
  chunked prompts batch_size
    (map (fun i => firstn bs (skipn (i * bs) prompts)) (seq 0 n)).
Proof.
  intros Hbs bs n.
  set (len := length prompts).
  assert (Hn : (Z.of_nat n = (Z.of_nat len + batch_size - 1) / batch_size)%Z).
  { unfold n. rewrite Z2Nat.id; [reflexivity|]. apply Z.div_pos; lia. }
  assert (Hbounds : (n - 1) * bs < len + (if len =? 0 then 1 else 0)
                    /\ len <= n * bs).
  { pose proof (Z.div_mod (Z.of_nat len + batch_size - 1) batch_size
                  ltac:(lia)) as Hdm.
    pose proof (Z.mod_pos_bound (Z.of_nat len + batch_size - 1) batch_size Hbs)
      as Hmod.
    rewrite <- Hn in Hdm.
    assert (Hb : Z.of_nat bs = batch_size) by (unfold bs; lia).
    destruct (Nat.eqb_spec len 0); nia. }
  destruct Hbounds as [Hlo Hhi].
  assert (Hlen : forall i, i < n ->
            length (firstn bs (skipn (i * bs) prompts))
            = Nat.min bs (len - i * bs)).
  { intros i _. now rewrite length_firstn, length_skipn. }
  repeat split.
  - apply chunks_concat. exact Hhi.
  - rewrite length_map, length_seq. exact Hn.
  - apply Forall_forall. intros c Hc.
    apply in_map_iff in Hc as (i & <- & Hi). apply in_seq in Hi.
    rewrite Hlen by lia.
    assert (i * bs <= (n - 1) * bs) by (apply Nat.mul_le_mono_r; lia).
    destruct (Nat.eqb_spec len 0) as [E|NE].
    + assert (n = 0); [|lia].
      assert (Hz : (Z.of_nat n = 0)%Z); [|lia].
      rewrite Hn, E. apply Z.div_small. lia.
    + fold bs. lia.
  - intros i Hi. rewrite length_map, length_seq in Hi.
    rewrite (nth_indep _ [] (firstn bs (skipn (0 * bs) prompts)))
      by (rewrite length_map, length_seq; lia).
    rewrite (map_nth (fun i => firstn bs (skipn (i * bs) prompts))),
      seq_nth by lia.
    cbn [Nat.add]. rewrite Hlen by lia. fold bs.
    assert ((S i) * bs <= (n - 1) * bs) by (apply Nat.mul_le_mono_r; lia).
    destruct (Nat.eqb_spec len 0); lia.
Qed.

Lemma prompt_lists_lengths (prompt_file homoglyph : str) (num_images : Z) :
  length (clean_prompts prompt_file num_images)
  = length (readlines prompt_file) * Z.to_nat num_images /\
  length (homoglyph_prompts prompt_file num_images homoglyph)
  = length (readlines prompt_file) * Z.to_nat num_images.
Proof.
  unfold clean_prompts, homoglyph_prompts.
  now rewrite !repeat_each_length, !length_map.
Qed.

Section GenerationProperties.
Variables Image Generator TextEncoder : Type.
Variable generate :
  list str -> TextEncoder -> Generator -> list Image * Generator.
Variable manual_seed : Z -> Generator.

Lemma generate_loop_each (prompts : list str) (te : TextEncoder) (bs : nat)
    (batches : list nat) (images : list Image) (g : Generator) :
  generate_loop generate prompts te bs batches images g
  = generate_each generate
      (map (fun i => firstn bs (skipn (i * bs) prompts)) batches) te images g.
Proof.
  revert images g; induction batches as [|i batches IH]; intros images g;
    cbn [generate_loop generate_each map]; [reflexivity|].
  rewrite slice_chunk.
  destruct (generate (firstn bs (skipn (i * bs) prompts)) te g) as [new g'].
  apply IH.
Qed.

(** The loop over the batches, for any list of prompts. *)
Lemma batches_generated (prompts : list str) (te : TextEncoder)
    (batch_size : Z) :
  (Z.of_nat (length prompts) < 2 ^ 53)%Z -> (0 < batch_size < 2 ^ 53)%Z ->
  exists chunks,
    chunked prompts batch_size chunks /\
    (let* q := int_true_divide (Z.of_nat (length prompts)) batch_size in
     let* n := math_ceil q in
     let (images, _) :=
       generate_loop generate prompts te (Z.to_nat batch_size)
         (seq 0 (Z.to_nat n)) [] (manual_seed 0) in
     Ok images)
    = Ok (fst (generate_each generate chunks te [] (manual_seed 0))).
Proof.
  intros Hlen Hbs.
  pose proof (true_divide_ceil (Z.of_nat (length prompts)) batch_size
                ltac:(lia) Hbs) as Hceil.
  destruct (int_true_divide (Z.of_nat (length prompts)) batch_size)
    as [q|e]; [|discriminate Hceil].
  cbn [bind] in Hceil |- *. rewrite Hceil. cbn [bind].
  eexists. split; [apply chunks_chunked; lia|].
  rewrite generate_loop_each.
  now destruct (generate_each _ _ _ _ _).
Qed.

Lemma batches_not_generated (prompts : list str) (te : TextEncoder)
    (batch_size : Z) :
  (Z.of_nat (length prompts) < 2 ^ 53)%Z -> (- 2 ^ 53 < batch_size < 0)%Z ->
  (let* q := int_true_divide (Z.of_nat (length prompts)) batch_size in
   let* n := math_ceil q in
   let (images, _) :=
     generate_loop generate prompts te (Z.to_nat batch_size)
       (seq 0 (Z.to_nat n)) [] (manual_seed 0) in
   Ok images)
  = Ok [].
Proof.
  intros Hlen Hbs.
  destruct (true_divide_ceil_neg (Z.of_nat (length prompts)) batch_size
              ltac:(lia) Hbs) as (n & Hceil & Hn).
  destruct (int_true_divide (Z.of_nat (length prompts)) batch_size)
    as [q|e]; [|discriminate Hceil].
  cbn [bind] in Hceil |- *. rewrite Hceil. cbn [bind].
  replace (Z.to_nat n) with 0 by lia. reflexivity.
Qed.

Lemma generate_each_length (chunks : list (list str)) (te : TextEncoder)
    (images : list Image) (g : Generator) :
  (forall ps te g, length (fst (generate ps te g)) = length ps) ->
  length (fst (generate_each generate chunks te images g))
  = length images + length (concat chunks).
Proof.
  intros Hgen. revert images g; induction chunks as [|c chunks IH];
    intros images g; cbn [generate_each concat]; [cbn; lia|].
  specialize (Hgen c te g).
  destruct (generate c te g) as [new g']. cbn [fst] in Hgen.
  rewrite IH, !length_app, Hgen. lia.
Qed.

(** X19.  For a batch size between 1 and [2^53] and fewer than [2^53]
    prompts, [generate_clean_samples] and [generate_homoglyph_samples] return,
    and what they return is [generate] called once per batch, on consecutive
    batches of [batch_size] prompts (the last one shorter, none empty) that
    together are the whole list of prompts, in order, with one generator
    seeded with 0 going from call to call: [ceil(len / batch_size)] calls,
    the quotient taken in doubles. *)
Theorem samples_generated_in_batches (prompt_file homoglyph : str)
    (te : TextEncoder) (num_images batch_size : Z) :
  (0 < batch_size < 2 ^ 53)%Z ->
  (Z.of_nat (length (readlines prompt_file) * Z.to_nat num_images) < 2 ^ 53)%Z ->
  (exists chunks,
     chunked (clean_prompts prompt_file num_images) batch_size chunks /\
     generate_clean_samples generate manual_seed prompt_file te num_images
       batch_size
     = Ok (fst (generate_each generate chunks te [] (manual_seed 0)))) /\
  (exists chunks,
     chunked (homoglyph_prompts prompt_file num_images homoglyph) batch_size
       chunks /\
     generate_homoglyph_samples generate manual_seed prompt_file te num_images
       batch_size homoglyph
     = Ok (fst (generate_each generate chunks te [] (manual_seed 0)))).
Proof.
  intros Hbs Hlen.
  destruct (prompt_lists_lengths prompt_file homoglyph num_images)
    as [Hc Hh].
  split.
  - apply batches_generated; [|exact Hbs]. now rewrite Hc.
  - apply batches_generated; [|exact Hbs]. now rewrite Hh.
Qed.

(** X20.  When [generate] gives one image per prompt, both functions return
    one image per prompt: [num_images] images per line of the template file,
    as many clean images as homoglyph images, and as many as
    [get_target_prompts] has prompts, whatever the batch size (between 1 and
    [2^53]) is. *)
Theorem one_image_per_prompt (prompt_file homoglyph target_culture : str)
    (te : TextEncoder) (num_images batch_size : Z) :
  (forall ps te g, length (fst (generate ps te g)) = length ps) ->
  (0 < batch_size < 2 ^ 53)%Z ->
  (Z.of_nat (length (readlines prompt_file) * Z.to_nat num_images) < 2 ^ 53)%Z ->
  exists clean_images homoglyph_images : list Image,
    generate_clean_samples generate manual_seed prompt_file te num_images
      batch_size = Ok clean_images /\
    generate_homoglyph_samples generate manual_seed prompt_file te num_images
      batch_size homoglyph = Ok homoglyph_images /\
    length clean_images = length (readlines prompt_file) * Z.to_nat num_images /\
    length homoglyph_images = length clean_images /\
    length (get_target_prompts prompt_file target_culture num_images)
    = length clean_images.
Proof.
  intros Hgen Hbs Hlen.
  destruct (prompt_lists_lengths prompt_file homoglyph num_images)
    as [Hc Hh].
  destruct (batches_generated (clean_prompts prompt_file num_images) te
              batch_size) as (cc & (Hcc & _) & Hclean);
    [now rewrite Hc | exact Hbs |].
  destruct (batches_generated
              (homoglyph_prompts prompt_file num_images homoglyph) te
              batch_size) as (ch & (Hch & _) & Hglyph);
    [now rewrite Hh | exact Hbs |].
  do 2 eexists. split; [exact Hclean|]. split; [exact Hglyph|].
  rewrite !generate_each_length by exact Hgen.
  rewrite Hcc, Hch, Hc, Hh. cbn [length Nat.add].
  repeat split.
  unfold get_target_prompts. now rewrite repeat_each_length, !length_map.
Qed.

(** X21.  A batch size of 0 makes both functions raise [ZeroDivisionError];
    with a negative batch size they raise nothing: the number of batches is
    not positive, [generate] is never called and the result is the empty
    list. *)
Theorem batch_size_not_positive (prompt_file homoglyph : str)
    (te : TextEncoder) (num_images batch_size : Z) :
  (batch_size = 0%Z ->
   generate_clean_samples generate manual_seed prompt_file te num_images
     batch_size = Raise ZeroDivisionError /\
   generate_homoglyph_samples generate manual_seed prompt_file te num_images
     batch_size homoglyph = Raise ZeroDivisionError) /\
  ((- 2 ^ 53 < batch_size < 0)%Z ->
   (Z.of_nat (length (readlines prompt_file) * Z.to_nat num_images) < 2 ^ 53)%Z ->
   generate_clean_samples generate manual_seed prompt_file te num_images
     batch_size = Ok [] /\
   generate_homoglyph_samples generate manual_seed prompt_file te num_images
     batch_size homoglyph = Ok []).
Proof.
  destruct (prompt_lists_lengths prompt_file homoglyph num_images)
    as [Hc Hh].
  split.
  - intros ->. split; reflexivity.
  - intros Hbs Hlen. split.
    + apply batches_not_generated; [|exact Hbs]. now rewrite Hc.
    + apply batches_not_generated; [|exact Hbs]. now rewrite Hh.
Qed.

End GenerationProperties.

Lemma samples_generated_in_batches_witness :
  (exists chunks,
     chunked (clean_prompts template_1 2) 3 chunks /\
     generate_clean_samples generate_1 manual_seed_1 template_1 tt 2 3
     = Ok (fst (generate_each generate_1 chunks tt [] (manual_seed_1 0)))) /\
  (exists chunks,
     chunked (homoglyph_prompts template_1 2 omicron_str) 3 chunks /\
     generate_homoglyph_samples generate_1 manual_seed_1 template_1 tt 2 3
       omicron_str
     = Ok (fst (generate_each generate_1 chunks tt [] (manual_seed_1 0)))).
Proof.
  apply (samples_generated_in_batches (list N) nat unit generate_1
           manual_seed_1 template_1 omicron_str tt 2 3).
  - split; reflexivity.
  - vm_compute. reflexivity.
Defined.

Lemma one_image_per_prompt_witness :
  exists clean_images homoglyph_images : list (list N),
    generate_clean_samples generate_1 manual_seed_1 template_1 tt 2 3
    = Ok clean_images /\
    generate_homoglyph_samples generate_1 manual_seed_1 template_1 tt 2 3
      omicron_str = Ok homoglyph_images /\
    length clean_images = length (readlines template_1) * Z.to_nat 2 /\
    length homoglyph_images = length clean_images /\
    length (get_target_prompts template_1 greek_str 2) = length clean_images.
Proof.
  apply (one_image_per_prompt (list N) nat unit generate_1 manual_seed_1
           template_1 omicron_str greek_str tt 2 3).
  - intros ps te g. reflexivity.
  - split; reflexivity.
  - vm_compute. reflexivity.
Defined.

(** The same run, evaluated: four prompts in batches of three and one. *)
Lemma generate_clean_samples_1 :
  generate_clean_samples generate_1 manual_seed_1 template_1 tt 2 3
  = Ok [[97; 32; 98]; [97; 32; 98]; [99]; [99]]%N /\
  generate_loop generate_1 (clean_prompts template_1 2) tt 3 [0; 1] [] 0
  = ([[97; 32; 98]; [97; 32; 98]; [99]; [99]]%N, 2) /\
  generate_clean_samples generate_1 manual_seed_1 template_1 tt 2 (-3)
  = Ok [] /\
  generate_clean_samples generate_1 manual_seed_1 template_1 tt 2 0
  = Raise ZeroDivisionError.
Proof. vm_compute. repeat split. Qed.

(* ================================================================== *)
(** * The batches of a training step of [homoglyph_unlearning.py] *)

(** ** The batches of a training step *)

Lemma startswith_app (new t : str) : startswith (new ++ t) new = true.
Proof.
  induction new as [|c new IH]; cbn [app startswith]; [reflexivity|].
  now rewrite N.eqb_refl, IH.
Qed.

Lemma contains_nil (s : str) : contains s [] = true.
Proof. destruct s; reflexivity. Qed.

Lemma contains_cons (c : N) (s sub : str) :
  contains s sub = true -> contains (c :: s) sub = true.
Proof. intros Hs. cbn [contains]. rewrite Hs. apply orb_true_r. Qed.

Lemma contains_app_r (pre s sub : str) :
  contains s sub = true -> contains (pre ++ s) sub = true.
Proof.
  intros Hs. induction pre as [|c pre IH]; cbn [app]; [exact Hs|].
  now apply contains_cons.
Qed.

Lemma contains_prefix (new t : str) : contains (new ++ t) new = true.
Proof.
  destruct (new ++ t) as [|c r] eqn:E; cbn [contains];
    rewrite <- E, startswith_app; reflexivity.
Qed.

(** Where something is replaced, the replacement is found afterwards. *)
Lemma replace_contains (s old new : str) (count : Z) :
  contains s old = true -> count <> 0%Z ->
  contains (replace s old new count) new = true.
Proof.
  intros Hs Hcount. unfold replace. destruct old as [|c old].
  - clear Hs. destruct s as [|d s]; cbn [interleave];
      destruct (Z.eqb_spec count 0) as [E|_]; try contradiction.
    + rewrite <- (app_nil_r new) at 1. apply contains_prefix.
    + apply contains_prefix.
  - revert count Hcount.
    induction s as [|d s IH]; intros count Hcount;
      [cbn in Hs; discriminate|].
    cbn [replace_from].
    destruct (Z.eqb_spec count 0) as [E|_]; [contradiction|]. cbn [negb andb].
    destruct (startswith (d :: s) (c :: old)) eqn:Hsw.
    + apply contains_prefix.
    + apply contains_cons. apply IH; [|exact Hcount].
      cbn [contains] in Hs. rewrite Hsw in Hs. exact Hs.
Qed.

Lemma filter_filter {E : Type} (f g : E -> bool) (l : list E) :
  filter f (filter g l) = filter (fun x => g x && f x) l.
Proof.
  induction l as [|x l IH]; cbn [filter]; [reflexivity|].
  destruct (g x); cbn [filter andb]; [destruct (f x)|]; now rewrite IH.
Qed.

Lemma remove_homoglyphed_filter (hs : list homoglyph_entry) (batch : list str) :
  remove_homoglyphed hs batch = filter (free_of_homoglyphs hs) batch.
Proof.
  unfold remove_homoglyphed, free_of_homoglyphs.
  revert batch; induction hs as [|h hs IH]; intros batch; cbn [fold_left].
  - cbn [forallb]. induction batch as [|x l IHl]; cbn [filter];
      [reflexivity | now rewrite <- IHl].
  - rewrite IH, filter_filter. apply filter_ext. intros x. reflexivity.
Qed.

Lemma remove_homoglyphed_free (hs : list homoglyph_entry) (batch : list str) :
  Forall (fun s => free_of_homoglyphs hs s = true)
         (remove_homoglyphed hs batch).
Proof.
  rewrite remove_homoglyphed_filter. apply Forall_forall. intros s Hs.
  now apply filter_In in Hs.
Qed.

Lemma poisoned_samples_eq (config : Config) (h : homoglyph_entry)
    (batch : list str) :
  poisoned_samples config h batch
  = map (poison config h)
        (filter (fun sample => contains sample (replaced_character h)) batch).
Proof.
  unfold poisoned_samples, poison.
  destruct (homoglyph_count config) as [[|c|c]|]; reflexivity.
Qed.

Lemma next_batch_productive (config : Config) (dl : DataLoader) :
  productive config dl ->
  exists batch dl',
    next_batch dl = Some (batch, dl') /\ yields config batch /\
    productive config dl'.
Proof.
  intros [Hpend Hpass]. unfold next_batch.
  destruct (pending dl) as [|b rest] eqn:Hp.
  - cbn [iter pending passes begun].
    destruct (Hpass (begun dl)) as [Hne Hall].
    destruct (passes dl (begun dl)) as [|b rest]; [congruence|].
    exists b. eexists. split; [reflexivity|].
    apply Forall_cons_iff in Hall as [Hb Hrest].
    split; [exact Hb|]. split; [exact Hrest | exact Hpass].
  - exists b. eexists. split; [reflexivity|].
    apply Forall_cons_iff in Hpend as [Hb Hrest].
    split; [exact Hb|]. split; [exact Hrest | exact Hpass].
Qed.

Section StepBatches.
Variable config : Config.

Let hs := homoglyphs config.
Let cbs := Pos.to_nat (clean_batch_size config).
Let num := Z.to_nat (poisoned_samples_per_step config).

(** What the clean loop keeps true: only samples free of homoglyphs are
    gathered, and the last batch is the tail of what was gathered. *)
Lemma clean_batch_loop_Done (fuel : nat) (dl dl' : DataLoader)
    (acc batch acc' batch' : list str) :
  clean_batch_loop fuel config dl acc batch = Done (acc', batch', dl') ->
  Forall (fun s => free_of_homoglyphs hs s = true) acc ->
  (exists earlier, acc = earlier ++ batch /\ length earlier < cbs) ->
  Forall (fun s => free_of_homoglyphs hs s = true) acc' /\
  cbs <= length acc' /\
  exists earlier, acc' = earlier ++ batch' /\ length earlier < cbs.
Proof.
  revert dl acc batch; induction fuel as [|fuel IH]; intros dl acc batch;
    cbn [clean_batch_loop]; fold cbs;
    destruct (Nat.ltb_spec (length acc) cbs) as [Hlt|Hge];
    try discriminate;
    try (intros [= <- <- <-] Hfree Hinv; repeat split; assumption).
  destruct (next_batch dl) as [[b dl1]|]; [|discriminate].
  intros Hrun Hfree _. apply (IH _ _ _ Hrun).
  - apply Forall_app. split; [exact Hfree | apply remove_homoglyphed_free].
  - exists acc. split; [reflexivity | exact Hlt].
Qed.

Lemma clean_batch_loop_total (fuel : nat) (dl : DataLoader)
    (acc batch : list str) :
  productive config dl -> cbs - length acc <= fuel ->
  exists acc' batch' dl',
    clean_batch_loop fuel config dl acc batch = Done (acc', batch', dl') /\
    productive config dl'.
Proof.
  revert dl acc batch; induction fuel as [|fuel IH]; intros dl acc batch Hp Hf;
    cbn [clean_batch_loop]; fold cbs;
    destruct (Nat.ltb_spec (length acc) cbs) as [Hlt|Hge];
    try lia; try (do 3 eexists; split; [reflexivity | exact Hp]).
  destruct (next_batch_productive config dl Hp) as (b & dl1 & -> & [Hb _] & Hp1).
  apply IH; [exact Hp1|]. rewrite length_app.
  destruct (remove_homoglyphed (homoglyphs config) b); [congruence|].
  cbn [length]. lia.
Qed.

(** What the poisoning loop keeps true. *)
Lemma homoglyph_batch_loop_Done (fuel : nat) (h : homoglyph_entry)
    (dl dl' : DataLoader) (bh bc bh' bc' : list str) :
  homoglyph_batch_loop fuel config h dl bh bc = Done (bh', bc', dl') ->
  bh = map (poison config h) bc -> length bh <= num ->
  Forall (fun s => contains s (replaced_character h) = true /\
                   free_of_homoglyphs hs s = true) bc ->
  bh' = map (poison config h) bc' /\ length bh' = num /\
  Forall (fun s => contains s (replaced_character h) = true /\
                   free_of_homoglyphs hs s = true) bc'.
Proof.
  revert dl bh bc; induction fuel as [|fuel IH]; intros dl bh bc;
    cbn [homoglyph_batch_loop];
    destruct (Z.ltb_spec (Z.of_nat (length bh))
                (poisoned_samples_per_step config)) as [Hlt|Hge];
    try discriminate;
    try (intros [= <- <- <-] Hmap Hlen Hall; repeat split;
         [exact Hmap | unfold num in *; lia | exact Hall]).
  destruct (next_batch dl) as [[b dl1]|]; [|discriminate].
  intros Hrun Hmap Hlen Hall. apply (IH _ _ _ Hrun).
  - rewrite poisoned_samples_eq, Hmap, <- map_app. apply firstn_map.
  - fold num. rewrite length_firstn. lia.
  - apply Forall_forall. intros s Hs. apply In_firstn in Hs.
    apply in_app_or in Hs as [Hs|Hs].
    + rewrite Forall_forall in Hall. now apply Hall.
    + apply filter_In in Hs as [Hs Hrc]. split; [exact Hrc|].
      pose proof (remove_homoglyphed_free hs b) as Hfree.
      rewrite Forall_forall in Hfree. now apply Hfree.
Qed.

Lemma homoglyph_batch_loop_total (fuel : nat) (h : homoglyph_entry)
    (dl : DataLoader) (bh bc : list str) :
  productive config dl -> In h hs -> length bh <= num ->
  num - length bh <= fuel ->
  exists bh' bc' dl',
    homoglyph_batch_loop fuel config h dl bh bc = Done (bh', bc', dl') /\
    productive config dl'.
Proof.
  intros Hp Hh. revert dl bh bc Hp; induction fuel as [|fuel IH];
    intros dl bh bc Hp Hlen Hf; cbn [homoglyph_batch_loop];
    destruct (Z.ltb_spec (Z.of_nat (length bh))
                (poisoned_samples_per_step config)) as [Hlt|Hge];
    try (unfold num in *; lia);
    try (do 3 eexists; split; [reflexivity | exact Hp]).
  destruct (next_batch_productive config dl Hp) as (b & dl1 & -> & [_ Hb] & Hp1).
  specialize (Hb h Hh).
  apply IH; [exact Hp1 | |]; fold num; rewrite length_firstn, length_app,
    poisoned_samples_eq, length_map;
    destruct (filter _ (remove_homoglyphed (homoglyphs config) b));
    try congruence; cbn [length]; lia.
Qed.

Lemma homoglyph_batches_loop_Done (fuel : nat) (l : list homoglyph_entry)
    (dl dl' : DataLoader) (acc res : list (list str * list str)) :
  homoglyph_batches_loop fuel config l dl acc = Done (res, dl') ->
  exists res', res = acc ++ res' /\ Forall2 (paired config) l res'.
Proof.
  revert dl acc; induction l as [|h l IH]; intros dl acc;
    cbn [homoglyph_batches_loop].
  - intros [= <- <-]. exists []. split; [now rewrite app_nil_r | constructor].
  - destruct (homoglyph_batch_loop fuel config h dl [] [])
      as [[[bh bc] dl1]| |] eqn:Hloop; try discriminate.
    intros Hrun. destruct (IH _ _ Hrun) as (res' & -> & Hall).
    exists ((bh, bc) :: res'). split; [now rewrite <- app_assoc|].
    constructor; [|exact Hall].
    apply (homoglyph_batch_loop_Done _ _ _ _ _ _ _ _ Hloop);
      [reflexivity | cbn [length]; lia | constructor].
Qed.

Lemma homoglyph_batches_loop_total (fuel : nat) (l : list homoglyph_entry)
    (dl : DataLoader) (acc : list (list str * list str)) :
  productive config dl -> incl l hs -> num <= fuel ->
  exists res dl',
    homoglyph_batches_loop fuel config l dl acc = Done (res, dl') /\
    productive config dl'.
Proof.
  intros Hp Hl Hf. revert dl acc Hp; induction l as [|h l IH];
    intros dl acc Hp; cbn [homoglyph_batches_loop].
  - do 2 eexists. split; [reflexivity | exact Hp].
  - destruct (homoglyph_batch_loop_total fuel h dl [] [] Hp)
      as (bh & bc & dl1 & -> & Hp1);
      [apply Hl; now left | cbn [length]; lia | cbn [length]; lia |].
    apply IH; [|exact Hp1]. intros x Hx. apply Hl. now right.
Qed.

End StepBatches.

Lemma training_step_Done (fuel : nat) (config : Config) (dl dl' : DataLoader)
    (sb : step_batches) :
  training_step fuel config dl = Done (sb, dl') ->
  exists acc dl1,
    clean_batch_loop fuel config dl [] []
      = Done (acc, utility_batch sb, dl1) /\
    batch_clean sb = firstn (Pos.to_nat (clean_batch_size config)) acc /\
    homoglyph_batches_loop fuel config (homoglyphs config) dl1 []
      = Done (homoglyph_batches sb, dl').
Proof.
  unfold training_step.
  destruct (clean_batch_loop fuel config dl [] [])
    as [[[acc batch] dl1]| |]; try discriminate.
  destruct (homoglyph_batches_loop fuel config (homoglyphs config) dl1 [])
    as [[hb dl2]| |] eqn:Hloop; try discriminate.
  intros [= <- <-]. exists acc, dl1.
  cbn [utility_batch batch_clean homoglyph_batches].
  split; [reflexivity|]. split; [reflexivity | exact Hloop].
Qed.

Lemma Forall2_In_l {E E' : Type} (R : E -> E' -> Prop) (l : list E)
    (l' : list E') :
  Forall2 R l l' -> Forall2 (fun x y => In x l /\ R x y) l l'.
Proof.
  induction 1 as [|x y l l' Hxy _ IH]; constructor.
  - split; [now left | exact Hxy].
  - eapply Forall2_impl; [|exact IH]. intros a b [Ha Hab].
    split; [now right | exact Hab].
Qed.

Lemma free_of_homoglyphs_In (hs : list homoglyph_entry) (h : homoglyph_entry)
    (s : str) :
  free_of_homoglyphs hs s = true -> In h hs -> contains s (homoglyph h) = false.
Proof.
  unfold free_of_homoglyphs. rewrite forallb_forall. intros Hall Hh.
  apply negb_true_iff. now apply Hall.
Qed.

Lemma poison_contains (config : Config) (h : homoglyph_entry) (s : str) :
  contains s (replaced_character h) = true ->
  contains (poison config h s) (homoglyph h) = true.
Proof.
  intros Hs. unfold poison. apply replace_contains; [exact Hs|].
  destruct (homoglyph_count config) as [[|c|c]|]; discriminate.
Qed.

(** X13.  On a loader every batch of which yields, a step with enough fuel
    gathers its batches and returns: [batch_clean] has exactly
    [clean_batch_size] samples, none of them contains a configured
    homoglyph, and there is one pair of batches per configured homoglyph. *)
Theorem training_step_gathers (config : Config) (dl : DataLoader)
    (fuel : nat) :
  productive config dl ->
  Pos.to_nat (clean_batch_size config) <= fuel ->
  Z.to_nat (poisoned_samples_per_step config) <= fuel ->
  exists sb dl',
    training_step fuel config dl = Done (sb, dl') /\
    productive config dl' /\
    length (batch_clean sb) = Pos.to_nat (clean_batch_size config) /\
    Forall (fun s => free_of_homoglyphs (homoglyphs config) s = true)
           (batch_clean sb) /\
    length (homoglyph_batches sb) = length (homoglyphs config).
Proof.
  intros Hp Hc Hn. unfold training_step.
  destruct (clean_batch_loop_total config fuel dl [] [] Hp)
    as (acc & batch & dl1 & Hclean & Hp1); [cbn [length]; lia|].
  rewrite Hclean.
  destruct (homoglyph_batches_loop_total config fuel (homoglyphs config)
              dl1 [] Hp1 (incl_refl _) Hn) as (res & dl2 & Hloop & Hp2).
  rewrite Hloop. do 2 eexists. split; [reflexivity|]. cbn [batch_clean
    homoglyph_batches]. split; [exact Hp2|].
  destruct (clean_batch_loop_Done config _ _ _ _ _ _ _ Hclean)
    as (Hfree & Hlen & _);
    [constructor | exists []; split; [reflexivity | cbn [length]; lia] |].
  destruct (homoglyph_batches_loop_Done config _ _ _ _ _ _ Hloop)
    as (res' & -> & Hall).
  repeat split.
  - rewrite length_firstn. lia.
  - apply Forall_forall. intros s Hs. apply In_firstn in Hs.
    rewrite Forall_forall in Hfree. now apply Hfree.
  - cbn [app]. symmetry. eapply Forall2_length; eauto.
Qed.

(** X14.  The batch handed to the tokenizer for the utility loss is [batch],
    the last batch fetched, after filtering: the tail of the samples gathered,
    of which [batch_clean] is the first [clean_batch_size].  The two are the
    same when nothing was gathered before it and it has [clean_batch_size]
    samples; they differ whenever it has another size. *)
Theorem utility_batch_is_last_batch (config : Config) (dl dl' : DataLoader)
    (fuel : nat) (sb : step_batches) :
  training_step fuel config dl = Done (sb, dl') ->
  let cbs := Pos.to_nat (clean_batch_size config) in
  exists earlier : list str,
    batch_clean sb = firstn cbs (earlier ++ utility_batch sb) /\
    length earlier < cbs <= length (earlier ++ utility_batch sb) /\
    (earlier = [] -> length (utility_batch sb) = cbs ->
     utility_batch sb = batch_clean sb) /\
    (length (utility_batch sb) <> cbs -> utility_batch sb <> batch_clean sb).
Proof.
  intros Hstep cbs.
  destruct (training_step_Done _ _ _ _ _ Hstep) as (acc & dl1 & Hclean & Hbc & _).
  destruct (clean_batch_loop_Done config _ _ _ _ _ _ _ Hclean)
    as (_ & Hlen & earlier & -> & Hearlier);
    [constructor | exists []; split; [reflexivity | cbn [length]; lia] |].
  fold cbs in Hbc, Hlen, Hearlier.
  exists earlier. split; [exact Hbc|]. split; [lia|].
  rewrite Hbc. rewrite length_app in Hlen. split.
  - intros -> Hl. cbn [app]. symmetry. apply firstn_all2. lia.
  - intros Hne Heq. apply (f_equal (@length _)) in Heq.
    rewrite length_firstn, length_app in Heq. lia.
Qed.

(** X15.  For each configured homoglyph, in order, the poisoned batch and
    the clean batch gathered for it stay aligned: both have
    [poisoned_samples_per_step] samples, the poisoned batch is the clean one
    poisoned sample by sample, and every clean sample contains the character
    to replace and no configured homoglyph. *)
Theorem poisoned_batches_aligned (config : Config) (dl dl' : DataLoader)
    (fuel : nat) (sb : step_batches) :
  training_step fuel config dl = Done (sb, dl') ->
  Forall2 (paired config) (homoglyphs config) (homoglyph_batches sb).
Proof.
  intros Hstep.
  destruct (training_step_Done _ _ _ _ _ Hstep) as (acc & dl1 & _ & _ & Hloop).
  destruct (homoglyph_batches_loop_Done config _ _ _ _ _ _ Hloop)
    as (res' & -> & Hall).
  exact Hall.
Qed.

(** X16.  Every poisoned sample contains its homoglyph, its clean counterpart
    does not: the two samples of a pair always differ. *)
Theorem poisoned_samples_differ (config : Config) (dl dl' : DataLoader)
    (fuel : nat) (sb : step_batches) :
  training_step fuel config dl = Done (sb, dl') ->
  Forall2
    (fun h pair =>
       Forall2 (fun poisoned clean =>
                  contains poisoned (homoglyph h) = true /\
                  contains clean (homoglyph h) = false /\
                  poisoned <> clean)
               (fst pair) (snd pair))
    (homoglyphs config) (homoglyph_batches sb).
Proof.
  intros Hstep.
  destruct (training_step_Done _ _ _ _ _ Hstep) as (acc & dl1 & _ & _ & Hloop).
  destruct (homoglyph_batches_loop_Done config _ _ _ _ _ _ Hloop)
    as (res' & -> & Hall).
  cbn [app]. apply Forall2_In_l in Hall.
  eapply Forall2_impl; [|exact Hall].
  intros h [bh bc] (Hh & -> & _ & Hbc). cbn [fst snd].
  clear -Hh Hbc. induction Hbc as [|s bc [Hrc Hfree] _ IH]; cbn [map];
    constructor; [|exact IH].
  pose proof (poison_contains config h s Hrc) as Hp.
  pose proof (free_of_homoglyphs_In _ h s Hfree Hh) as Hs.
  repeat split; [exact Hp | exact Hs |]. intros E. congruence.
Qed.

Lemma remove_homoglyphed_empty (hs : list homoglyph_entry)
    (h : homoglyph_entry) (batch : list str) :
  In h hs -> homoglyph h = [] -> remove_homoglyphed hs batch = [].
Proof.
  intros Hh He. rewrite remove_homoglyphed_filter.
  induction batch as [|s batch IH]; cbn [filter]; [reflexivity|].
  replace (free_of_homoglyphs hs s) with false; [exact IH|].
  symmetry. apply not_true_is_false. intros Hfree.
  apply (free_of_homoglyphs_In _ h) in Hfree; [|exact Hh].
  rewrite He, contains_nil in Hfree. discriminate.
Qed.

(** X17.  A configured homoglyph that is the empty string is found in every
    sample: every batch is filtered to nothing and the step never gets its
    clean batch, whatever the data and however long it runs. *)
Theorem empty_homoglyph_never_returns (config : Config) (h : homoglyph_entry) :
  In h (homoglyphs config) -> homoglyph h = [] ->
  forall fuel dl r, training_step fuel config dl <> Done r.
Proof.
  intros Hh He fuel dl r.
  assert (Hloop : forall fuel dl batch r',
            clean_batch_loop fuel config dl [] batch <> Done r').
  { clear fuel dl r. induction fuel as [|fuel IH]; intros dl batch r';
      cbn [clean_batch_loop length].
    - destruct (Nat.ltb_spec 0 (Pos.to_nat (clean_batch_size config)));
        [discriminate | lia].
    - destruct (Nat.ltb_spec 0 (Pos.to_nat (clean_batch_size config)));
        [|lia].
      destruct (next_batch dl) as [[b dl1]|]; [|discriminate].
      rewrite (remove_homoglyphed_empty _ h b Hh He). cbn [app]. apply IH. }
  unfold training_step.
  destruct (clean_batch_loop fuel config dl [] []) as [res| |] eqn:Hc;
    try discriminate.
  now apply Hloop in Hc.
Qed.

Lemma count_occ_absent (l : list N) (c : N) :
  ~ In c l -> count_occ N.eq_dec l c = 0.
Proof. apply count_occ_not_In. Qed.

(** Replacing a character: how many of its occurrences are left. *)
Lemma replace_char_count_occ (s new : str) (c : N) (count : Z) :
  ~ In c new ->
  count_occ N.eq_dec (replace s [c] new count) c
  = count_occ N.eq_dec s c
    - (if (count <? 0)%Z then count_occ N.eq_dec s c
       else Nat.min (Z.to_nat count) (count_occ N.eq_dec s c)).
Proof.
  intros Hnew. unfold replace. revert count.
  induction s as [|x s IH]; intros count; cbn [replace_from count_occ].
  - now destruct (count <? 0)%Z.
  - cbn [startswith length Nat.sub]. rewrite andb_true_r.
    destruct (Z.eqb_spec count 0) as [->|Hc]; cbn [negb andb].
    + cbn [count_occ]. rewrite IH. cbn.
      destruct (N.eq_dec x c); lia.
    + destruct (N.eqb_spec c x) as [<-|Hne].
      * rewrite count_occ_app, (count_occ_absent new c Hnew), IH.
        destruct (N.eq_dec c c) as [_|E]; [|congruence].
        destruct (Z.ltb_spec count 0) as [Hneg|Hpos].
        -- destruct (Z.ltb_spec (count - 1) 0); lia.
        -- destruct (Z.ltb_spec (count - 1) 0); [lia|].
           replace (Z.to_nat count) with (S (Z.to_nat (count - 1))) by lia.
           cbn [Nat.min]. lia.
      * cbn [count_occ]. rewrite IH.
        destruct (N.eq_dec x c) as [E|_]; [congruence|]. reflexivity.
Qed.

Lemma poison_count_occ (config : Config) (h : homoglyph_entry) (s : str)
    (c : N) :
  replaced_character h = [c] -> ~ In c (homoglyph h) ->
  count_occ N.eq_dec (poison config h s) c
  = count_occ N.eq_dec s c
    - replaced_occurrences config (count_occ N.eq_dec s c).
Proof.
  intros Hrc Hc. unfold poison, replaced_occurrences. rewrite Hrc.
  rewrite replace_char_count_occ by exact Hc.
  destruct (homoglyph_count config) as [[|k|k]|]; cbn [Z.ltb Z.compare];
    reflexivity.
Qed.

(** X18.  When the character to replace is a single character the homoglyph
    does not contain, a poisoned sample has lost all its occurrences of it,
    or [homoglyph_count] of them at most when that is positive; its clean
    counterpart has at least one. *)
Theorem poisoned_samples_lose_character (config : Config)
    (dl dl' : DataLoader) (fuel : nat) (sb : step_batches) :
  training_step fuel config dl = Done (sb, dl') ->
  Forall2
    (fun h pair =>
       forall c : N,
         replaced_character h = [c] -> ~ In c (homoglyph h) ->
         Forall2 (fun poisoned clean =>
                    let occ := count_occ N.eq_dec clean c in
                    1 <= occ /\
                    count_occ N.eq_dec poisoned c
                    = occ - replaced_occurrences config occ)
                 (fst pair) (snd pair))
    (homoglyphs config) (homoglyph_batches sb).
Proof.
  intros Hstep.
  destruct (training_step_Done _ _ _ _ _ Hstep) as (acc & dl1 & _ & _ & Hloop).
  destruct (homoglyph_batches_loop_Done config _ _ _ _ _ _ Hloop)
    as (res' & -> & Hall).
  cbn [app]. eapply Forall2_impl; [|exact Hall].
  intros h [bh bc] (-> & _ & Hbc) c Hrc Hc. cbn [fst snd].
  induction Hbc as [|s bc [Hs _] _ IH]; cbn [map]; constructor; [|exact IH].
  split; [|now apply poison_count_occ].
  rewrite Hrc in Hs. apply count_occ_In.
  clear -Hs. induction s as [|x s IH]; [discriminate Hs|].
  cbn [contains startswith] in Hs. rewrite andb_true_r in Hs.
  apply orb_prop in Hs as [Hx|Hs].
  - left. symmetry. now apply N.eqb_eq.
  - right. now apply IH.
Qed.

(** Witnesses on the loader [loader_1]. *)

Lemma loader_1_productive : productive config_1 loader_1.
Proof.
  assert (Hy : Forall (yields config_1) (pending loader_1)).
  { repeat constructor; try (intros E; discriminate E);
      intros h [<-|[]] E; discriminate E. }
  split; [exact Hy|]. intros n. split; [discriminate | exact Hy].
Qed.

Lemma training_step_gathers_witness :
  exists sb dl',
    training_step 2 config_1 loader_1 = Done (sb, dl') /\
    productive config_1 dl' /\
    length (batch_clean sb) = 2 /\
    Forall (fun s => free_of_homoglyphs [omicron] s = true) (batch_clean sb) /\
    length (homoglyph_batches sb) = 1.
Proof.
  apply (training_step_gathers config_1 loader_1 2).
  - exact loader_1_productive.
  - vm_compute. lia.
  - vm_compute. lia.
Defined.

Lemma training_step_1 :
  exists dl',
    training_step 2 config_1 loader_1
    = Done (mk_step_batches
              [[102; 111; 111]; [103; 111]]%N
              [[103; 111]; [98; 97; 114]]%N
              [([[102; 959; 959]]%N, [[102; 111; 111]]%N)],
            dl').
Proof. eexists. vm_compute. reflexivity. Qed.

Lemma utility_batch_is_last_batch_witness :
  exists earlier : list str,
    [[102; 111; 111]; [103; 111]]%N
    = firstn 2 (earlier ++ [[103; 111]; [98; 97; 114]]%N) /\
    length earlier < 2 <= length (earlier ++ [[103; 111]; [98; 97; 114]]%N) /\
    (earlier = [] -> length [[103; 111]; [98; 97; 114]]%N = 2 ->
     [[103; 111]; [98; 97; 114]]%N = [[102; 111; 111]; [103; 111]]%N) /\
    (length [[103; 111]; [98; 97; 114]]%N <> 2 ->
     [[103; 111]; [98; 97; 114]]%N <> [[102; 111; 111]; [103; 111]]%N).
Proof.
  destruct training_step_1 as [dl' Hstep].
  exact (utility_batch_is_last_batch config_1 loader_1 dl' 2 _ Hstep).
Defined.

Lemma poisoned_batches_aligned_witness :
  Forall2 (paired config_1) [omicron]
    [([[102; 959; 959]]%N, [[102; 111; 111]]%N)].
Proof.
  destruct training_step_1 as [dl' Hstep].
  exact (poisoned_batches_aligned config_1 loader_1 dl' 2 _ Hstep).
Defined.

Lemma poisoned_samples_differ_witness :
  Forall2
    (fun h pair =>
       Forall2 (fun poisoned clean =>
                  contains poisoned (homoglyph h) = true /\
                  contains clean (homoglyph h) = false /\
                  poisoned <> clean)
               (fst pair) (snd pair))
    [omicron] [([[102; 959; 959]]%N, [[102; 111; 111]]%N)].
Proof.
  destruct training_step_1 as [dl' Hstep].
  exact (poisoned_samples_differ config_1 loader_1 dl' 2 _ Hstep).
Defined.

Lemma poisoned_samples_lose_character_witness :
  Forall2
    (fun h pair =>
       forall c : N,
         replaced_character h = [c] -> ~ In c (homoglyph h) ->
         Forall2 (fun poisoned clean =>
                    let occ := count_occ N.eq_dec clean c in
                    1 <= occ /\
                    count_occ N.eq_dec poisoned c
                    = occ - replaced_occurrences config_1 occ)
                 (fst pair) (snd pair))
    [omicron] [([[102; 959; 959]]%N, [[102; 111; 111]]%N)].
Proof.
  destruct training_step_1 as [dl' Hstep].
  exact (poisoned_samples_lose_character config_1 loader_1 dl' 2 _ Hstep).
Defined.

Lemma empty_homoglyph_never_returns_witness :
  training_step 5 config_empty loader_1
  <> Done (mk_step_batches [] [] [], loader_1).
Proof.
  apply (empty_homoglyph_never_returns config_empty
           (mk_homoglyph [] [111]%N)).
  - now left.
  - reflexivity.
Defined.
